(** * plenoptic: perceptual distances and the synthesis checkpoint loader

    A shallow embedding of [plenoptic/metric/perceptual_distance.py] and of
    [Synthesis.save] and [Synthesis.load] from
    [plenoptic/synthesize/synthesis.py].

    Tensors carry a shape and a value for every index; their entries are
    real numbers, so every statement below is about exact arithmetic and
    says nothing on float32 rounding.  Rocq's division is total ([x / 0]
    is [0]) where torch yields [nan] or [inf]; every theorem that relies on
    a quotient states that its divisor is not zero. *)

From stdpp Require Import gmap strings.
From Stdlib Require Import Reals Lra Lia.

(** ** Exceptions, warnings and the monad of the metric code *)

Inductive exn : Type :=
| EmptyReduction      (* torch: min()/max() of a tensor without elements *)
| IndexError          (* torch / python: index or dimension out of range *)
| ShapeError          (* torch: unsqueeze/expand/mm/cat on unfit shapes *)
| BroadcastError      (* torch: elementwise operands do not broadcast *)
| ConvError           (* torch: conv2d input and weight do not fit *)
| MatmulError         (* torch: matmul inner dimensions differ *)
| HeightWidthMismatch (* "img1 and img2 must have the same height and width!" *)
| BatchMismatch (shape1 shape2 : list nat)
                      (* "Either img1 and img2 should have the same ..." *)
| WindowNotFourDims.  (* "window must have 4 dimensions!" *)

Inductive warning : Type :=
| RangeWarning (dynamic_range : Z) (img1_range img2_range : R * R)
| MultiChannelWarning (* "SSIM was developed on grayscale images, ..." *)
| WindowSumWarning.   (* "window should have sum of 1! normalizing..." *)

(** A computation emits warnings, in order, and either raises or returns. *)
Definition M (A : Type) : Type := (list warning * (exn + A))%type.

Global Instance M_ret : MRet M := fun A a => ([], inr a).

Global Instance M_bind : MBind M := fun A B f m =>
  match m with
  | (w, inl e) => (w, inl e)
  | (w, inr a) => let '(w', r) := f a in (w ++ w', r)
  end.

Definition raise {A : Type} (e : exn) : M A := ([], inl e).
Definition warn (w : warning) : M unit := ([w], inr tt).
Definition lift {A : Type} (r : exn + A) : M A := ([], r).

(** What a computation returns or raises, and what it warned about. *)
Definition outcome {A : Type} (m : M A) : exn + A := m.2.
Definition warnings {A : Type} (m : M A) : list warning := m.1.

(** ** The tensor operations the code calls *)

Module Torch.

Local Open Scope R_scope.

Record tensor : Type := mkTensor { shape : list nat; data : list nat -> R }.

Definition ndim (t : tensor) : nat := length (shape t).

Fixpoint Rsum (n : nat) (f : nat -> R) : R :=
  match n with
  | O => 0
  | S k => Rsum k f + f k
  end.

Definition Rsum2 (n m : nat) (f : nat -> nat -> R) : R :=
  Rsum n (fun a => Rsum m (fun b => f a b)).

(** Sum of [f] over every index of a shape. *)
Fixpoint sum_over (s : list nat) (f : list nat -> R) : R :=
  match s with
  | [] => f []
  | d :: s' => Rsum d (fun i => sum_over s' (fun idx => f (i :: idx)))
  end.

Definition numel (s : list nat) : nat := fold_right Nat.mul 1%nat s.

Fixpoint indices (s : list nat) : list (list nat) :=
  match s with
  | [] => [[]]
  | d :: s' => flat_map (fun i => map (cons i) (indices s')) (seq 0 d)
  end.

Definition Rgtb (x y : R) : bool := if Rlt_dec y x then true else false.
Definition Rltb (x y : R) : bool := if Rlt_dec x y then true else false.
Definition Rleb (x y : R) : bool := if Rle_dec x y then true else false.

(** [t.min()] and [t.max()] over all elements. *)
Definition tmin (t : tensor) : exn + R :=
  match map (data t) (indices (shape t)) with
  | [] => inl EmptyReduction
  | x :: xs => inr (fold_left Rmin xs x)
  end.

Definition tmax (t : tensor) : exn + R :=
  match map (data t) (indices (shape t)) with
  | [] => inl EmptyReduction
  | x :: xs => inr (fold_left Rmax xs x)
  end.

(** Broadcasting aligns shapes from the last dimension. *)
Fixpoint broadcast_rev (r1 r2 : list nat) : option (list nat) :=
  match r1, r2 with
  | [], r => Some r
  | r, [] => Some r
  | d1 :: r1', d2 :: r2' =>
      match broadcast_rev r1' r2' with
      | None => None
      | Some r =>
          if (d1 =? d2)%nat then Some (d1 :: r)
          else if (d1 =? 1)%nat then Some (d2 :: r)
          else if (d2 =? 1)%nat then Some (d1 :: r)
          else None
      end
  end.

Definition broadcast_shapes (s1 s2 : list nat) : option (list nat) :=
  match broadcast_rev (rev s1) (rev s2) with
  | Some r => Some (rev r)
  | None => None
  end.

(** A dimension of size 1 is read at 0 whatever the index. *)
Definition bsel (d i : nat) : nat := if (d =? 1)%nat then O else i.

Fixpoint bidx_rev (r ri : list nat) : list nat :=
  match r, ri with
  | d :: r', i :: ri' => bsel d i :: bidx_rev r' ri'
  | _, _ => []
  end.

(** The index of an operand of shape [s] read at index [idx] of the
    broadcast result. *)
Definition bidx (s idx : list nat) : list nat :=
  rev (bidx_rev (rev s) (rev idx)).

Definition bget (t : tensor) (idx : list nat) : R :=
  data t (bidx (shape t) idx).

(** Elementwise binary operation of two tensors. *)
Definition binary (f : R -> R -> R) (a b : tensor) : exn + tensor :=
  match broadcast_shapes (shape a) (shape b) with
  | None => inl BroadcastError
  | Some s => inr (mkTensor s (fun idx => f (bget a idx) (bget b idx)))
  end.

(** Elementwise operation with python scalars. *)
Definition tmap (f : R -> R) (a : tensor) : tensor :=
  mkTensor (shape a) (fun idx => f (data a idx)).

(** [t.unsqueeze(dim)] for [0 <= dim <= t.ndim]. *)
Definition unsqueeze (t : tensor) (dim : nat) : exn + tensor :=
  if (dim <=? ndim t)%nat
  then inr (mkTensor (take dim (shape t) ++ 1%nat :: drop dim (shape t))
                     (fun idx => data t (take dim idx ++ drop (S dim) idx)))
  else inl IndexError.

(** [t.t()] of a 2d tensor. *)
Definition transpose (t : tensor) : exn + tensor :=
  match shape t with
  | [n; m] => inr (mkTensor [m; n]
                     (fun idx => match idx with
                                 | [i; j] => data t [j; i]
                                 | _ => 0
                                 end))
  | _ => inl ShapeError
  end.

(** [a.mm(b)] of 2d tensors. *)
Definition mm (a b : tensor) : exn + tensor :=
  match shape a, shape b with
  | [n; m], [m'; p] =>
      if (m =? m')%nat
      then inr (mkTensor [n; p]
                  (fun idx => match idx with
                              | [i; j] =>
                                  Rsum m (fun k => data a [i; k] * data b [k; j])
                              | _ => 0
                              end))
      else inl ShapeError
  | _, _ => inl ShapeError
  end.

Fixpoint expandable (s target : list nat) : bool :=
  match s, target with
  | [], [] => true
  | d :: s', e :: target' =>
      ((d =? e)%nat || (d =? 1)%nat) && expandable s' target'
  | _, _ => false
  end.

(** [t.expand] onto [target], a shape of the same number of dimensions. *)
Definition expand (t : tensor) (target : list nat) : exn + tensor :=
  if expandable (shape t) target
  then inr (mkTensor target (fun idx => bget t idx))
  else inl ShapeError.

(** The last two dimensions of a shape, and what precedes them. *)
Definition split_last2 (s : list nat) : option (list nat * nat * nat) :=
  match rev s with
  | w :: h :: r => Some (rev r, h, w)
  | _ => None
  end.

(** [t.sum((-1, -2), keepdim)]. *)
Definition sum_last2 (keepdim : bool) (t : tensor) : exn + tensor :=
  match split_last2 (shape t) with
  | None => inl IndexError
  | Some (pre, h, w) =>
      inr (mkTensor (if keepdim then pre ++ [1%nat; 1%nat] else pre)
             (fun idx =>
                let p := take (length pre) idx in
                Rsum2 h w (fun i j => data t (p ++ [i; j]))))
  end.

(** [t.mean((-1, -2))]. *)
Definition mean_last2 (t : tensor) : exn + tensor :=
  match split_last2 (shape t) with
  | None => inl IndexError
  | Some (pre, h, w) =>
      inr (mkTensor pre
             (fun idx =>
                let p := take (length pre) idx in
                Rsum2 h w (fun i j => data t (p ++ [i; j])) / INR (h * w)))
  end.

(** [torch.mean(t)]: a 0-dimensional tensor. *)
Definition mean (t : tensor) : tensor :=
  mkTensor [] (fun _ => sum_over (shape t) (data t) / INR (numel (shape t))).

(** The zero-padded input of a convolution. *)
Definition padded (t : tensor) (p : nat) (idx : list nat) : R :=
  match shape t, idx with
  | [_; _; h; w], [b; c; i; j] =>
      if (p <=? i)%nat && (i <? h + p)%nat && (p <=? j)%nat && (j <? w + p)%nat
      then data t [b; c; (i - p)%nat; (j - p)%nat]
      else 0
  | _, _ => 0
  end.

Definition conv2d_data (input weight : tensor) (padding : nat)
    (ch_per_out cpg kh kw : nat) (idx : list nat) : R :=
  match idx with
  | [b; o; i; j] =>
      Rsum cpg (fun ci =>
        Rsum2 kh kw (fun a a' =>
          padded input padding
            [b; (o / ch_per_out * cpg + ci)%nat; (i + a)%nat; (j + a')%nat]
          * data weight [o; ci; a; a']))
  | _ => 0
  end.

(** [F.conv2d(input, weight, padding=padding, groups=groups)] with stride 1:
    a cross-correlation; output channel [o] belongs to group
    [o / (cout / groups)] and reads that group's [cin / groups] channels. *)
Definition conv2d (input weight : tensor) (padding groups : nat)
    : exn + tensor :=
  match shape input, shape weight with
  | [n; cin; h; w], [cout; cpg; kh; kw] =>
      if (0 <? groups)%nat && (cin =? cpg * groups)%nat
         && (cout mod groups =? 0)%nat
         && (kh <=? h + 2 * padding)%nat && (kw <=? w + 2 * padding)%nat
      then inr (mkTensor
                  [n; cout; (h + 2 * padding - kh + 1)%nat;
                   (w + 2 * padding - kw + 1)%nat]
                  (conv2d_data input weight padding (cout / groups) cpg kh kw))
      else inl ConvError
  | _, _ => inl ConvError
  end.

Definition matmul_data (a b : tensor) (sa sb : list nat) (m : nat)
    (idx : list nat) : R :=
  match idx with
  | [x; c; i; j] =>
      Rsum m (fun k => data a (bidx sa [x; c] ++ [i; k])
                       * data b (bidx sb [x; c] ++ [k; j]))
  | _ => 0
  end.

(** [torch.matmul(a, b)] of two 4d tensors: a matrix product over the last
    two dimensions, the leading two broadcast.  (The code only calls it on
    outputs of [conv2d], which are 4d.) *)
Definition matmul (a b : tensor) : exn + tensor :=
  match shape a, shape b with
  | [b1; c1; n; m], [b2; c2; m'; p] =>
      if (m =? m')%nat
      then match broadcast_shapes [b1; c1] [b2; c2] with
           | Some [bb; cc] =>
               inr (mkTensor [bb; cc; n; p]
                      (matmul_data a b [b1; c1] [b2; c2] m))
           | _ => inl MatmulError
           end
      else inl MatmulError
  | _, _ => inl MatmulError
  end.

(** [torch.cat((a, b), 0)].  An empty tensor of shape [(0,)] beside a
    tensor of more dimensions is skipped, as torch does for such
    tensors. *)
Definition cat0 (a b : tensor) : exn + tensor :=
  match shape a, shape b with
  | [O], _ :: _ :: _ => inr b
  | _ :: _ :: _, [O] => inr a
  | n1 :: s1, n2 :: s2 =>
      if decide (s1 = s2)
      then inr (mkTensor ((n1 + n2)%nat :: s1)
                  (fun idx => match idx with
                              | i :: r => if (i <? n1)%nat then data a (i :: r)
                                          else data b ((i - n1)%nat :: r)
                              | [] => 0
                              end))
      else inl ShapeError
  | _, _ => inl ShapeError
  end.

(** [t[k]]: indexing the first dimension. *)
Definition select (t : tensor) (k : nat) : exn + tensor :=
  match shape t with
  | n :: s => if (k <? n)%nat
              then inr (mkTensor s (fun idx => data t (k :: idx)))
              else inl IndexError
  | [] => inl IndexError
  end.

(** [t[start : start + len]] on the first dimension. *)
Definition narrow (t : tensor) (start len : nat) : exn + tensor :=
  match shape t with
  | n :: s => if (start + len <=? n)%nat
              then inr (mkTensor (len :: s)
                          (fun idx => match idx with
                                      | i :: r => data t ((start + i)%nat :: r)
                                      | [] => 0
                                      end))
              else inl IndexError
  | [] => inl IndexError
  end.

(** [torch.stack(l).mean()] of a list of 0-dimensional tensors. *)
Definition stack_mean (l : list tensor) : tensor :=
  mkTensor [] (fun _ => fold_right Rplus 0 (map (fun t => data t []) l)
                        / INR (length l)).

End Torch.

(** ** plenoptic/metric/perceptual_distance.py *)

Module perceptual_distance.

Import Torch.
Local Open Scope R_scope.

(** [for x in l: ...append(f(x))] *)
Fixpoint mapM {A B : Type} (f : A -> M B) (l : list A) : M (list B) :=
  match l with
  | [] => mret []
  | x :: l' => y ← f x; ys ← mapM f l'; mret (y :: ys)
  end.

(** [l[i]] on a python list. *)
Definition item {A : Type} (l : list A) (i : nat) : M A :=
  match l !! i with
  | Some x => mret x
  | None => raise IndexError
  end.

(** [_gaussian(window_size, sigma)]: the values
    [exp(-(x - mu)**2 / (2*sigma**2))] for [x] in [arange(window_size)],
    [mu = window_size // 2]. *)
Definition _gaussian (window_size : nat) (sigma : R) : tensor :=
  let mu := (window_size / 2)%nat in
  mkTensor [window_size]
    (fun idx => match idx with
                | [x] => exp ((- (INR x - INR mu) ^ 2) / (2 * sigma ^ 2))
                | _ => 0
                end).

(** [create_window(window_size, n_channels)] *)
Definition create_window (window_size n_channels : nat) : M tensor :=
  _1D_window ← lift (unsqueeze (_gaussian window_size 1.5) 1);
  _1D_t ← lift (transpose _1D_window);
  prod ← lift (mm _1D_window _1D_t);
  prod1 ← lift (unsqueeze prod 0);
  _2D_window ← lift (unsqueeze prod1 0);
  window ← lift (expand _2D_window
                   [n_channels; 1%nat; window_size; window_size]);
  total ← lift (sum_last2 true window);
  lift (binary Rdiv window total).

(** Lines 91-106 of [_ssim_parts]: the advisory on the declared range. *)
Definition check_range (img1 img2 : tensor) (dynamic_range : Z) : M unit :=
  min1 ← lift (tmin img1);
  max1 ← lift (tmax img1);
  min2 ← lift (tmin img2);
  max2 ← lift (tmax img2);
  let img_ranges := [min1; max1; min2; max2] in
  let any_gt c := existsb (fun x => Rgtb x c) img_ranges in
  let any_lt c := existsb (fun x => Rltb x c) img_ranges in
  let advisory := warn (RangeWarning dynamic_range (min1, max1) (min2, max2)) in
  if (dynamic_range =? 1)%Z then
    if any_gt 1 || any_lt 0 then advisory else mret tt
  else if (dynamic_range =? 2)%Z then
    if any_gt 1 || any_lt (-1) then advisory else mret tt
  else if (dynamic_range =? 255)%Z then
    if any_gt 255 || any_lt 0 then advisory else mret tt
  else mret tt.

(** [s[-2:]] of a shape. *)
Definition last2 (s : list nat) : list nat := drop (length s - 2) s.

(** Lines 108-119 of [_ssim_parts]: unpacking [img1.shape] and the two
    shape checks.  Returns [n_channels, height, width]. *)
Definition check_shapes (img1 img2 : tensor) : M (nat * nat * nat) :=
  match shape img1 with
  | [n_batches; n_channels; height; width] =>
      _ ← (if (1 <? n_channels)%nat then warn MultiChannelWarning
           else mret tt);
      if decide (last2 (shape img2) ≠ [height; width])
      then raise HeightWidthMismatch
      else
        match shape img2 with
        | [] => raise IndexError
        | n_batches2 :: _ =>
            if decide (n_batches ≠ n_batches2)
            then if decide (n_batches ≠ 1%nat ∧ n_batches2 ≠ 1%nat)
                 then raise (BatchMismatch (shape img1) (shape img2))
                 else mret (n_channels, height, width)
            else mret (n_channels, height, width)
        end
  | _ => raise IndexError
  end.

(** Lines 125-129 of [_ssim_parts]: the two checks on the window. *)
Definition check_window (window : tensor) : M tensor :=
  total ← lift (sum_last2 false window);
  window ← (if existsb (fun idx => Rgtb (data total idx) 1)
                 (indices (shape total))
            then _ ← warn WindowSumWarning;
                 total' ← lift (sum_last2 true window);
                 lift (binary Rdiv window total')
            else mret window);
  if decide (ndim window ≠ 4%nat) then raise WindowNotFourDims
  else mret window.

(** Lines 131-159 of [_ssim_parts]: the windowed statistics and the maps. *)
Definition ssim_maps (img1 img2 window : tensor) (padd n_channels : nat)
    (dynamic_range : Z) : M (tensor * tensor * tensor) :=
  mu1 ← lift (conv2d img1 window padd n_channels);
  mu2 ← lift (conv2d img2 window padd n_channels);
  let mu1_sq := tmap (fun x => x ^ 2) mu1 in
  let mu2_sq := tmap (fun x => x ^ 2) mu2 in
  mu1_mu2 ← lift (binary Rmult mu1 mu2);
  img1_img1 ← lift (binary Rmult img1 img1);
  conv11 ← lift (conv2d img1_img1 window padd n_channels);
  sigma1_sq ← lift (binary Rminus conv11 mu1_sq);
  img2_img2 ← lift (binary Rmult img2 img2);
  conv22 ← lift (conv2d img2_img2 window padd n_channels);
  sigma2_sq ← lift (binary Rminus conv22 mu2_sq);
  img1_img2 ← lift (binary Rmult img1 img2);
  conv12 ← lift (conv2d img1_img2 window padd n_channels);
  sigma12 ← lift (binary Rminus conv12 mu1_mu2);
  let C1 := (0.01 * IZR dynamic_range) ^ 2 in
  let C2 := (0.03 * IZR dynamic_range) ^ 2 in
  let v1 := tmap (fun x => 2.0 * x + C2) sigma12 in
  sigma_sum ← lift (binary Rplus sigma1_sq sigma2_sq);
  let v2 := tmap (fun x => x + C2) sigma_sum in
  contrast_map ← lift (binary Rdiv v1 v2);
  prod ← lift (matmul (tmap (fun x => 1 + x / C2) sigma1_sq)
                      (tmap (fun x => 1 + x / C2) sigma2_sq));
  let weight := tmap ln prod in
  let lum_num := tmap (fun x => 2 * x + C1) mu1_mu2 in
  mu_sum ← lift (binary Rplus mu1_sq mu2_sq);
  let lum_den := tmap (fun x => x + C1) mu_sum in
  num ← lift (binary Rmult lum_num v1);
  den ← lift (binary Rmult lum_den v2);
  _ ← lift (binary Rdiv num den);
  lum ← lift (binary Rdiv lum_num lum_den);
  ssim_map ← lift (binary Rmult lum contrast_map);
  mret (ssim_map, contrast_map, weight).

(** [_ssim_parts(img1, img2, dynamic_range)] *)
Definition _ssim_parts (img1 img2 : tensor) (dynamic_range : Z)
    : M (tensor * tensor * tensor) :=
  _ ← check_range img1 img2 dynamic_range;
  let padd := 0%nat in
  '(n_channels, height, width) ← check_shapes img1 img2;
  let real_size := Nat.min 11 (Nat.min height width) in
  window ← create_window real_size n_channels;
  window ← check_window window;
  ssim_maps img1 img2 window padd n_channels dynamic_range.

(** [ssim(img1, img2, weighted, dynamic_range)] *)
Definition ssim (img1 img2 : tensor) (weighted : bool) (dynamic_range : Z)
    : M tensor :=
  '(map_ssim, _, weight) ← _ssim_parts img1 img2 dynamic_range;
  if negb weighted then lift (mean_last2 map_ssim)
  else
    weighted_map ← lift (binary Rmult map_ssim weight);
    num ← lift (sum_last2 false weighted_map);
    den ← lift (sum_last2 false weight);
    lift (binary Rdiv num den).

(** [ssim_map(img1, img2, dynamic_range)] *)
Definition ssim_map (img1 img2 : tensor) (dynamic_range : Z) : M tensor :=
  '(map_ssim, _, _) ← _ssim_parts img1 img2 dynamic_range;
  mret map_ssim.

Section NLPD.

(** [Laplacian_Pyramid(n_scales).analysis(im)] lives in
    [simulate/canonical_computations.py] and the two arrays in
    [DN_filts.npy] and [DN_sigmas.npy]; none of them is part of the
    sources at hand, so they are parameters of the distance. *)
Variable Laplacian_Pyramid_analysis : nat -> tensor -> M (list tensor).
Variable spatialpooling_filters : tensor.
Variable sigmas : tensor.

(** [normalized_laplacian_pyramid(im)] *)
Definition normalized_laplacian_pyramid (im : tensor) : M (list tensor) :=
  match shape im with
  | [_; channel; height; width] =>
      let N_scales := 6%nat in
      laplacian_activations ← Laplacian_Pyramid_analysis N_scales im;
      let padd := 2%nat in
      mapM (fun N_b =>
              f ← lift (select spatialpooling_filters N_b);
              f1 ← lift (unsqueeze f 0);
              filt ← lift (unsqueeze f1 0);
              act ← item laplacian_activations N_b;
              filtered_activations ←
                lift (conv2d (tmap Rabs act) filt padd channel);
              sigma ← lift (select sigmas N_b);
              den ← lift (binary Rplus sigma filtered_activations);
              lift (binary Rdiv act den))
           (seq 0 N_scales)
  | _ => raise IndexError
  end.

(** One term of the loop of [nlpd]:
    [torch.sqrt(torch.mean((y[i][0] - y[i][1]) ** 2) + epsilon)]. *)
Definition scale_distance (epsilon : R) (y : list tensor) (i : nat)
    : M tensor :=
  yi ← item y i;
  y0 ← lift (select yi 0);
  y1 ← lift (select yi 1);
  diff ← lift (binary Rminus y0 y1);
  mret (tmap (fun m => sqrt (m + epsilon)) (mean (tmap (fun x => x ^ 2) diff))).

(** [nlpd(IM_1, IM_2)] *)
Definition nlpd (IM_1 IM_2 : tensor) : M tensor :=
  both ← lift (cat0 IM_1 IM_2);
  y ← normalized_laplacian_pyramid both;
  let epsilon := 1e-10 in
  dist ← mapM (scale_distance epsilon y) (seq 0 6);
  mret (stack_mean dist).

(** The distance as the specification words it: every normalized scale
    is split along the batch axis into the half of [IM_1] and the half of
    [IM_2], and the term of a scale is
    [sqrt(mean((half1 - half2)^2) + epsilon)]. *)
Definition scale_distance_halves (epsilon : R) (n1 n2 : nat)
    (y : list tensor) (i : nat) : M tensor :=
  yi ← item y i;
  half1 ← lift (narrow yi 0 n1);
  half2 ← lift (narrow yi n1 n2);
  diff ← lift (binary Rminus half1 half2);
  mret (tmap (fun m => sqrt (m + epsilon)) (mean (tmap (fun x => x ^ 2) diff))).

Definition nlpd_halves (IM_1 IM_2 : tensor) : M tensor :=
  both ← lift (cat0 IM_1 IM_2);
  y ← normalized_laplacian_pyramid both;
  dist ← mapM (scale_distance_halves 1e-10
                 (hd O (shape IM_1)) (hd O (shape IM_2)) y) (seq 0 6);
  mret (stack_mean dist).

End NLPD.

End perceptual_distance.

(** ** plenoptic/synthesize/synthesis.py: [Synthesis.load] and [Synthesis.save] *)

Module synthesis.

Import Torch.
Local Open Scope R_scope.

(** The python values an attribute or a saved entry can hold.  A callable
    carries a name to tell it by; any other value is kept by its
    [repr]. *)
Inductive value : Type :=
| VTensor (device : string) (t : tensor)
| VCallable (id : string) (f : tensor -> tensor -> tensor)
| VShape (s : list nat)
| VOther (repr : string).

Inductive load_exn : Type :=
| FileNotFound
| UnboundLocalError            (* [device] was never assigned *)
| KeyError (k : string)
| AttributeError (k : string)
| TypeError
| RuntimeError
| NotSetAtInit (k : string)    (* "All values of `check_attributes` should be ..." *)
| Different (k : string)       (* "Saved and initialized k are different!" *)
| DifferentShapes (k : string) (* "Attribute k have different shapes ..." *)
| LossDifferent (k : string).  (* "... different! On two random tensors: ..." *)

(** [self.__dict__] *)
Abbreviation attrs := (gmap string value).

(** A method body reads and writes the attributes of [self] and either
    raises or returns. *)
Definition St (A : Type) : Type := attrs -> (load_exn + A) * attrs.

Global Instance St_ret : MRet St := fun A a s => (inr a, s).

Global Instance St_bind : MBind St := fun A B f m s =>
  match m s with
  | (inl e, s') => (inl e, s')
  | (inr a, s') => f a s'
  end.

Definition throw {A : Type} (e : load_exn) : St A := fun s => (inl e, s).

Definition hasattr (k : string) : St bool :=
  fun s => (inr (bool_decide (is_Some (s !! k))), s).

Definition getattr (k : string) : St value :=
  fun s => match s !! k with
           | Some v => (inr v, s)
           | None => (inl (AttributeError k), s)
           end.

Definition setattr (k : string) (v : value) : St unit :=
  fun s => (inr tt, <[k := v]> s).

(** [for x in l: body], the body told the number of the iteration. *)
Fixpoint for_each {A : Type} (body : nat -> A -> St unit) (n : nat)
    (l : list A) : St unit :=
  match l with
  | [] => mret tt
  | x :: l' => _ ← body n x; for_each body (S n) l'
  end.

(** [d[k]] on the loaded dictionary, kept in the order of its items. *)
Fixpoint dict_get (d : list (string * value)) (k : string) : St value :=
  match d with
  | [] => throw (KeyError k)
  | (k', v) :: d' => if decide (k' = k) then mret v else dict_get d' k
  end.

(** [torch.allclose(input, other, rtol=rtol)] with the default
    [atol = 1e-8]; [None] stands for the RuntimeError of operands that do
    not broadcast. *)
Definition allclose (input other : tensor) (rtol : R) : option bool :=
  match broadcast_shapes (shape input) (shape other) with
  | None => None
  | Some s =>
      Some (forallb (fun idx =>
                       Rleb (Rabs (bget input idx - bget other idx))
                            (1e-8 + rtol * Rabs (bget other idx)))
              (indices s))
  end.

(** The device of the first tensor among [tmp_dict.values()]. *)
Fixpoint first_device (vals : list value) : option string :=
  match vals with
  | [] => None
  | VTensor d _ :: _ => Some d
  | _ :: vals' => first_device vals'
  end.

Section Load.

(** What [torch.load] finds under a path, and the draws of
    [torch.rand]: the [n]-th draw of a given shape. *)
Variable files : string -> option (list (string * value)).
Variable rand : nat -> list nat -> tensor.

(** [a != b] followed by the truth test of [if], for an attribute that
    is not a tensor.  Python hands the comparison to the values: [1] is
    not unequal to [1.0], a [nan] is unequal to itself, and an array of
    several elements or a list of tensors raises in the test.  It is
    left open here: the answer, or the exception. *)
Variable py_ne : value -> value -> load_exn + bool.

Definition torch_load (file_path : string) (map_location : option string)
    : St (list (string * value)) :=
  match files file_path with
  | None => throw FileNotFound
  | Some d =>
      mret (match map_location with
            | None => d
            | Some dev =>
                map (fun kv => match kv with
                               | (k, VTensor _ t) => (k, VTensor dev t)
                               | _ => kv
                               end) d
            end)
  end.

(** The body of the loop over [check_attributes], lines 112-136. *)
Definition check_attribute (tmp_dict : list (string * value)) (k : string)
    : St unit :=
  known ← hasattr k;
  if negb known then throw (NotSetAtInit k)
  else
    init ← getattr k;
    match init with
    | VTensor _ t =>
        saved ← dict_get tmp_dict k;
        match saved with
        | VTensor _ t' =>
            match allclose t t' 5e-2 with
            | None => throw (DifferentShapes k)
            | Some close =>
                if negb close then throw (Different k) else mret tt
            end
        | _ => throw (AttributeError "device")
        end
    | _ =>
        saved ← dict_get tmp_dict k;
        match py_ne init saved with
        | inl e => throw e
        | inr ne => if ne then throw (Different k) else mret tt
        end
    end.

(** The body of the loop over [check_loss_functions], lines 139-147. *)
Definition check_loss_function (tmp_dict : list (string * value))
    (device : option string) (n : nat) (k : string) : St unit :=
  signal_shape ← getattr "_signal_shape";
  match signal_shape with
  | VShape s =>
      let draw := rand n (2%nat :: s) in
      match device with
      | None => throw UnboundLocalError
      | Some _ =>
          let tensor_a := mkTensor s (fun idx => data draw (0%nat :: idx)) in
          let tensor_b := mkTensor s (fun idx => data draw (1%nat :: idx)) in
          saved ← dict_get tmp_dict k;
          match saved with
          | VCallable _ saved_fn =>
              let saved_loss := saved_fn tensor_a tensor_b in
              init ← getattr k;
              match init with
              | VCallable _ init_fn =>
                  let init_loss := init_fn tensor_a tensor_b in
                  match allclose saved_loss init_loss 1e-2 with
                  | None => throw RuntimeError
                  | Some close =>
                      if negb close then throw (LossDifferent k)
                      else mret tt
                  end
              | _ => throw TypeError
              end
          | _ => throw TypeError
          end
      end
  | _ => throw TypeError
  end.

(** [for k, v in tmp_dict.items(): setattr(self, k, v)] *)
Definition assign_all (tmp_dict : list (string * value)) : St unit :=
  for_each (fun _ kv => setattr kv.1 kv.2) 0 tmp_dict.

(** [Synthesis.load(self, file_path, map_location, check_attributes,
    check_loss_functions)] *)
Definition load (file_path : string) (map_location : option string)
    (check_attributes check_loss_functions : list string) : St unit :=
  tmp_dict ← torch_load file_path map_location;
  let device := match map_location with
                | Some d => Some d
                | None => first_device (map snd tmp_dict)
                end in
  _ ← for_each (fun _ k => check_attribute tmp_dict k) 0 check_attributes;
  _ ← for_each (fun n k => check_loss_function tmp_dict device n k) 0
        check_loss_functions;
  assign_all tmp_dict.

End Load.

(** *** [Synthesis.save] *)

Inductive save_warning : Type :=
| ModelSaved.  (* "Models can be quite large and they don't change ..." *)

(** [d[k] = v] on a python dict, kept in the order of its items: the
    value of a key that is there is replaced where it stands, a new key
    goes last. *)
Fixpoint dict_set (d : list (string * value)) (k : string) (v : value)
    : list (string * value) :=
  match d with
  | [] => [(k, v)]
  | (k', v') :: d' =>
      if decide (k' = k) then (k, v) :: d' else (k', v') :: dict_set d' k v
  end.

(** [t.detach()]: the tensor on the same device with the same entries,
    cut from the graph of gradients (which [value] does not record). *)
Definition detach (device : string) (t : tensor) : value := VTensor device t.

(** The loop of [save], lines 45-55, filling [save_dict]: what it warns
    about, and the dictionary or the exception of [getattr]. *)
Fixpoint save_loop (self : attrs) (names : list string)
    (save_dict : list (string * value))
    : list save_warning * (load_exn + list (string * value)) :=
  match names with
  | [] => ([], inr save_dict)
  | k :: names' =>
      let w := if decide (k = "model") then [ModelSaved] else [] in
      match (getattr k self).1 with
      | inl e => (w, inl e)
      | inr attr =>
          let attr := match attr with
                      | VTensor device t => detach device t
                      | _ => attr
                      end in
          let '(w', r) := save_loop self names' (dict_set save_dict k attr) in
          (w ++ w', r)
      end
  end.

Section Save.

(** [torch.save(save_dict, file_path)] is part of torch: the files
    afterwards, or the exception of a path that cannot be written or of
    a value that cannot be pickled. *)
Variable torch_save :
  (string -> option (list (string * value))) -> string ->
  list (string * value) ->
  load_exn + (string -> option (list (string * value))).

(** [Synthesis.save(self, file_path, attrs)]: the warnings, and the
    files after [torch.save] or the exception.  With [attrs=None] the
    names are the keys of [vars(self)] less ['model']; python lists them
    in the order the attributes were first set, which [attrs] does not
    record, so they are taken in the order of [map_to_list]. *)
Definition save (files : string -> option (list (string * value)))
    (file_path : string) (names : option (list string)) (self : attrs)
    : list save_warning
      * (load_exn + (string -> option (list (string * value)))) :=
  let names := match names with
               | None => (map_to_list (delete "model" self)).*1
               | Some names => names
               end in
  match save_loop self names [] with
  | (w, inl e) => (w, inl e)
  | (w, inr save_dict) => (w, torch_save files file_path save_dict)
  end.

End Save.

End synthesis.

(** ** Quantities the statements on checkpoints are phrased with *)

Module checkpoints.

Import synthesis.

(** The value a dictionary holds under a key, if any. *)
Fixpoint dict_lookup (d : list (string * value)) (k : string)
    : option value :=
  match d with
  | [] => None
  | (k', v) :: d' => if decide (k' = k) then Some v else dict_lookup d' k
  end.

(** The attributes after [for k, v in d.items(): setattr(self, k, v)]. *)
Definition assigned (d : list (string * value)) (self : attrs) : attrs :=
  fold_left (fun m kv => <[kv.1 := kv.2]> m) d self.

(** What [save] warns about: once for each time the name ['model'] is
    listed. *)
Definition model_warnings (names : list string) : list save_warning :=
  flat_map (fun k => if decide (k = "model") then [ModelSaved] else [])
    names.

End checkpoints.

(** ** Quantities the statements below are phrased with *)

Module stats.

Import Torch.
Local Open Scope R_scope.

(** An entry of the 1d Gaussian of [_gaussian(window_size, 1.5)]. *)
Definition gauss (window_size x : nat) : R :=
  exp ((- (INR x - INR (window_size / 2)) ^ 2) / (2 * 1.5 ^ 2)).

(** An entry of a channel of the normalized window. *)
Definition window_value (s a b : nat) : R :=
  gauss s a * gauss s b / Rsum2 s s (fun i j => gauss s i * gauss s j).

(** The sum of the [h] by [w] slice of a window at [(a, b)]. *)
Definition channel_sum (t : tensor) (h w a b : nat) : R :=
  Rsum2 h w (fun i j => data t [a; b; i; j]).

(** The patch of channel [c] of image [b] of [t] under the window placed
    at [(i, j)], and its window-weighted statistics. *)
Definition patch (t : tensor) (b c i j a a' : nat) : R :=
  data t [b; c; (i + a)%nat; (j + a')%nat].

Definition wavg (s : nat) (x : nat -> nat -> R) : R :=
  Rsum2 s s (fun a a' => x a a' * window_value s a a').

Definition mean_at (s : nat) (t : tensor) (b c i j : nat) : R :=
  wavg s (patch t b c i j).

Definition second_moment (s : nat) (t1 t2 : tensor) (b1 b2 c i j : nat) : R :=
  wavg s (fun a a' => patch t1 b1 c i j a a' * patch t2 b2 c i j a a').

Definition variance (s : nat) (t : tensor) (b c i j : nat) : R :=
  second_moment s t t b b c i j - mean_at s t b c i j ^ 2.

Definition covariance (s : nat) (t1 t2 : tensor) (b1 b2 c i j : nat) : R :=
  second_moment s t1 t2 b1 b2 c i j
  - mean_at s t1 b1 c i j * mean_at s t2 b2 c i j.

Definition C1 (dynamic_range : Z) : R := (0.01 * IZR dynamic_range) ^ 2.
Definition C2 (dynamic_range : Z) : R := (0.03 * IZR dynamic_range) ^ 2.

Definition luminance_value (s : nat) (t1 t2 : tensor) (dr : Z)
    (b1 b2 c i j : nat) : R :=
  (2 * (mean_at s t1 b1 c i j * mean_at s t2 b2 c i j) + C1 dr)
  / (mean_at s t1 b1 c i j ^ 2 + mean_at s t2 b2 c i j ^ 2 + C1 dr).

Definition contrast_value (s : nat) (t1 t2 : tensor) (dr : Z)
    (b1 b2 c i j : nat) : R :=
  (2.0 * covariance s t1 t2 b1 b2 c i j + C2 dr)
  / (variance s t1 b1 c i j + variance s t2 b2 c i j + C2 dr).

Definition ssim_value (s : nat) (t1 t2 : tensor) (dr : Z)
    (b1 b2 c i j : nat) : R :=
  luminance_value s t1 t2 dr b1 b2 c i j
  * contrast_value s t1 t2 dr b1 b2 c i j.

(** The weight the code computes: the logarithm of an entry of the matrix
    product of the two maps of [1 + variance / C2], [n] columns wide. *)
Definition weight_value (s n : nat) (t1 t2 : tensor) (dr : Z)
    (b1 b2 c i j : nat) : R :=
  ln (Rsum n (fun k => (1 + variance s t1 b1 c i k / C2 dr)
                       * (1 + variance s t2 b2 c k j / C2 dr))).

(** The weight of the docstring of [ssim] and of the specification: the
    logarithm of the product of the two factors at the same position. *)
Definition weight_elementwise (s : nat) (t1 t2 : tensor) (dr : Z)
    (b1 b2 c i j : nat) : R :=
  ln ((1 + variance s t1 b1 c i j / C2 dr)
      * (1 + variance s t2 b2 c i j / C2 dr)).

(** The term of one scale of [nlpd]: the root of the mean squared
    difference of the entries 0 and 1 of the batch of [yi], [epsilon]
    added under the root. *)
Definition scale_rms (epsilon : R) (yi : tensor) : R :=
  sqrt (sum_over (tail (shape yi))
          (fun idx => (data yi (0%nat :: idx) - data yi (1%nat :: idx)) ^ 2)
        / INR (numel (tail (shape yi)))
        + epsilon).

(** What the statements on [nlpd] ask of the pyramid on the batch [im]:
    six scales, each a batch of as many single-channel images as [im],
    none of them empty. *)
Definition six_scales (analysis : nat -> tensor -> M (list tensor))
    (im : tensor) (acts : list tensor) : Prop :=
  outcome (analysis 6%nat im) = inr acts
  /\ length acts = 6%nat
  /\ forall i act, acts !! i = Some act ->
       exists hi wi, (0 < hi)%nat /\ (0 < wi)%nat
                     /\ shape act = [hd 0%nat (shape im); 1%nat; hi; wi].

(** The local energy [normalized_laplacian_pyramid] divides by, less the
    sigma: the 5 by 5 filter of scale [i] applied to the absolute values
    of [act] around [(x, z)], zero-padded by 2. *)
Definition pooled (filters act : tensor) (i b x z : nat) : R :=
  Rsum2 5 5 (fun a a' =>
               padded (tmap Rabs act) 2
                 [b; 0%nat; (x + a)%nat; (z + a')%nat]
               * data filters [i; a; a']).

(** The entries [b] and [b'] of a batch are the same image. *)
Definition same_entries (t : tensor) (b b' : nat) : Prop :=
  forall idx, data t (b :: idx) = data t (b' :: idx).

(** The term of one scale as the specification words it, for two batches
    of [k] images each: the first [k] entries of [yi] against the next
    [k]. *)
Definition halves_rms (epsilon : R) (k : nat) (yi : tensor) : R :=
  sqrt (sum_over (k :: tail (shape yi))
          (fun idx => match idx with
                      | i :: r =>
                          (data yi (i :: r) - data yi ((k + i)%nat :: r)) ^ 2
                      | [] => 0
                      end)
        / INR (numel (k :: tail (shape yi)))
        + epsilon).

(** Two calls end alike: they raise the same exception, or they return
    tensors of one shape that agree at every index of that shape. *)
Definition same_outcome (r1 r2 : exn + tensor) : Prop :=
  match r1, r2 with
  | inl e1, inl e2 => e1 = e2
  | inr t1, inr t2 =>
      shape t1 = shape t2
      /\ forall idx, Forall2 lt idx (shape t1) -> data t1 idx = data t2 idx
  | _, _ => False
  end.

End stats.

(** ** The ranges the advisory of [_ssim_parts] goes by *)

Module ranges.

Import Torch.
Local Open Scope R_scope.

(** The range that goes with a declared [dynamic_range], lines 92-106:
    [[0, 1]] for 1, [[-1, 1]] for 2, [[0, 255]] for 255, none for any
    other value. *)
Definition declared_range (dynamic_range : Z) : option (R * R) :=
  if (dynamic_range =? 1)%Z then Some (0, 1)
  else if (dynamic_range =? 2)%Z then Some (-1, 1)
  else if (dynamic_range =? 255)%Z then Some (0, 255)
  else None.

(** Every entry of [t] lies in [[lo, hi]]. *)
Definition within (t : tensor) (lo hi : R) : Prop :=
  forall idx, Forall2 lt idx (shape t) -> lo <= data t idx <= hi.

End ranges.

(** ** Inputs the statements are tried on *)

Module examples.

Import Torch.
Local Open Scope R_scope.

(** [torch.zeros(s)] *)
Definition zeros (s : list nat) : tensor := mkTensor s (fun _ => 0).

(** Two 2 by 2 images with values in [[0, 1]]: one bright pixel each, at
    different places. *)
Definition spot_a : tensor :=
  mkTensor [1; 1; 2; 2]%nat
    (fun idx => match idx with
                | [_; _; O; S O] => 1
                | _ => 0
                end).

Definition spot_b : tensor :=
  mkTensor [1; 1; 2; 2]%nat
    (fun idx => match idx with
                | [_; _; S O; O] => 1
                | _ => 0
                end).

(** Stand-ins for the parts of [nlpd] that are not in the sources: a
    pyramid that hands back its input at each of the scales, pooling
    filters that are zero and sigmas that are one. *)
Definition echo_pyramid (n_scales : nat) (im : tensor) : M (list tensor) :=
  mret (replicate n_scales im).

Definition zero_filters : tensor := zeros [6; 5; 5]%nat.

Definition unit_sigmas : tensor := mkTensor [6%nat] (fun _ => 1).

(** A batch of two single-channel images of one pixel, a bright one and a
    dark one. *)
Definition bright_dark : tensor :=
  mkTensor [2; 1; 1; 1]%nat
    (fun idx => match idx with
                | O :: _ => 1
                | _ => 0
                end).

(** A checkpoint on disk whose attribute [scale] differs from the one of
    the object that loads it, and that brings a new attribute. *)
Definition saved_run (file_path : string)
    : option (list (string * synthesis.value)) :=
  if decide (file_path = "run.pt")
  then Some [("scale", synthesis.VOther "2"); ("step", synthesis.VOther "7")]
  else None.

Definition fresh_object : gmap string synthesis.value :=
  {[ "scale" := synthesis.VOther "1" ]}.

(** A single image of one pixel. *)
Definition one_pixel : tensor := mkTensor [1; 1; 1; 1]%nat (fun _ => 0.5).

(** A checkpoint that holds a tensor saved on a GPU. *)
Definition gpu_run (file_path : string)
    : option (list (string * synthesis.value)) :=
  if decide (file_path = "gpu.pt")
  then Some [("image", synthesis.VTensor "cuda:0" one_pixel);
             ("step", synthesis.VOther "7")]
  else None.

(** An object that knows the shape of its signal and has a loss
    function and a model. *)
Definition shaped_object : gmap string synthesis.value :=
  {[ "_signal_shape" := synthesis.VShape [1; 1; 1; 1]%nat;
     "loss_function" := synthesis.VCallable "l2_norm" (fun a _ => a);
     "model" := synthesis.VOther "Identity()" ]}.

(** A [!=] that compares two values of one kind by what [value] keeps
    of them, and holds values of different kinds for unequal. *)
Definition repr_ne (a b : synthesis.value) : synthesis.load_exn + bool :=
  inr match a, b with
      | synthesis.VOther x, synthesis.VOther y => negb (bool_decide (x = y))
      | synthesis.VShape x, synthesis.VShape y => negb (bool_decide (x = y))
      | synthesis.VCallable x _, synthesis.VCallable y _ =>
          negb (bool_decide (x = y))
      | _, _ => true
      end.

(** No file at all. *)
Definition no_files (file_path : string)
    : option (list (string * synthesis.value)) := None.

(** A [torch.save] that always manages to write. *)
Definition writable_disk
    (files : string -> option (list (string * synthesis.value)))
    (file_path : string) (save_dict : list (string * synthesis.value))
    : synthesis.load_exn
      + (string -> option (list (string * synthesis.value))) :=
  inr (fun p => if decide (p = file_path) then Some save_dict else files p).

End examples.
(** * Facts *)

(** ** The monad *)

Section MonadFacts.

Context {A B : Type}.

Lemma bind_lift_inr (a : A) (f : A -> M B) : lift (inr a) ≫= f = f a.
Proof. unfold lift, mbind, M_bind. destruct (f a); reflexivity. Qed.

Lemma bind_lift_inl (e : exn) (f : A -> M B) :
  lift (inl e) ≫= f = ([], inl e).
Proof. reflexivity. Qed.

Lemma bind_mret (a : A) (f : A -> M B) : mret a ≫= f = f a.
Proof. unfold mret, M_ret, mbind, M_bind. destruct (f a); reflexivity. Qed.

Lemma outcome_bind_inr (m : M A) (a : A) (f : A -> M B) :
  outcome m = inr a -> outcome (m ≫= f) = outcome (f a).
Proof.
  destruct m as [w [e | a']]; unfold outcome; simpl; intros H; inversion H.
  subst. unfold mbind, M_bind. destruct (f a); reflexivity.
Qed.

Lemma outcome_bind_inl (m : M A) (e : exn) (f : A -> M B) :
  outcome m = inl e -> outcome (m ≫= f) = inl e.
Proof.
  destruct m as [w [e' | a]]; unfold outcome; simpl; intros H; inversion H.
  reflexivity.
Qed.

Lemma warnings_bind_inr (m : M A) (a : A) (f : A -> M B) :
  outcome m = inr a -> warnings (m ≫= f) = warnings m ++ warnings (f a).
Proof.
  destruct m as [w [e | a']]; unfold outcome, warnings; simpl;
    intros H; inversion H.
  subst. unfold mbind, M_bind. destruct (f a); reflexivity.
Qed.

End MonadFacts.

(** ** Finite sums *)

Section Sums.

Import Torch.
Local Open Scope R_scope.

Lemma Rsum_ext n f g :
  (forall i, (i < n)%nat -> f i = g i) -> Rsum n f = Rsum n g.
Proof.
  induction n as [| n IH]; intros H; simpl; [reflexivity |].
  rewrite IH, H by (intros; try apply H; lia). reflexivity.
Qed.

Lemma Rsum_plus n f g :
  Rsum n (fun i => f i + g i) = Rsum n f + Rsum n g.
Proof. induction n as [| n IH]; simpl; [| rewrite IH]; lra. Qed.

Lemma Rsum_scal n c f : Rsum n (fun i => c * f i) = c * Rsum n f.
Proof. induction n as [| n IH]; simpl; [| rewrite IH]; lra. Qed.

Lemma Rsum_const n c : Rsum n (fun _ => c) = INR n * c.
Proof.
  induction n as [| n IH]; [simpl; lra |].
  rewrite S_INR. simpl. rewrite IH. lra.
Qed.

Lemma Rsum_nonneg n f :
  (forall i, (i < n)%nat -> 0 <= f i) -> 0 <= Rsum n f.
Proof.
  induction n as [| n IH]; intros H; simpl; [lra |].
  assert (0 <= Rsum n f) by (apply IH; intros; apply H; lia).
  assert (0 <= f n) by (apply H; lia). lra.
Qed.

Lemma Rsum_le n f g :
  (forall i, (i < n)%nat -> f i <= g i) -> Rsum n f <= Rsum n g.
Proof.
  induction n as [| n IH]; intros H; simpl; [lra |].
  assert (Rsum n f <= Rsum n g) by (apply IH; intros; apply H; lia).
  assert (f n <= g n) by (apply H; lia). lra.
Qed.

Lemma Rsum_pos n f :
  (0 < n)%nat -> (forall i, (i < n)%nat -> 0 < f i) -> 0 < Rsum n f.
Proof.
  intros Hn H. destruct n as [| n]; [lia |]. simpl.
  assert (0 <= Rsum n f)
    by (apply Rsum_nonneg; intros; apply Rlt_le, H; lia).
  assert (0 < f n) by (apply H; lia). lra.
Qed.

Lemma Rsum2_ext n m f g :
  (forall a b, (a < n)%nat -> (b < m)%nat -> f a b = g a b) ->
  Rsum2 n m f = Rsum2 n m g.
Proof.
  intros H. unfold Rsum2. apply Rsum_ext. intros a Ha.
  apply Rsum_ext. intros b Hb. apply H; assumption.
Qed.

Lemma Rsum2_plus n m f g :
  Rsum2 n m (fun a b => f a b + g a b) = Rsum2 n m f + Rsum2 n m g.
Proof.
  unfold Rsum2. rewrite <- Rsum_plus. apply Rsum_ext. intros a _.
  apply Rsum_plus.
Qed.

Lemma Rsum2_scal n m c f :
  Rsum2 n m (fun a b => c * f a b) = c * Rsum2 n m f.
Proof.
  unfold Rsum2. rewrite <- Rsum_scal. apply Rsum_ext. intros a _.
  apply Rsum_scal.
Qed.

Lemma Rsum2_nonneg n m f :
  (forall a b, (a < n)%nat -> (b < m)%nat -> 0 <= f a b) ->
  0 <= Rsum2 n m f.
Proof.
  intros H. unfold Rsum2. apply Rsum_nonneg. intros a Ha.
  apply Rsum_nonneg. intros b Hb. apply H; assumption.
Qed.

Lemma Rsum2_le n m f g :
  (forall a b, (a < n)%nat -> (b < m)%nat -> f a b <= g a b) ->
  Rsum2 n m f <= Rsum2 n m g.
Proof.
  intros H. unfold Rsum2. apply Rsum_le. intros a Ha.
  apply Rsum_le. intros b Hb. apply H; assumption.
Qed.

Lemma Rsum2_pos n m f :
  (0 < n)%nat -> (0 < m)%nat ->
  (forall a b, (a < n)%nat -> (b < m)%nat -> 0 < f a b) ->
  0 < Rsum2 n m f.
Proof.
  intros Hn Hm H. unfold Rsum2. apply Rsum_pos; [assumption |].
  intros a Ha. apply Rsum_pos; [assumption |]. intros b Hb.
  apply H; assumption.
Qed.

Lemma Rsum2_const n m c : Rsum2 n m (fun _ _ => c) = INR (n * m) * c.
Proof.
  unfold Rsum2. rewrite (Rsum_ext n _ (fun _ => INR m * c))
    by (intros; apply Rsum_const).
  rewrite Rsum_const, mult_INR. lra.
Qed.

(** The weighted second moment is at least the square of the weighted
    mean: a local variance is never negative. *)
Lemma weighted_variance_nonneg n m (w x : nat -> nat -> R) :
  (forall a b, (a < n)%nat -> (b < m)%nat -> 0 <= w a b) ->
  Rsum2 n m w = 1 ->
  0 <= Rsum2 n m (fun a b => x a b * x a b * w a b)
       - Rsum2 n m (fun a b => x a b * w a b) ^ 2.
Proof.
  intros Hw Hone.
  set (mu := Rsum2 n m (fun a b => x a b * w a b)).
  assert (Hsq : 0 <= Rsum2 n m (fun a b => (x a b - mu) ^ 2 * w a b)).
  { apply Rsum2_nonneg. intros a b Ha Hb.
    apply Rmult_le_pos; [apply pow2_ge_0 | apply Hw; assumption]. }
  rewrite (Rsum2_ext n m _
             (fun a b => x a b * x a b * w a b
                         + ((-2 * mu) * (x a b * w a b)
                            + mu ^ 2 * w a b))) in Hsq
    by (intros; ring).
  rewrite Rsum2_plus, Rsum2_plus, !Rsum2_scal, Hone in Hsq.
  fold mu in Hsq. lra.
Qed.

End Sums.

(** ** The tensor operations on 4d operands *)

Section TorchFacts.

Import Torch.
Local Open Scope R_scope.

Lemma bsel_lt d i : (i < d)%nat -> bsel d i = i.
Proof.
  unfold bsel. destruct (Nat.eqb_spec d 1); [lia | reflexivity].
Qed.

Lemma bsel_idem d i : bsel d (bsel d i) = bsel d i.
Proof. unfold bsel. destruct (d =? 1)%nat; reflexivity. Qed.

(** Where a batch of size [d1] is broadcast against one of size [d2],
    an index of the result reads inside the operand. *)
Lemma bsel_batch d1 d2 b :
  (0 < d1)%nat -> (d1 = d2 \/ d1 = 1 \/ d2 = 1)%nat ->
  (b < Nat.max d1 d2)%nat -> (bsel d1 b < d1)%nat.
Proof.
  unfold bsel. intros Hpos Hc Hb.
  destruct (Nat.eqb_spec d1 1); lia.
Qed.

Lemma bget4 t B C H W b c i j :
  shape t = [B; C; H; W] ->
  bget t [b; c; i; j] = data t [bsel B b; bsel C c; bsel H i; bsel W j].
Proof. intros Hs. unfold bget, bidx. rewrite Hs. reflexivity. Qed.

Lemma bget4_in t B C H W b c i j :
  shape t = [B; C; H; W] -> (c < C)%nat -> (i < H)%nat -> (j < W)%nat ->
  bget t [b; c; i; j] = data t [bsel B b; c; i; j].
Proof.
  intros Hs Hc Hi Hj. rewrite (bget4 _ _ _ _ _ _ _ _ _ Hs).
  rewrite (bsel_lt C), (bsel_lt H), (bsel_lt W) by assumption.
  reflexivity.
Qed.

Lemma broadcast_shapes4 B1 B2 C H W :
  (0 < B1)%nat -> (0 < B2)%nat -> (B1 = B2 \/ B1 = 1 \/ B2 = 1)%nat ->
  broadcast_shapes [B1; C; H; W] [B2; C; H; W]
  = Some [Nat.max B1 B2; C; H; W].
Proof.
  intros Hp1 Hp2 Hc. unfold broadcast_shapes. cbn.
  rewrite !Nat.eqb_refl. cbn.
  destruct (Nat.eqb_spec B1 B2) as [-> | Hne].
  - cbn. rewrite Nat.max_id. reflexivity.
  - destruct (Nat.eqb_spec B1 1) as [-> | Hne1].
    + cbn. destruct B2; [lia | reflexivity].
    + destruct (Nat.eqb_spec B2 1) as [-> | Hne2]; [| lia].
      cbn. destruct B1 as [| [| B1]]; try reflexivity; lia.
Qed.

Lemma broadcast_shapes2 B1 B2 C :
  (0 < B1)%nat -> (0 < B2)%nat -> (B1 = B2 \/ B1 = 1 \/ B2 = 1)%nat ->
  broadcast_shapes [B1; C] [B2; C] = Some [Nat.max B1 B2; C].
Proof.
  intros Hp1 Hp2 Hc. unfold broadcast_shapes. cbn.
  rewrite !Nat.eqb_refl. cbn.
  destruct (Nat.eqb_spec B1 B2) as [-> | Hne].
  - cbn. rewrite Nat.max_id. reflexivity.
  - destruct (Nat.eqb_spec B1 1) as [-> | Hne1].
    + cbn. destruct B2; [lia | reflexivity].
    + destruct (Nat.eqb_spec B2 1) as [-> | Hne2]; [| lia].
      cbn. destruct B1 as [| [| B1]]; try reflexivity; lia.
Qed.

Lemma broadcast_shapes_same s : broadcast_shapes s s = Some s.
Proof.
  unfold broadcast_shapes.
  assert (H : forall r, broadcast_rev r r = Some r).
  { induction r as [| d r IH]; [reflexivity |]. simpl.
    rewrite IH, Nat.eqb_refl. reflexivity. }
  rewrite H, rev_involutive. reflexivity.
Qed.

Lemma binary_ok f a b s :
  broadcast_shapes (shape a) (shape b) = Some s ->
  binary f a b = inr (mkTensor s (fun idx => f (bget a idx) (bget b idx))).
Proof. intros H. unfold binary. rewrite H. reflexivity. Qed.

Lemma conv2d_depthwise input weight B C h w s :
  shape input = [B; C; h; w] -> shape weight = [C; 1%nat; s; s] ->
  (0 < C)%nat -> (s <= h)%nat -> (s <= w)%nat ->
  conv2d input weight 0 C
  = inr (mkTensor [B; C; (h - s + 1)%nat; (w - s + 1)%nat]
           (conv2d_data input weight 0 1 1 s s)).
Proof.
  intros Hi Hw HC Hh Hw'. unfold conv2d. rewrite Hi, Hw.
  replace (0 <? C)%nat with true by (symmetry; apply Nat.ltb_lt; lia).
  replace (C =? 1 * C)%nat with true
    by (symmetry; apply Nat.eqb_eq; lia).
  rewrite Nat.Div0.mod_same, Nat.div_same by lia.
  replace (s <=? h + 2 * 0)%nat with true
    by (symmetry; apply Nat.leb_le; lia).
  replace (s <=? w + 2 * 0)%nat with true
    by (symmetry; apply Nat.leb_le; lia).
  cbn [andb Nat.eqb].
  replace (h + 2 * 0 - s + 1)%nat with (h - s + 1)%nat by lia.
  replace (w + 2 * 0 - s + 1)%nat with (w - s + 1)%nat by lia.
  reflexivity.
Qed.

(** Without padding and with one channel per group, an entry of the
    convolution is the window-weighted sum of the patch under it. *)
Lemma conv2d_data_depthwise input weight B C h w s b c i j :
  shape input = [B; C; h; w] ->
  (i + s <= h)%nat -> (j + s <= w)%nat ->
  conv2d_data input weight 0 1 1 s s [b; c; i; j]
  = Rsum2 s s (fun a a' =>
                 data input [b; c; (i + a)%nat; (j + a')%nat]
                 * data weight [c; 0%nat; a; a']).
Proof.
  intros Hs Hi Hj. unfold conv2d_data. cbn [Rsum].
  rewrite Rplus_0_l. apply Rsum2_ext. intros a a' Ha Ha'.
  unfold padded. rewrite Hs.
  replace (c / 1 * 1 + 0)%nat with c
    by (rewrite Nat.div_1_r; lia).
  replace (i + a <? h + 0)%nat with true
    by (symmetry; apply Nat.ltb_lt; lia).
  replace (j + a' <? w + 0)%nat with true
    by (symmetry; apply Nat.ltb_lt; lia).
  cbn [Nat.leb andb]. rewrite !Nat.sub_0_r. reflexivity.
Qed.

Lemma sum_last2_4d keepdim t B C H W :
  shape t = [B; C; H; W] ->
  sum_last2 keepdim t
  = inr (mkTensor (if keepdim then [B; C; 1%nat; 1%nat] else [B; C])
           (fun idx => Rsum2 H W (fun i j => data t (take 2 idx ++ [i; j])))).
Proof. intros Hs. unfold sum_last2. rewrite Hs. reflexivity. Qed.

Lemma mean_last2_4d t B C H W :
  shape t = [B; C; H; W] ->
  mean_last2 t
  = inr (mkTensor [B; C]
           (fun idx => Rsum2 H W (fun i j => data t (take 2 idx ++ [i; j]))
                       / INR (H * W))).
Proof. intros Hs. unfold mean_last2. rewrite Hs. reflexivity. Qed.

Lemma matmul_4d a b B1 B2 C n m p :
  shape a = [B1; C; n; m] -> shape b = [B2; C; m; p] ->
  (0 < B1)%nat -> (0 < B2)%nat -> (B1 = B2 \/ B1 = 1 \/ B2 = 1)%nat ->
  matmul a b
  = inr (mkTensor [Nat.max B1 B2; C; n; p]
           (matmul_data a b [B1; C] [B2; C] m)).
Proof.
  intros Ha Hb Hp1 Hp2 Hc. unfold matmul. rewrite Ha, Hb, Nat.eqb_refl.
  rewrite (broadcast_shapes2 _ _ _ Hp1 Hp2 Hc). reflexivity.
Qed.

Lemma matmul_4d_mismatch a b B1 B2 C1 C2 n m m' p :
  shape a = [B1; C1; n; m] -> shape b = [B2; C2; m'; p] -> m <> m' ->
  matmul a b = inl MatmulError.
Proof.
  intros Ha Hb Hne. unfold matmul. rewrite Ha, Hb.
  destruct (Nat.eqb_spec m m'); [contradiction | reflexivity].
Qed.

Lemma matmul_data_in a b B1 B2 C m x c i j :
  (c < C)%nat ->
  matmul_data a b [B1; C] [B2; C] m [x; c; i; j]
  = Rsum m (fun k => data a [bsel B1 x; c; i; k]
                     * data b [bsel B2 x; c; k; j]).
Proof.
  intros Hc. unfold matmul_data, bidx. cbn [rev app bidx_rev].
  rewrite (bsel_lt C c Hc). reflexivity.
Qed.

End TorchFacts.

(** ** The window *)

Section WindowFacts.
Import Torch perceptual_distance stats.
Local Open Scope R_scope.

Lemma unsqueeze_ok t dim :
  (dim <= ndim t)%nat ->
  unsqueeze t dim
  = inr (mkTensor (take dim (shape t) ++ 1%nat :: drop dim (shape t))
           (fun idx => data t (take dim idx ++ drop (S dim) idx))).
Proof.
  intros H. unfold unsqueeze.
  destruct (Nat.leb_spec dim (ndim t)); [reflexivity | lia].
Qed.

Lemma expand_ok t target :
  expandable (shape t) target = true ->
  expand t target = inr (mkTensor target (fun idx => bget t idx)).
Proof. intros H. unfold expand. rewrite H. reflexivity. Qed.

Lemma broadcast_keepdim c d h w :
  broadcast_shapes [c; d; h; w] [c; d; 1%nat; 1%nat] = Some [c; d; h; w].
Proof.
  unfold broadcast_shapes. cbn. rewrite !Nat.eqb_refl.
  destruct (Nat.eqb_spec h 1) as [-> | Hh];
    destruct (Nat.eqb_spec w 1) as [-> | Hw]; reflexivity.
Qed.

Lemma create_window_spec ws c :
  exists W, create_window ws c = ([], inr W)
            /\ shape W = [c; 1%nat; ws; ws]
            /\ forall ch a b, (ch < c)%nat -> (a < ws)%nat -> (b < ws)%nat ->
                 data W [ch; 0%nat; a; b] = window_value ws a b.
Proof.
  unfold create_window.
  rewrite unsqueeze_ok by (cbn; lia). rewrite bind_lift_inr.
  cbn [shape _gaussian take drop app].
  unfold transpose at 1. cbn [shape]. rewrite bind_lift_inr.
  unfold mm at 1. cbn [shape Nat.eqb]. rewrite bind_lift_inr.
  rewrite unsqueeze_ok by (cbn; lia). rewrite bind_lift_inr.
  rewrite unsqueeze_ok by (cbn; lia). rewrite bind_lift_inr.
  cbn [shape take drop app].
  match goal with |- context [expand ?t _] => set (W2 := t) end.
  assert (HW2s : shape W2 = [1%nat; 1%nat; ws; ws]) by reflexivity.
  assert (HW2d : forall x y a b,
             data W2 [x; y; a; b] = gauss ws a * gauss ws b).
  { intros x y a b. unfold W2, gauss. cbn [data take drop app Rsum].
    unfold _gaussian. cbn [data]. apply Rplus_0_l. }
  clearbody W2.
  rewrite expand_ok
    by (rewrite HW2s; cbn [expandable]; rewrite !Nat.eqb_refl, orb_true_r;
        reflexivity).
  rewrite bind_lift_inr.
  rewrite (sum_last2_4d true _ c 1 ws ws) by reflexivity.
  rewrite bind_lift_inr.
  erewrite binary_ok by (cbn [shape]; apply broadcast_keepdim).
  eexists. split; [reflexivity |]. split; [reflexivity |].
  intros ch a b Hch Ha Hb. cbn [data].
  erewrite bget4_in by (try reflexivity; lia).
  erewrite (bget4 _ c 1 1 1) by reflexivity.
  cbn [data take app].
  erewrite bget4_in by (try eassumption; lia).
  rewrite HW2d. unfold window_value. f_equal.
  apply Rsum2_ext. intros i j Hi Hj.
  rewrite (bget4 _ _ _ _ _ _ _ _ _ HW2s).
  rewrite (bsel_lt ws i), (bsel_lt ws j) by assumption.
  apply HW2d.
Qed.

Lemma gauss_pos s x : 0 < gauss s x.
Proof. unfold gauss. apply exp_pos. Qed.

Lemma gauss_total_pos s :
  (0 < s)%nat -> 0 < Rsum2 s s (fun i j => gauss s i * gauss s j).
Proof.
  intros Hs. apply Rsum2_pos; try assumption. intros a b _ _.
  apply Rmult_lt_0_compat; apply gauss_pos.
Qed.

Lemma window_value_pos s a b : (0 < s)%nat -> 0 < window_value s a b.
Proof.
  intros Hs. unfold window_value. apply Rdiv_lt_0_compat.
  - apply Rmult_lt_0_compat; apply gauss_pos.
  - apply gauss_total_pos, Hs.
Qed.

Lemma window_value_sum s :
  (0 < s)%nat -> Rsum2 s s (window_value s) = 1.
Proof.
  intros Hs. pose proof (gauss_total_pos s Hs) as Hpos.
  unfold window_value.
  rewrite (Rsum2_ext s s _
             (fun a b => / Rsum2 s s (fun i j => gauss s i * gauss s j)
                         * (gauss s a * gauss s b)))
    by (intros; unfold Rdiv; ring).
  rewrite Rsum2_scal. apply Rinv_l. lra.
Qed.

End WindowFacts.

(** ** The checks on the window *)

Section WindowChecks.
Import Torch perceptual_distance stats.
Local Open Scope R_scope.

Lemma indices_range s idx : In idx (indices s) -> Forall2 lt idx s.
Proof.
  revert idx. induction s as [| d s IH]; intros idx Hin; simpl in Hin.
  - destruct Hin as [<- | []]. constructor.
  - apply in_flat_map in Hin. destruct Hin as (i & Hi & Hin).
    apply in_map_iff in Hin. destruct Hin as (r & <- & Hr).
    apply in_seq in Hi. constructor; [lia | apply IH, Hr].
Qed.

Lemma indices_complete s idx : Forall2 lt idx s -> In idx (indices s).
Proof.
  intros H. induction H as [| i d idx s Hlt _ IH]; simpl; [now left |].
  apply in_flat_map. exists i. split; [apply in_seq; lia |].
  apply in_map, IH.
Qed.

Lemma split_last2_some s pre h w :
  split_last2 s = Some (pre, h, w) -> s = pre ++ [h; w].
Proof.
  unfold split_last2. destruct (rev s) as [| w' [| h' r]] eqn:E;
    intros H; inversion H; subst.
  rewrite <- (rev_involutive s), E. simpl. rewrite <- app_assoc.
  reflexivity.
Qed.

Lemma broadcast_rev_length r1 r2 r :
  broadcast_rev r1 r2 = Some r ->
  length r = Nat.max (length r1) (length r2).
Proof.
  revert r2 r. induction r1 as [| d1 r1 IH]; intros [| d2 r2] r H;
    simpl in H.
  - inversion H. reflexivity.
  - inversion H. reflexivity.
  - inversion H. simpl. reflexivity.
  - destruct (broadcast_rev r1 r2) as [r' |] eqn:E; [| discriminate].
    specialize (IH _ _ E).
    destruct (d1 =? d2)%nat; [| destruct (d1 =? 1)%nat;
                                 [| destruct (d2 =? 1)%nat]];
      inversion H; subst; simpl; lia.
Qed.

Lemma broadcast_shapes_length s1 s2 s :
  broadcast_shapes s1 s2 = Some s ->
  length s = Nat.max (length s1) (length s2).
Proof.
  unfold broadcast_shapes.
  destruct (broadcast_rev (rev s1) (rev s2)) as [r |] eqn:E;
    intros H; inversion H.
  rewrite length_rev, (broadcast_rev_length _ _ _ E), !length_rev.
  reflexivity.
Qed.

Lemma existsb_false {A : Type} (f : A -> bool) (l : list A) :
  (forall x, In x l -> f x = false) -> existsb f l = false.
Proof.
  intros H. destruct (existsb f l) eqn:E; [| reflexivity].
  apply existsb_exists in E. destruct E as (x & Hin & Hx).
  rewrite (H x Hin) in Hx. discriminate.
Qed.

(** A 4d window none of whose slices sums to more than 1 passes both
    checks silently and unchanged. *)
Lemma check_window_pass W c d h w :
  shape W = [c; d; h; w] ->
  (forall a b, (a < c)%nat -> (b < d)%nat -> channel_sum W h w a b <= 1) ->
  check_window W = ([], inr W).
Proof.
  intros Hs Hle. unfold check_window.
  rewrite (sum_last2_4d false _ _ _ _ _ Hs), bind_lift_inr.
  cbn [shape data].
  rewrite existsb_false.
  - rewrite bind_mret. unfold ndim. rewrite Hs.
    destruct (decide (length [c; d; h; w] ≠ 4%nat)) as [Hne | _];
      [exfalso; apply Hne; reflexivity | reflexivity].
  - intros idx Hin. apply indices_range in Hin.
    inversion Hin as [| a c' r1 r1' Ha Hr]; subst.
    inversion Hr as [| b d' r2 r2' Hb Hr']; subst.
    inversion Hr'; subst. cbn [take app].
    unfold Rgtb.
    destruct (Rlt_dec 1 (Rsum2 h w (fun i j => data W [a; b; i; j])))
      as [Hlt | _]; [| reflexivity].
    specialize (Hle a b Ha Hb). unfold channel_sum in Hle. lra.
Qed.

End WindowChecks.

(** ** The maps of [_ssim_parts] *)

Section SsimMaps.
Import Torch perceptual_distance stats.
Local Open Scope R_scope.

Variables (img1 img2 W : tensor) (B1 B2 C h w s : nat) (dr : Z).
Hypothesis Himg1 : shape img1 = [B1; C; h; w].
Hypothesis Himg2 : shape img2 = [B2; C; h; w].
Hypothesis HW : shape W = [C; 1%nat; s; s].
Hypothesis HWdata :
  forall ch a b, (ch < C)%nat -> (a < s)%nat -> (b < s)%nat ->
    data W [ch; 0%nat; a; b] = window_value s a b.
Hypothesis HB1 : (0 < B1)%nat.
Hypothesis HB2 : (0 < B2)%nat.
Hypothesis HB : (B1 = B2 \/ B1 = 1 \/ B2 = 1)%nat.
Hypothesis HC : (0 < C)%nat.
Hypothesis Hsh : (s <= h)%nat.
Hypothesis Hsw : (s <= w)%nat.

Lemma conv_mean_at t B' b c i j :
  shape t = [B'; C; h; w] ->
  (c < C)%nat -> (i + s <= h)%nat -> (j + s <= w)%nat ->
  conv2d_data t W 0 1 1 s s [b; c; i; j] = mean_at s t b c i j.
Proof.
  intros Ht Hc Hi Hj.
  rewrite (conv2d_data_depthwise _ _ _ _ _ _ _ _ _ _ _ Ht Hi Hj).
  unfold mean_at, wavg, patch. apply Rsum2_ext. intros a a' Ha Ha'.
  rewrite HWdata by assumption. reflexivity.
Qed.

Lemma conv_second_moment t u v B' b bu bv c i j :
  shape t = [B'; C; h; w] ->
  (forall x y, (x < h)%nat -> (y < w)%nat ->
     data t [b; c; x; y] = data u [bu; c; x; y] * data v [bv; c; x; y]) ->
  (c < C)%nat -> (i + s <= h)%nat -> (j + s <= w)%nat ->
  conv2d_data t W 0 1 1 s s [b; c; i; j]
  = second_moment s u v bu bv c i j.
Proof.
  intros Ht Hd Hc Hi Hj.
  rewrite (conv2d_data_depthwise _ _ _ _ _ _ _ _ _ _ _ Ht Hi Hj).
  unfold second_moment, wavg, patch. apply Rsum2_ext. intros a a' Ha Ha'.
  rewrite HWdata, Hd by (assumption || lia). reflexivity.
Qed.


Local Abbreviation n1 := (h - s + 1)%nat.
Local Abbreviation n2 := (w - s + 1)%nat.
Local Abbreviation B := (Nat.max B1 B2).

Local Ltac shape_goal :=
  cbn [shape tmap];
  repeat match goal with
         | H : shape _ = _ |- _ => rewrite H
         end;
  first [ apply broadcast_shapes_same
        | apply broadcast_shapes4; assumption ].

Local Ltac step_binary f a b x :=
  erewrite (binary_ok f a b) by shape_goal;
  set (x := mkTensor _ _); rewrite bind_lift_inr.

Local Ltac step_conv Hin x :=
  rewrite (conv2d_depthwise _ _ _ _ _ _ _ Hin HW HC Hsh Hsw);
  set (x := mkTensor _ _); rewrite bind_lift_inr.

Lemma ssim_maps_spec :
  (h = w ->
   exists map_ssim contrast_map weight,
     ssim_maps img1 img2 W 0 C dr
     = ([], inr (map_ssim, contrast_map, weight))
     /\ shape map_ssim = [B; C; n1; n1]
     /\ shape contrast_map = [B; C; n1; n1]
     /\ shape weight = [B; C; n1; n1]
     /\ (forall b c i j,
           (b < B)%nat -> (c < C)%nat -> (i < n1)%nat -> (j < n1)%nat ->
           data map_ssim [b; c; i; j]
           = ssim_value s img1 img2 dr (bsel B1 b) (bsel B2 b) c i j
           /\ data contrast_map [b; c; i; j]
              = contrast_value s img1 img2 dr (bsel B1 b) (bsel B2 b) c i j
           /\ data weight [b; c; i; j]
              = weight_value s n1 img1 img2 dr (bsel B1 b) (bsel B2 b)
                  c i j))
  /\ (h <> w -> ssim_maps img1 img2 W 0 C dr = ([], inl MatmulError)).
Proof.
  unfold ssim_maps.
  step_conv Himg1 mu1.
  assert (Hmu1s : shape mu1 = [B1; C; n1; n2]) by reflexivity.
  assert (Hmu1d : forall b c i j,
             (c < C)%nat -> (i < n1)%nat -> (j < n2)%nat ->
             data mu1 [b; c; i; j] = mean_at s img1 b c i j).
  { intros. unfold mu1. cbn [data].
    eapply conv_mean_at; try eassumption; lia. }
  clearbody mu1.
  step_conv Himg2 mu2.
  assert (Hmu2s : shape mu2 = [B2; C; n1; n2]) by reflexivity.
  assert (Hmu2d : forall b c i j,
             (c < C)%nat -> (i < n1)%nat -> (j < n2)%nat ->
             data mu2 [b; c; i; j] = mean_at s img2 b c i j).
  { intros. unfold mu2. cbn [data].
    eapply conv_mean_at; try eassumption; lia. }
  clearbody mu2.
  cbv zeta.
  (* mu1_mu2 *)
  step_binary Rmult mu1 mu2 mu1_mu2.
  assert (Hm12s : shape mu1_mu2 = [B; C; n1; n2]) by reflexivity.
  assert (Hm12d : forall b c i j,
             (c < C)%nat -> (i < n1)%nat -> (j < n2)%nat ->
             data mu1_mu2 [b; c; i; j]
             = mean_at s img1 (bsel B1 b) c i j
               * mean_at s img2 (bsel B2 b) c i j).
  { intros. unfold mu1_mu2. cbn [data].
    rewrite (bget4_in _ _ _ _ _ _ _ _ _ Hmu1s),
      (bget4_in _ _ _ _ _ _ _ _ _ Hmu2s) by assumption.
    rewrite Hmu1d, Hmu2d by assumption. reflexivity. }
  clearbody mu1_mu2.
  (* sigma1_sq *)
  step_binary Rmult img1 img1 img1_img1.
  assert (H11s : shape img1_img1 = [B1; C; h; w]) by reflexivity.
  assert (H11d : forall b c x y,
             (c < C)%nat -> (x < h)%nat -> (y < w)%nat ->
             data img1_img1 [b; c; x; y]
             = data img1 [bsel B1 b; c; x; y]
               * data img1 [bsel B1 b; c; x; y]).
  { intros. unfold img1_img1. cbn [data].
    rewrite (bget4_in _ _ _ _ _ _ _ _ _ Himg1) by assumption.
    reflexivity. }
  clearbody img1_img1.
  step_conv H11s conv11.
  assert (Hc11s : shape conv11 = [B1; C; n1; n2]) by reflexivity.
  assert (Hc11d : forall b c i j,
             (c < C)%nat -> (i < n1)%nat -> (j < n2)%nat ->
             data conv11 [b; c; i; j]
             = second_moment s img1 img1 (bsel B1 b) (bsel B1 b) c i j).
  { intros. unfold conv11. cbn [data].
    eapply conv_second_moment; try eassumption; try lia.
    intros. apply H11d; assumption. }
  clearbody conv11.
  step_binary Rminus conv11 (tmap (fun x => x ^ 2) mu1) sigma1_sq.
  assert (Hs1s : shape sigma1_sq = [B1; C; n1; n2]) by reflexivity.
  assert (Hs1d : forall b c i j,
             (c < C)%nat -> (i < n1)%nat -> (j < n2)%nat ->
             data sigma1_sq [b; c; i; j]
             = variance s img1 (bsel B1 b) c i j).
  { intros. unfold sigma1_sq. cbn [data].
    rewrite (bget4_in _ _ _ _ _ _ _ _ _ Hc11s) by assumption.
    erewrite bget4_in by (try (cbn [shape tmap]; eassumption); assumption).
    cbn [data tmap]. rewrite Hc11d, Hmu1d, bsel_idem by assumption.
    reflexivity. }
  clearbody sigma1_sq.
  (* sigma2_sq *)
  step_binary Rmult img2 img2 img2_img2.
  assert (H22s : shape img2_img2 = [B2; C; h; w]) by reflexivity.
  assert (H22d : forall b c x y,
             (c < C)%nat -> (x < h)%nat -> (y < w)%nat ->
             data img2_img2 [b; c; x; y]
             = data img2 [bsel B2 b; c; x; y]
               * data img2 [bsel B2 b; c; x; y]).
  { intros. unfold img2_img2. cbn [data].
    rewrite (bget4_in _ _ _ _ _ _ _ _ _ Himg2) by assumption.
    reflexivity. }
  clearbody img2_img2.
  step_conv H22s conv22.
  assert (Hc22s : shape conv22 = [B2; C; n1; n2]) by reflexivity.
  assert (Hc22d : forall b c i j,
             (c < C)%nat -> (i < n1)%nat -> (j < n2)%nat ->
             data conv22 [b; c; i; j]
             = second_moment s img2 img2 (bsel B2 b) (bsel B2 b) c i j).
  { intros. unfold conv22. cbn [data].
    eapply conv_second_moment; try eassumption; try lia.
    intros. apply H22d; assumption. }
  clearbody conv22.
  step_binary Rminus conv22 (tmap (fun x => x ^ 2) mu2) sigma2_sq.
  assert (Hs2s : shape sigma2_sq = [B2; C; n1; n2]) by reflexivity.
  assert (Hs2d : forall b c i j,
             (c < C)%nat -> (i < n1)%nat -> (j < n2)%nat ->
             data sigma2_sq [b; c; i; j]
             = variance s img2 (bsel B2 b) c i j).
  { intros. unfold sigma2_sq. cbn [data].
    rewrite (bget4_in _ _ _ _ _ _ _ _ _ Hc22s) by assumption.
    erewrite bget4_in by (try (cbn [shape tmap]; eassumption); assumption).
    cbn [data tmap]. rewrite Hc22d, Hmu2d, bsel_idem by assumption.
    reflexivity. }
  clearbody sigma2_sq.
  (* sigma12 *)
  step_binary Rmult img1 img2 img1_img2.
  assert (H12s : shape img1_img2 = [B; C; h; w]) by reflexivity.
  assert (H12d : forall b c x y,
             (c < C)%nat -> (x < h)%nat -> (y < w)%nat ->
             data img1_img2 [b; c; x; y]
             = data img1 [bsel B1 b; c; x; y]
               * data img2 [bsel B2 b; c; x; y]).
  { intros. unfold img1_img2. cbn [data].
    rewrite (bget4_in _ _ _ _ _ _ _ _ _ Himg1),
      (bget4_in _ _ _ _ _ _ _ _ _ Himg2) by assumption.
    reflexivity. }
  clearbody img1_img2.
  step_conv H12s conv12.
  assert (Hc12s : shape conv12 = [B; C; n1; n2]) by reflexivity.
  assert (Hc12d : forall b c i j,
             (c < C)%nat -> (i < n1)%nat -> (j < n2)%nat ->
             data conv12 [b; c; i; j]
             = second_moment s img1 img2 (bsel B1 b) (bsel B2 b) c i j).
  { intros. unfold conv12. cbn [data].
    eapply conv_second_moment; try eassumption; try lia.
    intros. apply H12d; assumption. }
  clearbody conv12.
  step_binary Rminus conv12 mu1_mu2 sigma12.
  assert (Hs12s : shape sigma12 = [B; C; n1; n2]) by reflexivity.
  assert (Hs12d : forall b c i j,
             (b < B)%nat -> (c < C)%nat -> (i < n1)%nat -> (j < n2)%nat ->
             data sigma12 [b; c; i; j]
             = covariance s img1 img2 (bsel B1 b) (bsel B2 b) c i j).
  { intros. unfold sigma12. cbn [data].
    rewrite (bget4_in _ _ _ _ _ _ _ _ _ Hc12s),
      (bget4_in _ _ _ _ _ _ _ _ _ Hm12s) by assumption.
    rewrite (bsel_lt B) by assumption.
    rewrite Hc12d, Hm12d by assumption. reflexivity. }
  clearbody sigma12.
  (* contrast_map *)
  step_binary Rplus sigma1_sq sigma2_sq sigma_sum.
  assert (Hsss : shape sigma_sum = [B; C; n1; n2]) by reflexivity.
  assert (Hssd : forall b c i j,
             (c < C)%nat -> (i < n1)%nat -> (j < n2)%nat ->
             data sigma_sum [b; c; i; j]
             = variance s img1 (bsel B1 b) c i j
               + variance s img2 (bsel B2 b) c i j).
  { intros. unfold sigma_sum. cbn [data].
    rewrite (bget4_in _ _ _ _ _ _ _ _ _ Hs1s),
      (bget4_in _ _ _ _ _ _ _ _ _ Hs2s) by assumption.
    rewrite Hs1d, Hs2d, !bsel_idem by assumption. reflexivity. }
  clearbody sigma_sum.
  match goal with
  | |- context [lift (binary Rdiv ?a ?b) ≫= _] =>
      step_binary Rdiv a b contrast_map
  end.
  assert (Hcms : shape contrast_map = [B; C; n1; n2]) by reflexivity.
  assert (Hcmd : forall b c i j,
             (b < B)%nat -> (c < C)%nat -> (i < n1)%nat -> (j < n2)%nat ->
             data contrast_map [b; c; i; j]
             = contrast_value s img1 img2 dr (bsel B1 b) (bsel B2 b) c i j).
  { intros. unfold contrast_map. cbn [data].
    erewrite !bget4_in
      by (try (cbn [shape tmap]; eassumption); assumption).
    cbn [data tmap]. rewrite (bsel_lt B) by assumption.
    rewrite Hs12d, Hssd by assumption. reflexivity. }
  clearbody contrast_map.
  split; intros Hhw.
  - (* the matrix product is defined *)
    subst w.
    erewrite matmul_4d
      by (try (cbn [shape tmap]; eassumption); assumption).
    set (prod := mkTensor _ _). rewrite bind_lift_inr.
    assert (Hprs : shape prod = [B; C; n1; n1]) by reflexivity.
    assert (Hprd : forall b c i j,
               (c < C)%nat -> (i < n1)%nat -> (j < n1)%nat ->
               data prod [b; c; i; j]
               = Rsum n1 (fun k =>
                    (1 + variance s img1 (bsel B1 b) c i k / C2 dr)
                    * (1 + variance s img2 (bsel B2 b) c k j / C2 dr))).
    { intros. unfold prod. cbn [data].
      rewrite matmul_data_in by assumption.
      apply Rsum_ext. intros k Hk. cbn [data tmap].
      rewrite Hs1d, Hs2d, !bsel_idem by assumption. reflexivity. }
    clearbody prod.
    step_binary Rplus (tmap (fun x => x ^ 2) mu1) (tmap (fun x => x ^ 2) mu2) mu_sum.
    assert (Hmss : shape mu_sum = [B; C; n1; n1]) by reflexivity.
    assert (Hmsd : forall b c i j,
               (c < C)%nat -> (i < n1)%nat -> (j < n1)%nat ->
               data mu_sum [b; c; i; j]
               = mean_at s img1 (bsel B1 b) c i j ^ 2
                 + mean_at s img2 (bsel B2 b) c i j ^ 2).
    { intros. unfold mu_sum. cbn [data].
      erewrite !bget4_in
        by (try (cbn [shape tmap]; eassumption); assumption).
      cbn [data tmap]. rewrite Hmu1d, Hmu2d by assumption. reflexivity. }
    clearbody mu_sum.
    match goal with
    | |- context [lift (binary Rmult ?a ?b) ≫= _] =>
        step_binary Rmult a b num_map
    end.
    assert (Hnums : shape num_map = [B; C; n1; n1]) by reflexivity.
    clearbody num_map.
    match goal with
    | |- context [lift (binary Rmult ?a ?b) ≫= _] =>
        step_binary Rmult a b den_map
    end.
    assert (Hdens : shape den_map = [B; C; n1; n1]) by reflexivity.
    clearbody den_map.
    match goal with
    | |- context [lift (binary Rdiv ?a ?b) ≫= _] =>
        erewrite (binary_ok Rdiv a b) by shape_goal
    end.
    rewrite bind_lift_inr.
    match goal with
    | |- context [lift (binary Rdiv ?a ?b) ≫= _] =>
        step_binary Rdiv a b lum
    end.
    assert (Hlus : shape lum = [B; C; n1; n1]) by reflexivity.
    assert (Hlud : forall b c i j,
               (b < B)%nat -> (c < C)%nat -> (i < n1)%nat -> (j < n1)%nat ->
               data lum [b; c; i; j]
               = luminance_value s img1 img2 dr (bsel B1 b) (bsel B2 b)
                   c i j).
    { intros. unfold lum. cbn [data].
      erewrite !bget4_in
        by (try (cbn [shape tmap]; eassumption); assumption).
      cbn [data tmap]. rewrite (bsel_lt B) by assumption.
      rewrite Hm12d, Hmsd by assumption. reflexivity. }
    clearbody lum.
    step_binary Rmult lum contrast_map map_ssim.
    exists map_ssim, contrast_map, (tmap ln prod).
    split; [reflexivity |].
    split; [reflexivity |]. split; [assumption |].
    split; [cbn [shape tmap]; assumption |].
    intros b c i j Hb Hc Hi Hj. split; [| split].
    + unfold map_ssim. cbn [data].
      rewrite (bget4_in _ _ _ _ _ _ _ _ _ Hlus),
        (bget4_in _ _ _ _ _ _ _ _ _ Hcms) by assumption.
      rewrite (bsel_lt B) by assumption.
      rewrite Hlud, Hcmd by assumption. reflexivity.
    + apply Hcmd; assumption.
    + cbn [data tmap]. rewrite Hprd by assumption. reflexivity.
  - (* the inner dimensions differ *)
    erewrite matmul_4d_mismatch
      by (try (cbn [shape tmap]; eassumption); lia).
    reflexivity.
Qed.

End SsimMaps.

(** ** [_ssim_parts] and [ssim] *)

Section SsimParts.
Import Torch perceptual_distance stats.
Local Open Scope R_scope.

Lemma indices_nonempty s : Forall (lt 0) s -> indices s <> [].
Proof.
  intros H Hnil.
  assert (Hin : In (map (fun _ => 0%nat) s) (indices s)).
  { apply indices_complete. clear Hnil.
    induction s as [| d s' IH]; simpl; [constructor |].
    inversion H; subst. constructor; [assumption | apply IH; assumption]. }
  rewrite Hnil in Hin. destruct Hin.
Qed.

Lemma indices_empty s : In 0%nat s -> indices s = [].
Proof.
  induction s as [| d s IH]; intros Hin; [destruct Hin |].
  simpl. destruct Hin as [-> | Hin]; [reflexivity |].
  rewrite (IH Hin). induction (seq 0 d); [reflexivity | assumption].
Qed.

Lemma tmin_ok t : Forall (lt 0) (shape t) -> exists r, tmin t = inr r.
Proof.
  intros H. unfold tmin. pose proof (indices_nonempty _ H) as Hne.
  destruct (indices (shape t)); [contradiction |]. simpl. eauto.
Qed.

Lemma tmax_ok t : Forall (lt 0) (shape t) -> exists r, tmax t = inr r.
Proof.
  intros H. unfold tmax. pose proof (indices_nonempty _ H) as Hne.
  destruct (indices (shape t)); [contradiction |]. simpl. eauto.
Qed.

Lemma tmin_empty t : In 0%nat (shape t) -> tmin t = inl EmptyReduction.
Proof. intros H. unfold tmin. rewrite (indices_empty _ H). reflexivity. Qed.

(** On images that have elements the advisory on the range never
    raises. *)
Lemma check_range_returns img1 img2 dr :
  Forall (lt 0) (shape img1) -> Forall (lt 0) (shape img2) ->
  outcome (check_range img1 img2 dr) = inr tt.
Proof.
  intros H1 H2. unfold check_range.
  destruct (tmin_ok _ H1) as (min1 & ->), (tmax_ok _ H1) as (max1 & ->),
    (tmin_ok _ H2) as (min2 & ->), (tmax_ok _ H2) as (max2 & ->).
  rewrite !bind_lift_inr.
  repeat match goal with
         | |- context [if ?c then _ else _] => destruct c
         end; reflexivity.
Qed.

Lemma check_range_empty img1 img2 dr :
  In 0%nat (shape img1) ->
  outcome (check_range img1 img2 dr) = inl EmptyReduction.
Proof.
  intros H. unfold check_range. rewrite (tmin_empty _ H). reflexivity.
Qed.

Lemma check_shapes_ok img1 img2 B1 B2 C C' h w :
  shape img1 = [B1; C; h; w] -> shape img2 = [B2; C'; h; w] ->
  (B1 = B2 \/ B1 = 1 \/ B2 = 1)%nat ->
  outcome (check_shapes img1 img2) = inr (C, h, w).
Proof.
  intros H1 H2 HB. unfold check_shapes. rewrite H1, H2.
  assert (Hw : outcome (if (1 <? C)%nat then warn MultiChannelWarning
                        else mret tt) = inr tt)
    by (destruct (1 <? C)%nat; reflexivity).
  rewrite (outcome_bind_inr _ _ _ Hw).
  cbn [last2 length Nat.sub drop].
  destruct (decide ([h; w] ≠ [h; w])) as [Hne | _];
    [exfalso; apply Hne; reflexivity |].
  destruct (decide (B1 ≠ B2)) as [Hne | _]; [| reflexivity].
  destruct (decide (B1 ≠ 1%nat ∧ B2 ≠ 1%nat)) as [[Ha Hb] | _];
    [lia | reflexivity].
Qed.

Lemma check_shapes_spatial img1 img2 B1 B2 C C' h w h' w' :
  shape img1 = [B1; C; h; w] -> shape img2 = [B2; C'; h'; w'] ->
  (h', w') <> (h, w) ->
  outcome (check_shapes img1 img2) = inl HeightWidthMismatch.
Proof.
  intros H1 H2 Hne. unfold check_shapes. rewrite H1, H2.
  assert (Hw : outcome (if (1 <? C)%nat then warn MultiChannelWarning
                        else mret tt) = inr tt)
    by (destruct (1 <? C)%nat; reflexivity).
  rewrite (outcome_bind_inr _ _ _ Hw).
  cbn [last2 length Nat.sub drop].
  destruct (decide ([h'; w'] ≠ [h; w])) as [_ | Heq]; [reflexivity |].
  exfalso. apply Hne.
  destruct (decide ([h'; w'] = [h; w])) as [E | E];
    [inversion E; reflexivity | contradiction].
Qed.

Lemma check_shapes_batch img1 img2 B1 B2 C C' h w :
  shape img1 = [B1; C; h; w] -> shape img2 = [B2; C'; h; w] ->
  B1 <> B2 -> B1 <> 1%nat -> B2 <> 1%nat ->
  outcome (check_shapes img1 img2)
  = inl (BatchMismatch [B1; C; h; w] [B2; C'; h; w]).
Proof.
  intros H1 H2 Hne Hn1 Hn2. unfold check_shapes. rewrite H1, H2.
  assert (Hw : outcome (if (1 <? C)%nat then warn MultiChannelWarning
                        else mret tt) = inr tt)
    by (destruct (1 <? C)%nat; reflexivity).
  rewrite (outcome_bind_inr _ _ _ Hw).
  cbn [last2 length Nat.sub drop].
  destruct (decide ([h; w] ≠ [h; w])) as [Hc | _];
    [exfalso; apply Hc; reflexivity |].
  destruct (decide (B1 ≠ B2)) as [_ | Hc]; [| contradiction].
  destruct (decide (B1 ≠ 1%nat ∧ B2 ≠ 1%nat)) as [_ | Hc];
    [reflexivity | exfalso; apply Hc; split; assumption].
Qed.

Lemma window_passes_checks W C s :
  (0 < s)%nat -> shape W = [C; 1%nat; s; s] ->
  (forall ch a b, (ch < C)%nat -> (a < s)%nat -> (b < s)%nat ->
     data W [ch; 0%nat; a; b] = window_value s a b) ->
  check_window W = ([], inr W).
Proof.
  intros Hs HWs HWd. apply (check_window_pass W C 1 s s HWs).
  intros a b Ha Hb. assert (b = 0%nat) as -> by lia.
  unfold channel_sum.
  rewrite (Rsum2_ext s s _ (window_value s))
    by (intros; apply HWd; assumption).
  rewrite window_value_sum by assumption. lra.
Qed.

Lemma conv2d_channels input weight B C C' h w s padding :
  shape input = [B; C'; h; w] -> shape weight = [C; 1%nat; s; s] ->
  C' <> C -> conv2d input weight padding C = inl ConvError.
Proof.
  intros Hi Hw Hne. unfold conv2d. rewrite Hi, Hw.
  replace (C' =? 1 * C)%nat with false
    by (symmetry; apply Nat.eqb_neq; lia).
  rewrite andb_false_r. reflexivity.
Qed.

(** An image of another channel count than [img1] is refused by the
    grouped convolution. *)
Lemma ssim_channel_mismatch img1 img2 B1 B2 C C' h w weighted dr :
  shape img1 = [B1; C; h; w] -> shape img2 = [B2; C'; h; w] ->
  (0 < B1)%nat -> (0 < B2)%nat -> (0 < C)%nat -> (0 < C')%nat ->
  (0 < h)%nat -> (0 < w)%nat ->
  (B1 = B2 \/ B1 = 1 \/ B2 = 1)%nat -> C' <> C ->
  outcome (ssim img1 img2 weighted dr) = inl ConvError.
Proof.
  intros H1 H2 HB1 HB2 HC HC' Hh Hw HB Hne.
  assert (Hne1 : Forall (lt 0) (shape img1))
    by (rewrite H1; repeat constructor; assumption).
  assert (Hne2 : Forall (lt 0) (shape img2))
    by (rewrite H2; repeat constructor; assumption).
  unfold ssim. apply outcome_bind_inl. unfold _ssim_parts.
  rewrite (outcome_bind_inr _ _ _ (check_range_returns _ _ dr Hne1 Hne2)).
  rewrite (outcome_bind_inr _ _ _
             (check_shapes_ok _ _ _ _ _ _ _ _ H1 H2 HB)).
  destruct (create_window_spec (Nat.min 11 (Nat.min h w)) C)
    as (W & HWeq & HWs & HWd).
  rewrite HWeq.
  change (@nil warning, @inr exn tensor W) with (lift (inr W)).
  rewrite bind_lift_inr.
  assert (Hs0 : (0 < Nat.min 11 (Nat.min h w))%nat) by lia.
  rewrite (window_passes_checks W C _ Hs0 HWs HWd).
  change (@nil warning, @inr exn tensor W) with (lift (inr W)).
  rewrite bind_lift_inr. unfold ssim_maps.
  rewrite (conv2d_depthwise _ _ _ _ _ _ _ H1 HWs HC) by lia.
  rewrite bind_lift_inr.
  rewrite (conv2d_channels _ _ _ _ _ _ _ _ 0 H2 HWs Hne). reflexivity.
Qed.

Lemma bget2 t B C b c :
  shape t = [B; C] -> bget t [b; c] = data t [bsel B b; bsel C c].
Proof. intros Hs. unfold bget, bidx. rewrite Hs. reflexivity. Qed.

Variables (img1 img2 : tensor) (B1 B2 C h w : nat) (dr : Z).
Hypothesis Himg1 : shape img1 = [B1; C; h; w].
Hypothesis Himg2 : shape img2 = [B2; C; h; w].
Hypothesis HB1 : (0 < B1)%nat.
Hypothesis HB2 : (0 < B2)%nat.
Hypothesis HB : (B1 = B2 \/ B1 = 1 \/ B2 = 1)%nat.
Hypothesis HC : (0 < C)%nat.
Hypothesis Hh : (0 < h)%nat.
Hypothesis Hw : (0 < w)%nat.

Local Abbreviation s := (Nat.min 11 (Nat.min h w)).
Local Abbreviation n := (h - s + 1)%nat.
Local Abbreviation B := (Nat.max B1 B2).

Lemma ssim_parts_spec :
  (h = w ->
   exists map_ssim contrast_map weight,
     outcome (_ssim_parts img1 img2 dr)
     = inr (map_ssim, contrast_map, weight)
     /\ shape map_ssim = [B; C; n; n]
     /\ shape contrast_map = [B; C; n; n]
     /\ shape weight = [B; C; n; n]
     /\ (forall b c i j,
           (b < B)%nat -> (c < C)%nat -> (i < n)%nat -> (j < n)%nat ->
           data map_ssim [b; c; i; j]
           = ssim_value s img1 img2 dr (bsel B1 b) (bsel B2 b) c i j
           /\ data contrast_map [b; c; i; j]
              = contrast_value s img1 img2 dr (bsel B1 b) (bsel B2 b) c i j
           /\ data weight [b; c; i; j]
              = weight_value s n img1 img2 dr (bsel B1 b) (bsel B2 b)
                  c i j))
  /\ (h <> w -> outcome (_ssim_parts img1 img2 dr) = inl MatmulError).
Proof.
  assert (Hne1 : Forall (lt 0) (shape img1))
    by (rewrite Himg1; repeat constructor; assumption).
  assert (Hne2 : Forall (lt 0) (shape img2))
    by (rewrite Himg2; repeat constructor; assumption).
  assert (Hs0 : (0 < s)%nat) by lia.
  unfold _ssim_parts.
  rewrite (outcome_bind_inr _ _ _ (check_range_returns _ _ dr Hne1 Hne2)).
  rewrite (outcome_bind_inr _ _ _
             (check_shapes_ok _ _ _ _ _ _ _ _ Himg1 Himg2 HB)).
  destruct (create_window_spec s C) as (W & HWeq & HWs & HWd).
  rewrite HWeq. change (@nil warning, @inr exn tensor W) with (lift (inr W)).
  rewrite bind_lift_inr.
  rewrite (window_passes_checks W C s Hs0 HWs HWd).
  change (@nil warning, @inr exn tensor W) with (lift (inr W)).
  rewrite bind_lift_inr.
  assert (Hsh : (s <= h)%nat) by lia.
  assert (Hsw : (s <= w)%nat) by lia.
  destruct (ssim_maps_spec img1 img2 W B1 B2 C h w s dr
              Himg1 Himg2 HWs HWd HB1 HB2 HB HC Hsh Hsw) as [Hok Hbad].
  split; intros Hhw.
  - destruct (Hok Hhw) as (m & cm & wt & -> & Hrest).
    exists m, cm, wt. split; [reflexivity | exact Hrest].
  - rewrite (Hbad Hhw). reflexivity.
Qed.

(** What [ssim] returns on images of a square extent. *)
Lemma ssim_spec weighted :
  h = w ->
  exists t,
    outcome (ssim img1 img2 weighted dr) = inr t
    /\ shape t = [B; C]
    /\ forall b c, (b < B)%nat -> (c < C)%nat ->
         data t [b; c]
         = if weighted
           then Rsum2 n n (fun i j =>
                  ssim_value s img1 img2 dr (bsel B1 b) (bsel B2 b) c i j
                  * weight_value s n img1 img2 dr (bsel B1 b) (bsel B2 b)
                      c i j)
                / Rsum2 n n (fun i j =>
                    weight_value s n img1 img2 dr (bsel B1 b) (bsel B2 b)
                      c i j)
           else Rsum2 n n (fun i j =>
                  ssim_value s img1 img2 dr (bsel B1 b) (bsel B2 b) c i j)
                / INR (n * n).
Proof.
  intros Hhw.
  destruct (proj1 ssim_parts_spec Hhw)
    as (m & cm & wt & Hout & Hms & Hcs & Hws & Hd).
  unfold ssim. rewrite (outcome_bind_inr _ _ _ Hout).
  destruct weighted; cbn [negb].
  - erewrite (binary_ok Rmult m wt)
      by (rewrite Hms, Hws; apply broadcast_shapes_same).
    rewrite bind_lift_inr.
    erewrite (sum_last2_4d false (mkTensor _ _)) by reflexivity.
    rewrite bind_lift_inr.
    rewrite (sum_last2_4d false _ _ _ _ _ Hws), bind_lift_inr.
    erewrite binary_ok by (cbn [shape]; apply broadcast_shapes_same).
    eexists. split; [reflexivity |]. split; [reflexivity |].
    intros b c Hb Hc. cbn [data].
    erewrite !bget2 by reflexivity.
    rewrite (bsel_lt B), (bsel_lt C) by assumption.
    cbn [data take app]. f_equal.
    + apply Rsum2_ext. intros i j Hi Hj.
      rewrite (bget4_in _ _ _ _ _ _ _ _ _ Hms),
        (bget4_in _ _ _ _ _ _ _ _ _ Hws) by assumption.
      rewrite (bsel_lt B) by assumption.
      destruct (Hd b c i j Hb Hc Hi Hj) as (-> & _ & ->). reflexivity.
    + apply Rsum2_ext. intros i j Hi Hj.
      destruct (Hd b c i j Hb Hc Hi Hj) as (_ & _ & ->). reflexivity.
  - rewrite (mean_last2_4d _ _ _ _ _ Hms).
    eexists. split; [reflexivity |]. split; [reflexivity |].
    intros b c Hb Hc. cbn [data take app]. f_equal.
    apply Rsum2_ext. intros i j Hi Hj.
    destruct (Hd b c i j Hb Hc Hi Hj) as (-> & _ & _). reflexivity.
Qed.

Lemma ssim_nonsquare weighted :
  h <> w -> outcome (ssim img1 img2 weighted dr) = inl MatmulError.
Proof.
  intros Hhw. unfold ssim.
  apply outcome_bind_inl. exact (proj2 ssim_parts_spec Hhw).
Qed.

End SsimParts.

(** ** The arithmetic of the SSIM map *)

Section SsimArithmetic.
Import Torch stats.
Local Open Scope R_scope.

Lemma square_pos x : x <> 0 -> 0 < x ^ 2.
Proof.
  intros H. pose proof (pow2_ge_0 x). pose proof (pow_nonzero x 2 H). lra.
Qed.


Lemma C1_pos dr : dr <> 0%Z -> 0 < C1 dr.
Proof.
  intros H. unfold C1. apply square_pos.
  assert (IZR dr <> 0) by (apply not_0_IZR; exact H). lra.
Qed.

Lemma C2_pos dr : dr <> 0%Z -> 0 < C2 dr.
Proof.
  intros H. unfold C2. apply square_pos.
  assert (IZR dr <> 0) by (apply not_0_IZR; exact H). lra.
Qed.

Variables (s : nat) (Hs : (0 < s)%nat).


Lemma wavg_scal k x : wavg s (fun a a' => k * x a a') = k * wavg s x.
Proof.
  unfold wavg. rewrite <- Rsum2_scal. apply Rsum2_ext. intros. ring.
Qed.

Lemma wavg_ext x y :
  (forall a a', (a < s)%nat -> (a' < s)%nat -> x a a' = y a a') ->
  wavg s x = wavg s y.
Proof.
  intros H. unfold wavg. apply Rsum2_ext. intros. rewrite H by assumption.
  reflexivity.
Qed.

(** Jensen's inequality for the window. *)
Lemma wavg_square_le x : wavg s x ^ 2 <= wavg s (fun a a' => x a a' * x a a').
Proof.
  assert (H : 0 <= Rsum2 s s (fun a b => x a b * x a b * window_value s a b)
                   - Rsum2 s s (fun a b => x a b * window_value s a b) ^ 2).
  { apply weighted_variance_nonneg.
    - intros. apply Rlt_le, window_value_pos, Hs.
    - apply window_value_sum, Hs. }
  unfold wavg. lra.
Qed.

Lemma variance_nonneg t b c i j : 0 <= variance s t b c i j.
Proof.
  unfold variance, second_moment, mean_at.
  pose proof (wavg_square_le (patch t b c i j)). lra.
Qed.

Lemma second_moment_comm t1 t2 b1 b2 c i j :
  second_moment s t1 t2 b1 b2 c i j = second_moment s t2 t1 b2 b1 c i j.
Proof. unfold second_moment. apply wavg_ext. intros. ring. Qed.

Lemma covariance_comm t1 t2 b1 b2 c i j :
  covariance s t1 t2 b1 b2 c i j = covariance s t2 t1 b2 b1 c i j.
Proof.
  unfold covariance. rewrite second_moment_comm. ring.
Qed.

Lemma covariance_self t b c i j :
  covariance s t t b b c i j = variance s t b c i j.
Proof. unfold covariance, variance. ring. Qed.



Variables (dr : Z) (Hdr : dr <> 0%Z).




Lemma ssim_value_self t b c i j : ssim_value s t t dr b b c i j = 1.
Proof.
  unfold ssim_value, luminance_value, contrast_value.
  rewrite covariance_self.
  pose proof (C1_pos dr Hdr). pose proof (C2_pos dr Hdr).
  pose proof (variance_nonneg t b c i j).
  set (m := mean_at s t b c i j) in *. set (v := variance s t b c i j) in *.
  replace (2 * (m * m) + C1 dr) with (m ^ 2 + m ^ 2 + C1 dr) by ring.
  replace (2.0 * v + C2 dr) with (v + v + C2 dr) by lra.
  unfold Rdiv. rewrite !Rinv_r by nra. ring.
Qed.

Lemma ssim_value_comm t1 t2 b1 b2 c i j :
  ssim_value s t1 t2 dr b1 b2 c i j = ssim_value s t2 t1 dr b2 b1 c i j.
Proof.
  unfold ssim_value, luminance_value, contrast_value.
  rewrite (covariance_comm t1 t2).
  f_equal; f_equal; ring.
Qed.

Lemma weight_value_nonneg n t1 t2 b1 b2 c i j :
  (0 < n)%nat -> 0 <= weight_value s n t1 t2 dr b1 b2 c i j.
Proof.
  intros Hn. unfold weight_value. pose proof (C2_pos dr Hdr) as HC.
  rewrite <- ln_1. 
  assert (Hterm : forall k, 1 <= (1 + variance s t1 b1 c i k / C2 dr)
                                 * (1 + variance s t2 b2 c k j / C2 dr)).
  { intros k.
    assert (0 <= variance s t1 b1 c i k / C2 dr)
      by (apply Rle_mult_inv_pos; [apply variance_nonneg | assumption]).
    assert (0 <= variance s t2 b2 c k j / C2 dr)
      by (apply Rle_mult_inv_pos; [apply variance_nonneg | assumption]).
    nra. }
  assert (Hsum : 1 <= Rsum n (fun k =>
                   (1 + variance s t1 b1 c i k / C2 dr)
                   * (1 + variance s t2 b2 c k j / C2 dr))).
  { destruct n as [| n']; [lia |]. cbn [Rsum].
    assert (0 <= Rsum n' (fun k =>
                   (1 + variance s t1 b1 c i k / C2 dr)
                   * (1 + variance s t2 b2 c k j / C2 dr))).
    { apply Rsum_nonneg. intros k _. specialize (Hterm k). lra. }
    specialize (Hterm n'). lra. }
  destruct Hsum as [Hlt | Heq].
  - apply Rlt_le, ln_increasing; lra.
  - rewrite <- Heq. lra.
Qed.

End SsimArithmetic.

(** * The claims *)

Section Claims.
Import Torch perceptual_distance stats examples.
Local Open Scope R_scope.

Lemma wavg_zero s : wavg s (fun _ _ => 0) = 0.
Proof.
  unfold wavg. rewrite (Rsum2_scal s s 0 (window_value s)). ring.
Qed.

Lemma variance_zeros s sh b c i j : variance s (zeros sh) b c i j = 0.
Proof.
  unfold variance, second_moment, mean_at, patch, zeros. cbn [data].
  rewrite (wavg_ext s (fun _ _ => 0 * 0) (fun _ _ => 0))
    by (intros; ring).
  rewrite wavg_zero. ring.
Qed.

Lemma ln_2_pos : 0 < ln 2.
Proof. rewrite <- ln_1. apply ln_increasing; lra. Qed.

(** C1. On two all-zero images of 12 by 12 pixels, whose local variances
    are all zero, the weight map of [_ssim_parts] is [ln 2] everywhere,
    the logarithm of an entry of the matrix product of two 2 by 2
    matrices of ones, where the logarithm of the elementwise product of
    [1 + var1/C2] and [1 + var2/C2] is [0]. *)
Theorem weight_of_zero_images :
  exists map_ssim contrast_map weight,
    outcome (_ssim_parts (zeros [1; 1; 12; 12]%nat)
                         (zeros [1; 1; 12; 12]%nat) 1)
    = inr (map_ssim, contrast_map, weight)
    /\ shape weight = [1; 1; 2; 2]%nat
    /\ forall i j, (i < 2)%nat -> (j < 2)%nat ->
         data weight [0; 0; i; j]%nat = ln 2
         /\ weight_elementwise 11 (zeros [1; 1; 12; 12]%nat)
              (zeros [1; 1; 12; 12]%nat) 1 0 0 0 i j = 0
         /\ data weight [0; 0; i; j]%nat
            <> weight_elementwise 11 (zeros [1; 1; 12; 12]%nat)
                 (zeros [1; 1; 12; 12]%nat) 1 0 0 0 i j.
Proof.
  destruct (proj1 (ssim_parts_spec (zeros [1; 1; 12; 12]%nat)
                     (zeros [1; 1; 12; 12]%nat) 1 1 1 12 12 1
                     eq_refl eq_refl ltac:(lia) ltac:(lia)
                     ltac:(left; reflexivity) ltac:(lia) ltac:(lia)
                     ltac:(lia)) eq_refl)
    as (m & cm & wt & Hout & _ & _ & Hws & Hd).
  exists m, cm, wt. split; [exact Hout |]. split; [exact Hws |].
  intros i j Hi Hj.
  destruct (Hd 0%nat 0%nat i j ltac:(simpl; lia) ltac:(lia) Hi Hj)
    as (_ & _ & Hw).
  assert (Hcode : data wt [0; 0; i; j]%nat = ln 2).
  { rewrite Hw. unfold weight_value. f_equal.
    change (12 - Nat.min 11 (Nat.min 12 12) + 1)%nat with 2%nat.
    cbn [Rsum]. rewrite !variance_zeros. unfold Rdiv.
    generalize (/ C2 1). intros k. ring. }
  assert (Hspec : weight_elementwise 11 (zeros [1; 1; 12; 12]%nat)
                    (zeros [1; 1; 12; 12]%nat) 1 0 0 0 i j = 0).
  { unfold weight_elementwise. rewrite !variance_zeros.
    transitivity (ln 1); [f_equal | apply ln_1]. unfold Rdiv. ring. }
  split; [exact Hcode |]. split; [exact Hspec |].
  rewrite Hcode, Hspec. pose proof ln_2_pos. lra.
Qed.


(** C2, as stated, fails: on the all-zero image of a single pixel the
    weight map sums to zero, so the weighted [ssim] of the image with
    itself is the quotient [0 / 0] ([nan] in torch), not [1]. *)
Lemma ssim_weighted_of_constant_image :
  exists map_ssim contrast_map weight t,
    outcome (_ssim_parts (zeros [1; 1; 1; 1]%nat) (zeros [1; 1; 1; 1]%nat) 1)
    = inr (map_ssim, contrast_map, weight)
    /\ channel_sum weight 1 1 0 0 = 0
    /\ outcome (ssim (zeros [1; 1; 1; 1]%nat) (zeros [1; 1; 1; 1]%nat)
                  true 1) = inr t
    /\ data t [0; 0]%nat <> 1.
Proof.
  pose (z := zeros [1; 1; 1; 1]%nat).
  assert (Hargs : shape z = [1; 1; 1; 1]%nat) by reflexivity.
  destruct (proj1 (ssim_parts_spec z z 1 1 1 1 1 1 Hargs Hargs
                     ltac:(lia) ltac:(lia) ltac:(left; reflexivity)
                     ltac:(lia) ltac:(lia) ltac:(lia)) eq_refl)
    as (m & cm & wt & Hout & _ & _ & _ & Hd).
  destruct (ssim_spec z z 1 1 1 1 1 1 Hargs Hargs
              ltac:(lia) ltac:(lia) ltac:(left; reflexivity)
              ltac:(lia) ltac:(lia) ltac:(lia) true eq_refl)
    as (t & Ht & _ & Htd).
  assert (Hw0 : weight_value 1 1 z z 1 0 0 0 0 0 = 0).
  { unfold weight_value. cbn [Rsum]. unfold z. rewrite !variance_zeros.
    transitivity (ln 1); [f_equal | apply ln_1]. unfold Rdiv. ring. }
  exists m, cm, wt, t. fold z. split; [exact Hout |]. split; [| split].
  - unfold channel_sum, Rsum2. cbn [Rsum].
    destruct (Hd 0%nat 0%nat 0%nat 0%nat ltac:(simpl; lia) ltac:(lia)
                ltac:(simpl; lia) ltac:(simpl; lia)) as (_ & _ & ->).
    change (bsel 1 0) with 0%nat.
    change (Nat.min 11 (Nat.min 1 1)) with 1%nat.
    change (1 - 1 + 1)%nat with 1%nat. rewrite Hw0. ring.
  - exact Ht.
  - rewrite (Htd 0%nat 0%nat ltac:(simpl; lia) ltac:(lia)).
    change (bsel 1 0) with 0%nat.
    change (Nat.min 11 (Nat.min 1 1)) with 1%nat.
    change (1 - 1 + 1)%nat with 1%nat.
    unfold Rsum2. cbn [Rsum]. rewrite Hw0. unfold Rdiv.
    rewrite !Rmult_0_r, !Rplus_0_r, Rmult_0_l. lra.
Qed.

(** C2, amended.  For an image with at least one batch entry and one
    channel and a square extent [h = w >= 1], and a dynamic range that
    is not zero (1, 2 and 255 among them): the unweighted [ssim] of the
    image with itself is 1 for every batch entry and channel, and the
    weighted one is 1 wherever the weight map does not sum to zero. *)
Theorem ssim_of_identical_images (img : tensor) (B C h : nat) (dr : Z) :
  shape img = [B; C; h; h] ->
  (0 < B)%nat -> (0 < C)%nat -> (0 < h)%nat -> dr <> 0%Z ->
  let n := (h - Nat.min 11 (Nat.min h h) + 1)%nat in
  (exists t, outcome (ssim img img false dr) = inr t
             /\ shape t = [B; C]
             /\ forall b c, (b < B)%nat -> (c < C)%nat -> data t [b; c] = 1)
  /\ (exists map_ssim contrast_map weight t,
        outcome (_ssim_parts img img dr)
        = inr (map_ssim, contrast_map, weight)
        /\ outcome (ssim img img true dr) = inr t
        /\ shape t = [B; C]
        /\ forall b c, (b < B)%nat -> (c < C)%nat ->
             channel_sum weight n n b c <> 0 -> data t [b; c] = 1).
Proof.
  intros Hshape HB HC Hh Hdr n.
  assert (Hs : (0 < Nat.min 11 (Nat.min h h))%nat) by lia.
  assert (Hn : (0 < n)%nat) by (unfold n; lia).
  pose proof (ssim_spec img img B B C h h dr Hshape Hshape HB HB
                ltac:(left; reflexivity) HC Hh Hh) as Hspec.
  rewrite Nat.max_id in Hspec. split.
  - destruct (Hspec false eq_refl) as (t & Ht & Hts & Htd).
    exists t. split; [exact Ht |]. split; [exact Hts |].
    intros b c Hb Hc. rewrite (Htd b c Hb Hc). fold n.
    rewrite (Rsum2_ext n n _ (fun _ _ => 1))
      by (intros; apply ssim_value_self; assumption).
    rewrite Rsum2_const. unfold Rdiv. rewrite Rmult_1_r.
    apply Rinv_r. apply not_0_INR. nia.
  - destruct (proj1 (ssim_parts_spec img img B B C h h dr Hshape Hshape
                       HB HB ltac:(left; reflexivity) HC Hh Hh) eq_refl)
      as (m & cm & wt & Hout & _ & _ & _ & Hd).
    rewrite Nat.max_id in Hd.
    destruct (Hspec true eq_refl) as (t & Ht & Hts & Htd).
    exists m, cm, wt, t. split; [exact Hout |]. split; [exact Ht |].
    split; [exact Hts |].
    intros b c Hb Hc Hsum. rewrite (Htd b c Hb Hc). fold n.
    assert (Hcs : channel_sum wt n n b c
                  = Rsum2 n n (fun i j =>
                      weight_value (Nat.min 11 (Nat.min h h)) n img img dr
                        (bsel B b) (bsel B b) c i j)).
    { unfold channel_sum. apply Rsum2_ext. intros i j Hi Hj.
      destruct (Hd b c i j Hb Hc Hi Hj) as (_ & _ & ->). reflexivity. }
    rewrite Hcs in Hsum.
    rewrite (Rsum2_ext n n _
               (fun i j =>
                  weight_value (Nat.min 11 (Nat.min h h)) n img img dr
                    (bsel B b) (bsel B b) c i j)).
    + apply Rinv_r. exact Hsum.
    + intros i j _ _. rewrite ssim_value_self by assumption. ring.
Qed.

Lemma ssim_of_identical_images_witness :
  exists t, outcome (ssim (zeros [1; 1; 1; 1]%nat) (zeros [1; 1; 1; 1]%nat)
                       false 1) = inr t
            /\ data t [0; 0]%nat = 1.
Proof.
  destruct (ssim_of_identical_images (zeros [1; 1; 1; 1]%nat) 1 1 1 1
              eq_refl ltac:(lia) ltac:(lia) ltac:(lia) ltac:(discriminate))
    as [(t & Ht & _ & Htd) _].
  exists t. split; [exact Ht | apply Htd; lia].
Defined.

End Claims.

Section ClaimsBounds.
Import Torch perceptual_distance stats examples.
Local Open Scope R_scope.

Lemma gauss_2_1 : gauss 2 1 = 1.
Proof.
  unfold gauss. change (2 / 2)%nat with 1%nat.
  replace (- (INR 1 - INR 1) ^ 2 / (2 * 1.5 ^ 2)) with 0
    by (cbn [INR]; lra).
  apply exp_0.
Qed.

Lemma gauss_2_0_bounds : 1 / 3 <= gauss 2 0 <= 1.
Proof.
  unfold gauss. change (2 / 2)%nat with 1%nat.
  replace (- (INR 0 - INR 1) ^ 2 / (2 * 1.5 ^ 2)) with (- (2 / 9))
    by (cbn [INR]; lra).
  pose proof (exp_pos (2 / 9)) as Hpos.
  assert (Hinv : exp (- (2 / 9)) * exp (2 / 9) = 1)
    by (rewrite <- exp_plus; replace (- (2 / 9) + 2 / 9) with 0 by lra;
        apply exp_0).
  assert (Hup : exp (2 / 9) <= 3).
  { apply Rle_trans with (exp 1); [| apply exp_le_3].
    apply Rlt_le, exp_increasing. lra. }
  assert (Hlow : 1 <= exp (2 / 9)).
  { rewrite <- exp_0. apply Rlt_le, exp_increasing. lra. }
  pose proof (exp_pos (- (2 / 9))) as Hg.
  split; nra.
Qed.

(** The weight of the window of size 2 on its off-diagonal entries. *)
Lemma window_2_off_diagonal :
  window_value 2 1 0 = window_value 2 0 1
  /\ 1 / 12 <= window_value 2 0 1 <= 1 / 4.
Proof.
  unfold window_value, Rsum2. cbn [Rsum]. rewrite gauss_2_1.
  pose proof gauss_2_0_bounds as [Hl Hu].
  set (g := gauss 2 0) in *.
  replace (0 + (0 + g * g + g * 1) + (0 + 1 * g + 1 * 1))
    with ((g + 1) * (g + 1)) by ring.
  assert (Hd : 0 < (g + 1) * (g + 1)) by nra.
  split; [unfold Rdiv; ring |].
  assert (Hi : 0 < / ((g + 1) * (g + 1))) by (apply Rinv_0_lt_compat, Hd).
  assert (Hone : (g + 1) * (g + 1) * / ((g + 1) * (g + 1)) = 1)
    by (apply Rinv_r; lra).
  unfold Rdiv. split; nra.
Qed.


Lemma spot_means :
  mean_at 2 spot_a 0 0 0 0 = window_value 2 0 1
  /\ mean_at 2 spot_b 0 0 0 0 = window_value 2 0 1.
Proof.
  destruct window_2_off_diagonal as [Hq _].
  unfold mean_at, wavg, patch, Rsum2. cbn [Rsum Nat.add data spot_a spot_b].
  rewrite Hq. split; ring.
Qed.

Lemma spot_moments :
  second_moment 2 spot_a spot_a 0 0 0 0 0 = window_value 2 0 1
  /\ second_moment 2 spot_b spot_b 0 0 0 0 0 = window_value 2 0 1
  /\ second_moment 2 spot_a spot_b 0 0 0 0 0 = 0.
Proof.
  destruct window_2_off_diagonal as [Hq _].
  unfold second_moment, wavg, patch, Rsum2.
  cbn [Rsum Nat.add data spot_a spot_b].
  rewrite Hq. repeat split; ring.
Qed.

Lemma ssim_value_of_spots : ssim_value 2 spot_a spot_b 1 0 0 0 0 0 < 0.
Proof.
  unfold ssim_value, luminance_value, contrast_value, variance, covariance.
  destruct spot_means as [-> ->].
  destruct spot_moments as (-> & -> & ->).
  destruct window_2_off_diagonal as [_ [Hl Hu]].
  set (p := window_value 2 0 1) in *.
  unfold C1, C2.
  assert (Hlum : 0 < (2 * (p * p) + (0.01 * 1) ^ 2)
                     / (p ^ 2 + p ^ 2 + (0.01 * 1) ^ 2))
    by (apply Rdiv_lt_0_compat; nra).
  assert (Hden : 0 < p - p ^ 2 + (p - p ^ 2) + (0.03 * 1) ^ 2) by nra.
  assert (Hinv : 0 < / (p - p ^ 2 + (p - p ^ 2) + (0.03 * 1) ^ 2))
    by (apply Rinv_0_lt_compat, Hden).
  assert (Hnum : 2.0 * (0 - p * p) + (0.03 * 1) ^ 2 < 0) by nra.
  unfold Rdiv at 2.
  assert (Hcon : (2.0 * (0 - p * p) + (0.03 * 1) ^ 2)
                 * / (p - p ^ 2 + (p - p ^ 2) + (0.03 * 1) ^ 2) < 0)
    by nra.
  nra.
Qed.

(** C3. On two images of 2 by 2 pixels with values in [[0, 1]], whose
    bright pixels sit at different places, the local covariance is
    negative and [ssim] at [dynamic_range = 1] returns a negative value,
    which is outside the interval [[0, 1]] that the docstrings of [ssim]
    and [ssim_map] give as its bounds. *)
Theorem ssim_of_spots_negative :
  (forall idx, 0 <= data spot_a idx <= 1)
  /\ (forall idx, 0 <= data spot_b idx <= 1)
  /\ exists t, outcome (ssim spot_a spot_b false 1) = inr t
               /\ data t [0; 0]%nat < 0.
Proof.
  split; [| split].
  - intros idx. unfold spot_a. cbn [data].
    destruct idx as [| ? [| ? [| [| ?] [| [| [| ?]] [| ? ?]]]]]; lra.
  - intros idx. unfold spot_b. cbn [data].
    destruct idx as [| ? [| ? [| [| [| ?]] [| [| ?] [| ? ?]]]]]; lra.
  - destruct (ssim_spec spot_a spot_b 1 1 1 2 2 1 eq_refl eq_refl
                ltac:(lia) ltac:(lia) ltac:(left; reflexivity)
                ltac:(lia) ltac:(lia) ltac:(lia) false eq_refl)
      as (t & Ht & _ & Htd).
    exists t. split; [exact Ht |].
    rewrite (Htd 0%nat 0%nat ltac:(simpl; lia) ltac:(lia)).
    change (bsel 1 0) with 0%nat.
    change (Nat.min 11 (Nat.min 2 2)) with 2%nat.
    change (2 - 2 + 1)%nat with 1%nat.
    unfold Rsum2. cbn [Rsum Nat.mul INR].
    replace (INR (1 + 0)) with 1 by (simpl; lra).
    pose proof ssim_value_of_spots. lra.
Qed.

End ClaimsBounds.

Section ClaimsShapes.
Import Torch perceptual_distance stats examples.
Local Open Scope R_scope.

(** C4, as stated, fails: two images of equal batch size, height and
    width but of different channel counts are refused by the grouped
    convolution of the second image. *)
Lemma ssim_refuses_channel_mismatch :
  outcome (ssim (zeros [1; 1; 1; 1]%nat) (zeros [1; 2; 1; 1]%nat) false 1)
  = inl ConvError.
Proof.
  apply (ssim_channel_mismatch _ _ 1 1 1 2 1 1); try reflexivity; try lia.
Qed.

(** C4, amended.  For [ssim] on two 4d images none of whose sizes is
    zero: if the heights or widths differ, the check of the shapes
    raises, which precedes the construction of the window and every
    convolution; with equal height and width, if the batch sizes differ
    and neither is 1, the same check raises; and with equal channel
    counts and a square extent, if the batch sizes are equal or one of
    them is 1, [ssim] returns a tensor whose leading dimension is the
    larger batch size. *)
Theorem ssim_broadcast (img1 img2 : tensor)
    (B1 C h w B2 C' h' w' : nat) (weighted : bool) (dr : Z) :
  shape img1 = [B1; C; h; w] -> shape img2 = [B2; C'; h'; w'] ->
  Forall (lt 0) [B1; C; h; w] -> Forall (lt 0) [B2; C'; h'; w'] ->
  ((h', w') <> (h, w) ->
     outcome (check_shapes img1 img2) = inl HeightWidthMismatch
     /\ outcome (ssim img1 img2 weighted dr) = inl HeightWidthMismatch)
  /\ ((h', w') = (h, w) -> B1 <> B2 -> B1 <> 1%nat -> B2 <> 1%nat ->
        outcome (check_shapes img1 img2)
        = inl (BatchMismatch (shape img1) (shape img2))
        /\ outcome (ssim img1 img2 weighted dr)
           = inl (BatchMismatch (shape img1) (shape img2)))
  /\ ((h', w') = (h, w) -> C' = C -> h = w ->
        (B1 = B2 \/ B1 = 1 \/ B2 = 1)%nat ->
        exists t, outcome (ssim img1 img2 weighted dr) = inr t
                  /\ shape t = [Nat.max B1 B2; C]).
Proof.
  intros H1 H2 Hp1 Hp2.
  assert (Hne1 : Forall (lt 0) (shape img1)) by (rewrite H1; exact Hp1).
  assert (Hne2 : Forall (lt 0) (shape img2)) by (rewrite H2; exact Hp2).
  pose proof (check_range_returns img1 img2 dr Hne1 Hne2) as Hrange.
  assert (Hraise : forall e,
             outcome (check_shapes img1 img2) = inl e ->
             outcome (ssim img1 img2 weighted dr) = inl e).
  { intros e He. unfold ssim. apply outcome_bind_inl. unfold _ssim_parts.
    rewrite (outcome_bind_inr _ _ _ Hrange).
    apply outcome_bind_inl. exact He. }
  split; [| split].
  - intros Hne.
    pose proof (check_shapes_spatial _ _ _ _ _ _ _ _ _ _ H1 H2 Hne) as He.
    split; [exact He | apply Hraise, He].
  - intros Heq Hb Hb1 Hb2. inversion Heq; subst h' w'.
    pose proof (check_shapes_batch _ _ _ _ _ _ _ _ H1 H2 Hb Hb1 Hb2) as He.
    rewrite H1, H2. split; [exact He | apply Hraise, He].
  - intros Heq HC Hhw HB. inversion Heq; subst h' w' C' w.
    inversion Hp1 as [| ? ? HB1 Hp1']; subst.
    inversion Hp1' as [| ? ? HC Hp1'']; subst.
    inversion Hp1'' as [| ? ? Hh _]; subst.
    inversion Hp2 as [| ? ? HB2 _]; subst.
    destruct (ssim_spec img1 img2 B1 B2 C h h dr H1 H2 HB1 HB2 HB HC Hh Hh
                weighted eq_refl) as (t & Ht & Hts & _).
    exists t. split; assumption.
Qed.

Lemma ssim_broadcast_witness :
  exists t,
    outcome (ssim (zeros [3; 1; 12; 12]%nat) (zeros [1; 1; 12; 12]%nat)
               false 1) = inr t
    /\ shape t = [3; 1]%nat.
Proof.
  destruct (ssim_broadcast (zeros [3; 1; 12; 12]%nat)
              (zeros [1; 1; 12; 12]%nat) 3 1 12 12 1 1 12 12 false 1
              eq_refl eq_refl
              ltac:(repeat constructor) ltac:(repeat constructor))
    as (_ & _ & Hok).
  apply Hok; [reflexivity | reflexivity | reflexivity | right; right;
                                                        reflexivity].
Defined.


(** C10. For two 4d images of one and the same shape and any dynamic
    range, the unweighted [ssim] of the two is that of the two swapped:
    both calls raise the same exception, or both return tensors of the
    same shape with the same entries. *)
Theorem ssim_symmetric (img1 img2 : tensor) (B C h w : nat) (dr : Z) :
  shape img1 = [B; C; h; w] -> shape img2 = [B; C; h; w] ->
  same_outcome (outcome (ssim img1 img2 false dr))
               (outcome (ssim img2 img1 false dr)).
Proof.
  intros H1 H2.
  destruct (decide (In 0%nat [B; C; h; w])) as [Hzero | Hpos].
  - (* an image without elements: both calls fail in [min()] *)
    assert (He : forall a b, In 0%nat (shape a) ->
                   outcome (ssim a b false dr) = inl EmptyReduction).
    { intros a b Ha. unfold ssim. apply outcome_bind_inl.
      unfold _ssim_parts. apply outcome_bind_inl.
      apply check_range_empty, Ha. }
    rewrite (He img1 img2), (He img2 img1) by (rewrite ?H1, ?H2; exact Hzero).
    reflexivity.
  - assert (HB : (0 < B)%nat) by (cbn in Hpos; lia).
    assert (HC : (0 < C)%nat) by (cbn in Hpos; lia).
    assert (Hh : (0 < h)%nat) by (cbn in Hpos; lia).
    assert (Hw : (0 < w)%nat) by (cbn in Hpos; lia).
    destruct (decide (h = w)) as [Hhw | Hhw].
    + destruct (ssim_spec img1 img2 B B C h w dr H1 H2 HB HB
                  ltac:(left; reflexivity) HC Hh Hw false Hhw)
        as (t & -> & Hts & Htd).
      destruct (ssim_spec img2 img1 B B C h w dr H2 H1 HB HB
                  ltac:(left; reflexivity) HC Hh Hw false Hhw)
        as (t' & -> & Hts' & Htd').
      cbn [same_outcome]. split; [rewrite Hts, Hts'; reflexivity |].
      intros idx Hidx. rewrite Hts in Hidx.
      inversion Hidx as [| b B' r1 r1' Hb Hr]; subst.
      inversion Hr as [| c C'' r2 r2' Hc Hr']; subst.
      inversion Hr'; subst.
      rewrite (Htd b c Hb Hc), (Htd' b c Hb Hc). f_equal.
      apply Rsum2_ext. intros i j _ _. apply ssim_value_comm.
    + rewrite (ssim_nonsquare img1 img2 B B C h w dr H1 H2 HB HB
                 ltac:(left; reflexivity) HC Hh Hw false Hhw).
      rewrite (ssim_nonsquare img2 img1 B B C h w dr H2 H1 HB HB
                 ltac:(left; reflexivity) HC Hh Hw false Hhw).
      reflexivity.
Qed.

Lemma ssim_symmetric_witness :
  same_outcome (outcome (ssim spot_a spot_b false 1))
               (outcome (ssim spot_b spot_a false 1)).
Proof. exact (ssim_symmetric spot_a spot_b 1 1 2 2 1 eq_refl eq_refl). Defined.

End ClaimsShapes.

(** ** The normalized Laplacian pyramid distance *)

Section NlpdFacts.
Import Torch perceptual_distance stats.
Local Open Scope R_scope.

Lemma mapM_returns {A B : Type} (f : A -> M B) (P : A -> B -> Prop) l :
  (forall x, In x l -> exists y, outcome (f x) = inr y /\ P x y) ->
  exists ys, outcome (mapM f l) = inr ys /\ Forall2 P l ys.
Proof.
  induction l as [| x l IH]; intros H.
  - exists []. split; [reflexivity | constructor].
  - destruct (H x (or_introl eq_refl)) as (y & Hy & HP).
    destruct IH as (ys & Hys & HF); [intros; apply H; now right |].
    exists (y :: ys). split; [| constructor; assumption].
    cbn [mapM]. rewrite (outcome_bind_inr _ _ _ Hy).
    rewrite (outcome_bind_inr _ _ _ Hys). reflexivity.
Qed.

Lemma bidx_rev_in_range r ri : Forall2 lt ri r -> bidx_rev r ri = ri.
Proof.
  intros H. induction H as [| i d ri r Hlt _ IH]; [reflexivity |].
  cbn [bidx_rev]. rewrite (bsel_lt d i Hlt), IH. reflexivity.
Qed.

Lemma Forall2_lt_rev (l k : list nat) :
  Forall2 lt l k -> Forall2 lt (rev l) (rev k).
Proof.
  intros H. induction H as [| x y l k Hxy _ IH]; cbn [rev];
    [constructor |].
  apply Forall2_app; [exact IH | repeat constructor; exact Hxy].
Qed.

Lemma bidx_in_range s idx : Forall2 lt idx s -> bidx s idx = idx.
Proof.
  intros H. unfold bidx. rewrite bidx_rev_in_range.
  - apply rev_involutive.
  - apply Forall2_lt_rev. exact H.
Qed.

Lemma sum_over_ext s f g :
  (forall idx, Forall2 lt idx s -> f idx = g idx) ->
  sum_over s f = sum_over s g.
Proof.
  revert f g. induction s as [| d s IH]; intros f g H; cbn [sum_over].
  - apply H. constructor.
  - apply Rsum_ext. intros i Hi. apply IH. intros idx Hidx.
    apply H. constructor; assumption.
Qed.

Lemma sum_over_zero s : sum_over s (fun _ => 0) = 0.
Proof.
  induction s as [| d s IH]; cbn [sum_over]; [reflexivity |].
  rewrite (Rsum_ext d _ (fun _ => 0)) by (intros; apply IH).
  rewrite Rsum_const. ring.
Qed.


Lemma select_ok t n s k :
  shape t = n :: s -> (k < n)%nat ->
  select t k = inr (mkTensor s (fun idx => data t (k :: idx))).
Proof.
  intros Hs Hk. unfold select. rewrite Hs.
  destruct (Nat.ltb_spec k n); [reflexivity | lia].
Qed.

Lemma narrow_ok t n s start len :
  shape t = n :: s -> (start + len <= n)%nat ->
  narrow t start len
  = inr (mkTensor (len :: s)
           (fun idx => match idx with
                       | i :: r => data t ((start + i)%nat :: r)
                       | [] => 0
                       end)).
Proof.
  intros Hs Hk. unfold narrow. rewrite Hs.
  destruct (Nat.leb_spec (start + len) n); [reflexivity | lia].
Qed.

Lemma item_ok {A : Type} (l : list A) i x :
  l !! i = Some x -> item l i = mret x.
Proof. intros H. unfold item. rewrite H. reflexivity. Qed.

(** One term of [nlpd] on a scale that holds at least two images. *)
Lemma scale_distance_returns epsilon y i yi n s :
  y !! i = Some yi -> shape yi = n :: s -> (2 <= n)%nat ->
  exists t, outcome (scale_distance epsilon y i) = inr t
            /\ data t [] = scale_rms epsilon yi.
Proof.
  intros Hy Hs Hn. unfold scale_distance.
  rewrite (item_ok _ _ _ Hy), bind_mret.
  rewrite (select_ok _ _ _ 0 Hs) by lia. rewrite bind_lift_inr.
  rewrite (select_ok _ _ _ 1 Hs) by lia. rewrite bind_lift_inr.
  erewrite binary_ok by (cbn [shape]; apply broadcast_shapes_same).
  rewrite bind_lift_inr.
  eexists. split; [reflexivity |].
  cbn [data tmap mean shape]. unfold scale_rms. rewrite Hs. cbn [tail].
  f_equal. f_equal. f_equal.
  apply sum_over_ext. intros idx Hidx. unfold bget. cbn [shape data].
  rewrite (bidx_in_range _ _ Hidx). reflexivity.
Qed.

(** The same term with the scale split into two halves of [k] images. *)
Lemma scale_distance_halves_returns epsilon k y i yi n s :
  y !! i = Some yi -> shape yi = n :: s -> (k + k <= n)%nat ->
  exists t, outcome (scale_distance_halves epsilon k k y i) = inr t
            /\ data t [] = halves_rms epsilon k yi.
Proof.
  intros Hy Hs Hn. unfold scale_distance_halves.
  rewrite (item_ok _ _ _ Hy), bind_mret.
  rewrite (narrow_ok _ _ _ 0 k Hs) by lia. rewrite bind_lift_inr.
  rewrite (narrow_ok _ _ _ k k Hs) by lia. rewrite bind_lift_inr.
  erewrite binary_ok by (cbn [shape]; apply broadcast_shapes_same).
  rewrite bind_lift_inr.
  eexists. split; [reflexivity |].
  cbn [data tmap mean shape]. unfold halves_rms. rewrite Hs. cbn [tail].
  f_equal. f_equal. unfold Rdiv. f_equal.
  apply sum_over_ext. intros idx Hidx. unfold bget. cbn [shape data].
  rewrite (bidx_in_range _ _ Hidx).
  destruct idx as [| b r]; [inversion Hidx | reflexivity].
Qed.

(** With one image on each side the two readings are the same. *)
Lemma halves_rms_one epsilon yi :
  halves_rms epsilon 1 yi = scale_rms epsilon yi.
Proof.
  unfold halves_rms, scale_rms. cbn [sum_over Rsum].
  rewrite Rplus_0_l.
  change (numel (1%nat :: tail (shape yi)))
    with (1 * numel (tail (shape yi)))%nat.
  rewrite Nat.mul_1_l. reflexivity.
Qed.

Lemma padded_same_entries t p b b' c i j :
  same_entries t b b' -> padded t p [b; c; i; j] = padded t p [b'; c; i; j].
Proof.
  intros H. unfold padded.
  destruct (shape t) as [| ? [| ? [| ? [| ? [| ? ?]]]]]; try reflexivity.
  match goal with |- context [if ?c then _ else _] => destruct c end;
    [apply H | reflexivity].
Qed.

Lemma pooled_same_entries filters act i b b' x z :
  same_entries act b b' ->
  pooled filters act i b x z = pooled filters act i b' x z.
Proof.
  intros H. unfold pooled. apply Rsum2_ext. intros a a' _ _. f_equal.
  apply padded_same_entries. intros idx. cbn [data tmap].
  rewrite (H idx). reflexivity.
Qed.

Lemma pooled_nonneg filters act i b x z :
  (forall idx, 0 <= data filters idx) -> 0 <= pooled filters act i b x z.
Proof.
  intros H. unfold pooled. apply Rsum2_nonneg. intros a a' _ _.
  apply Rmult_le_pos; [| apply H].
  unfold padded. cbn [shape tmap].
  destruct (shape act) as [| ? [| ? [| ? [| ? [| ? ?]]]]]; try lra.
  match goal with |- context [if ?c then _ else _] => destruct c end;
    [cbn [data]; apply Rabs_pos | lra].
Qed.

Lemma conv2d_pooling t filt B h w :
  shape t = [B; 1%nat; h; w] -> shape filt = [1; 1; 5; 5]%nat ->
  (0 < h)%nat -> (0 < w)%nat ->
  conv2d t filt 2 1
  = inr (mkTensor [B; 1%nat; h; w] (conv2d_data t filt 2 1 1 5 5)).
Proof.
  intros Ht Hf Hh Hw. unfold conv2d. rewrite Ht, Hf.
  replace (5 <=? h + 2 * 2)%nat with true
    by (symmetry; apply Nat.leb_le; lia).
  replace (5 <=? w + 2 * 2)%nat with true
    by (symmetry; apply Nat.leb_le; lia).
  replace (h + 2 * 2 - 5 + 1)%nat with h by lia.
  replace (w + 2 * 2 - 5 + 1)%nat with w by lia.
  reflexivity.
Qed.

Variable Laplacian_Pyramid_analysis : nat -> tensor -> M (list tensor).
Variables spatialpooling_filters sigmas : tensor.
Hypothesis Hfilters : shape spatialpooling_filters = [6; 5; 5]%nat.
Hypothesis Hsigmas : shape sigmas = [6%nat].

Local Abbreviation nlp :=
  (normalized_laplacian_pyramid Laplacian_Pyramid_analysis
     spatialpooling_filters sigmas).

Lemma nlp_returns im B h w acts :
  shape im = [B; 1%nat; h; w] ->
  six_scales Laplacian_Pyramid_analysis im acts ->
  exists y,
    outcome (nlp im) = inr y
    /\ length y = 6%nat
    /\ forall i yi, y !! i = Some yi ->
         exists act hi wi,
           acts !! i = Some act
           /\ shape act = [B; 1%nat; hi; wi]
           /\ shape yi = [B; 1%nat; hi; wi]
           /\ (0 < hi)%nat /\ (0 < wi)%nat
           /\ forall b x z, (b < B)%nat -> (x < hi)%nat -> (z < wi)%nat ->
                data yi [b; 0%nat; x; z]
                = data act [b; 0%nat; x; z]
                  / (data sigmas [i]
                     + pooled spatialpooling_filters act i b x z).
Proof.
  intros Him (Hout & Hlen & Hshapes).
  unfold normalized_laplacian_pyramid. rewrite Him.
  rewrite (outcome_bind_inr _ _ _ Hout).
  match goal with
  | |- context [mapM ?f (seq 0 6)] =>
      destruct (mapM_returns f
                  (fun i yi =>
                     exists act hi wi,
                       acts !! i = Some act
                       /\ shape act = [B; 1%nat; hi; wi]
                       /\ shape yi = [B; 1%nat; hi; wi]
                       /\ (0 < hi)%nat /\ (0 < wi)%nat
                       /\ forall b x z,
                            (b < B)%nat -> (x < hi)%nat -> (z < wi)%nat ->
                            data yi [b; 0%nat; x; z]
                            = data act [b; 0%nat; x; z]
                              / (data sigmas [i]
                                 + pooled spatialpooling_filters act
                                     i b x z))
                  (seq 0 6)) as (y & Hy & HF)
  end.
  - intros N_b HN. apply in_seq in HN.
    assert (Hact : exists act, acts !! N_b = Some act)
      by (apply lookup_lt_is_Some; lia).
    destruct Hact as (act & Hact).
    destruct (Hshapes _ _ Hact) as (hi & wi & Hhi & Hwi & Hsa).
    rewrite Him in Hsa. cbn [hd] in Hsa.
    rewrite (select_ok _ _ _ N_b Hfilters) by lia.
    rewrite bind_lift_inr.
    rewrite unsqueeze_ok by (cbn; lia). rewrite bind_lift_inr.
    rewrite unsqueeze_ok by (cbn; lia). rewrite bind_lift_inr.
    cbn [shape take drop app].
    rewrite (item_ok _ _ _ Hact), bind_mret.
    erewrite (conv2d_pooling (tmap Rabs act))
      by (try reflexivity; eassumption).
    rewrite bind_lift_inr.
    rewrite (select_ok _ _ _ N_b Hsigmas) by lia.
    rewrite bind_lift_inr.
    erewrite (binary_ok Rplus) by (cbn [shape]; reflexivity).
    rewrite bind_lift_inr.
    erewrite (binary_ok Rdiv)
      by (rewrite Hsa; cbn [shape]; apply broadcast_shapes_same).
    eexists. split; [reflexivity |].
    exists act, hi, wi. split; [exact Hact |]. split; [exact Hsa |].
    split; [reflexivity |].
    split; [exact Hhi |]. split; [exact Hwi |].
    intros b x z Hb Hx Hz. cbn [data].
    rewrite !(bget4_in _ _ _ _ _ _ _ _ _ Hsa) by (assumption || lia).
    erewrite !bget4_in
      by (try (cbn [shape]; reflexivity); assumption || lia).
    rewrite !(bsel_lt B) by assumption.
    cbn [data]. unfold bget. cbn [shape bidx rev app bidx_rev data].
    rewrite !(bsel_lt B), !(bsel_lt hi), !(bsel_lt wi) by assumption.
    change (bsel 1 0) with 0%nat.
    unfold conv2d_data, pooled. cbn [Rsum]. rewrite Rplus_0_l.
    reflexivity.
  - exists y. split; [exact Hy |]. split.
    + apply Forall2_length in HF. rewrite length_seq in HF. lia.
    + intros i yi Hyi.
      destruct (Forall2_lookup_r _ _ _ _ _ HF Hyi) as (N_b & HN & HP).
      apply lookup_seq in HN. destruct HN as [-> _]. exact HP.
Qed.

Lemma cat0_ok a b n1 n2 s :
  shape a = n1 :: s -> shape b = n2 :: s ->
  cat0 a b
  = inr (mkTensor ((n1 + n2)%nat :: s)
           (fun idx => match idx with
                       | i :: r => if (i <? n1)%nat then data a (i :: r)
                                   else data b ((i - n1)%nat :: r)
                       | [] => 0
                       end)).
Proof.
  intros Ha Hb. unfold cat0. rewrite Ha, Hb.
  destruct n1, n2, s; cbv beta iota;
    (destruct (decide _) as [_ | Hc]; [reflexivity | contradiction]).
Qed.

Lemma sum_of_terms {A : Type} (f : A -> R) (g : tensor -> R)
    (y : list A) (dist : list tensor) :
  Forall2 (fun yi t => g t = f yi) y dist ->
  fold_right Rplus 0 (map g dist) = fold_right Rplus 0 (map f y).
Proof.
  intros H. induction H as [| yi t y dist Ht _ IH]; [reflexivity |].
  cbn [map fold_right]. rewrite Ht, IH. reflexivity.
Qed.

Lemma sum_of_equal_terms {A : Type} (f : A -> R) (c : R) (y : list A) :
  Forall (fun yi => f yi = c) y ->
  fold_right Rplus 0 (map f y) = INR (length y) * c.
Proof.
  intros H. induction y as [| yi y IH]; [simpl; ring |].
  apply Forall_cons in H. destruct H as [Hyi Hy].
  cbn [map fold_right length]. rewrite Hyi, (IH Hy), S_INR. ring.
Qed.

(** [nlpd] on a concatenated batch of at least two images, given six
    scales from the pyramid. *)
Lemma nlpd_returns IM_1 IM_2 n1 n2 h w both acts :
  shape IM_1 = [n1; 1%nat; h; w] -> shape IM_2 = [n2; 1%nat; h; w] ->
  (2 <= n1 + n2)%nat ->
  cat0 IM_1 IM_2 = inr both ->
  six_scales Laplacian_Pyramid_analysis both acts ->
  exists y t,
    outcome (nlp both) = inr y
    /\ length y = 6%nat
    /\ (forall i yi, y !! i = Some yi ->
          exists act hi wi,
            acts !! i = Some act
            /\ shape act = [(n1 + n2)%nat; 1%nat; hi; wi]
            /\ shape yi = [(n1 + n2)%nat; 1%nat; hi; wi]
            /\ (0 < hi)%nat /\ (0 < wi)%nat
            /\ forall b x z,
                 (b < n1 + n2)%nat -> (x < hi)%nat -> (z < wi)%nat ->
                 data yi [b; 0%nat; x; z]
                 = data act [b; 0%nat; x; z]
                   / (data sigmas [i]
                      + pooled spatialpooling_filters act i b x z))
    /\ outcome (nlpd Laplacian_Pyramid_analysis spatialpooling_filters
                  sigmas IM_1 IM_2) = inr t
    /\ data t [] = fold_right Rplus 0 (map (scale_rms 1e-10) y) / 6.
Proof.
  intros H1 H2 Hn Hcat Hpyr.
  assert (Hboth : shape both = [(n1 + n2)%nat; 1%nat; h; w]).
  { rewrite (cat0_ok _ _ _ _ _ H1 H2) in Hcat. inversion Hcat.
    reflexivity. }
  destruct (nlp_returns both _ _ _ acts Hboth Hpyr)
    as (y & Hy & Hlen & Hys).
  unfold nlpd. rewrite Hcat, bind_lift_inr.
  rewrite (outcome_bind_inr _ _ _ Hy).
  destruct (mapM_returns (scale_distance 1e-10 y)
              (fun i t => exists yi, y !! i = Some yi
                                     /\ data t [] = scale_rms 1e-10 yi)
              (seq 0 6)) as (dist & Hdist & HF).
  { intros i Hi. apply in_seq in Hi.
    assert (Hyi : exists yi, y !! i = Some yi)
      by (apply lookup_lt_is_Some; lia).
    destruct Hyi as (yi & Hyi).
    destruct (Hys i yi Hyi) as (act & hi & wi & _ & _ & Hsy & _).
    destruct (scale_distance_returns 1e-10 y i yi _ _ Hyi Hsy Hn)
      as (t & Ht & Htd).
    exists t. split; [exact Ht |]. exists yi. split; assumption. }
  rewrite (outcome_bind_inr _ _ _ Hdist).
  exists y, (stack_mean dist).
  split; [exact Hy |]. split; [exact Hlen |]. split; [exact Hys |].
  split; [reflexivity |].
  cbn [data stack_mean].
  assert (Hld : length dist = 6%nat)
    by (apply Forall2_length in HF; rewrite length_seq in HF; lia).
  rewrite Hld.
  replace (INR 6) with 6 by (simpl; lra). f_equal.
  apply sum_of_terms.
  apply Forall2_same_length_lookup_2; [lia |].
  intros i yi t Hyi Ht.
  destruct (Forall2_lookup_r _ _ _ _ _ HF Ht) as (N_b & HN & yi' & Hyi' & Hd).
  apply lookup_seq in HN. destruct HN as [-> _]. cbn in Hyi'.
  rewrite Hyi in Hyi'. inversion Hyi'; subst. exact Hd.
Qed.

Lemma nlpd_halves_returns IM_1 IM_2 k h w y both :
  shape IM_1 = [k; 1%nat; h; w] -> shape IM_2 = [k; 1%nat; h; w] ->
  cat0 IM_1 IM_2 = inr both ->
  outcome (nlp both) = inr y -> length y = 6%nat ->
  (forall i yi, y !! i = Some yi ->
     exists n s, shape yi = n :: s /\ (k + k <= n)%nat) ->
  exists t,
    outcome (nlpd_halves Laplacian_Pyramid_analysis spatialpooling_filters
               sigmas IM_1 IM_2) = inr t
    /\ data t [] = fold_right Rplus 0 (map (halves_rms 1e-10 k) y) / 6.
Proof.
  intros H1 H2 Hcat Hy Hlen Hys.
  unfold nlpd_halves. rewrite Hcat, bind_lift_inr.
  rewrite (outcome_bind_inr _ _ _ Hy). rewrite H1, H2. cbn [hd].
  destruct (mapM_returns (scale_distance_halves 1e-10 k k y)
              (fun i t => exists yi, y !! i = Some yi
                                     /\ data t [] = halves_rms 1e-10 k yi)
              (seq 0 6)) as (dist & Hdist & HF).
  { intros i Hi. apply in_seq in Hi.
    assert (Hyi : exists yi, y !! i = Some yi)
      by (apply lookup_lt_is_Some; lia).
    destruct Hyi as (yi & Hyi).
    destruct (Hys i yi Hyi) as (n & s & Hsy & Hn).
    destruct (scale_distance_halves_returns 1e-10 k y i yi _ _ Hyi Hsy Hn)
      as (t & Ht & Htd).
    exists t. split; [exact Ht |]. exists yi. split; assumption. }
  rewrite (outcome_bind_inr _ _ _ Hdist).
  exists (stack_mean dist). split; [reflexivity |].
  cbn [data stack_mean].
  assert (Hld : length dist = 6%nat)
    by (apply Forall2_length in HF; rewrite length_seq in HF; lia).
  rewrite Hld.
  replace (INR 6) with 6 by (simpl; lra). f_equal.
  apply sum_of_terms.
  apply Forall2_same_length_lookup_2; [lia |].
  intros i yi t Hyi Ht.
  destruct (Forall2_lookup_r _ _ _ _ _ HF Ht) as (N_b & HN & yi' & Hyi' & Hd).
  apply lookup_seq in HN. destruct HN as [-> _]. cbn in Hyi'.
  rewrite Hyi in Hyi'. inversion Hyi'; subst. exact Hd.
Qed.

End NlpdFacts.

Section ClaimsNlpd.
Import Torch perceptual_distance stats examples.
Local Open Scope R_scope.

Lemma sqrt_epsilon : sqrt 1e-10 = 1e-5.
Proof.
  replace 1e-10 with (1e-5 * 1e-5) by lra. apply sqrt_square. lra.
Qed.

Lemma pooled_zero_filters act i b x z :
  pooled zero_filters act i b x z = 0.
Proof.
  unfold pooled, zero_filters, zeros. cbn [data].
  rewrite (Rsum2_ext 5 5 _ (fun _ _ => 0)) by (intros; ring).
  rewrite Rsum2_const. ring.
Qed.

(** The stand-in pyramid on a batch of [B] single-channel images. *)
Lemma echo_six_scales im B h w :
  shape im = [B; 1%nat; h; w] -> (0 < h)%nat -> (0 < w)%nat ->
  six_scales echo_pyramid im (replicate 6 im).
Proof.
  intros Him Hh Hw. split; [reflexivity |]. split; [reflexivity |].
  intros i act Hact. apply lookup_replicate in Hact.
  destruct Hact as [-> _]. exists h, w. rewrite Him. cbn [hd].
  repeat split; assumption.
Qed.

(** What [nlpd] and its reading by halves make of a batch of a bright
    and a dark pixel compared with itself, under the stand-in pyramid. *)
Lemma nlpd_of_bright_dark :
  exists t t',
    outcome (nlpd echo_pyramid zero_filters unit_sigmas
               bright_dark bright_dark) = inr t
    /\ data t [] = sqrt (1 + 1e-10)
    /\ outcome (nlpd_halves echo_pyramid zero_filters unit_sigmas
                  bright_dark bright_dark) = inr t'
    /\ data t' [] = 1e-5.
Proof.
  pose proof (cat0_ok bright_dark bright_dark 2 2 [1; 1; 1]%nat
                eq_refl eq_refl) as Hcat.
  set (both := mkTensor _ _) in Hcat.
  assert (Hboth : shape both = [4; 1; 1; 1]%nat) by reflexivity.
  destruct (nlpd_returns echo_pyramid zero_filters unit_sigmas
              eq_refl eq_refl bright_dark bright_dark 2 2 1 1 both
              (replicate 6 both) eq_refl eq_refl ltac:(lia) Hcat
              (echo_six_scales both 4 1 1 Hboth ltac:(lia) ltac:(lia)))
    as (y & t & Hy & Hlen & Hys & Ht & Htd).
  assert (Hvals : forall i yi, y !! i = Some yi ->
            shape yi = [4; 1; 1; 1]%nat
            /\ forall b, (b < 4)%nat ->
                 data yi [b; 0; 0; 0]%nat = data both [b; 0; 0; 0]%nat).
  { intros i yi Hyi.
    destruct (Hys i yi Hyi)
      as (act & hi & wi & Hact & Hsa & Hsy & Hhi & Hwi & Hd).
    apply lookup_replicate in Hact. destruct Hact as [-> _].
    rewrite Hboth in Hsa. inversion Hsa; subst hi wi.
    split; [exact Hsy |]. intros b Hb.
    rewrite (Hd b 0%nat 0%nat) by (assumption || lia).
    rewrite pooled_zero_filters. unfold unit_sigmas. cbn [data].
    unfold Rdiv. rewrite Rplus_0_r, Rinv_1. ring. }
  assert (Hcode : Forall (fun yi => scale_rms 1e-10 yi = sqrt (1 + 1e-10)) y).
  { apply Forall_lookup. intros i yi Hyi.
    destruct (Hvals i yi Hyi) as [Hsy Hd].
    unfold scale_rms. rewrite Hsy. cbn [tail sum_over Rsum numel fold_right].
    rewrite !Hd by lia. unfold both. cbn [data Nat.ltb Nat.leb Nat.sub].
    unfold bright_dark. cbn [data]. f_equal. simpl. lra. }
  assert (Hspec : Forall (fun yi => halves_rms 1e-10 2 yi = 1e-5) y).
  { apply Forall_lookup. intros i yi Hyi.
    destruct (Hvals i yi Hyi) as [Hsy Hd].
    unfold halves_rms. rewrite Hsy. cbn [tail sum_over Rsum numel fold_right
                                          Nat.add].
    rewrite !Hd by lia. unfold both. cbn [data Nat.ltb Nat.leb Nat.sub].
    unfold bright_dark. cbn [data]. rewrite <- sqrt_epsilon. f_equal.
    simpl. lra. }
  destruct (nlpd_halves_returns echo_pyramid zero_filters unit_sigmas
              bright_dark bright_dark 2 1 1 y both eq_refl eq_refl Hcat
              Hy Hlen) as (t' & Ht' & Htd').
  { intros i yi Hyi. destruct (Hvals i yi Hyi) as [Hsy _].
    exists 4%nat, [1; 1; 1]%nat. split; [exact Hsy | lia]. }
  exists t, t'. split; [exact Ht |]. split; [| split; [exact Ht' |]].
  - rewrite Htd, (sum_of_equal_terms _ _ _ Hcode), Hlen.
    replace (INR 6) with 6 by (simpl; lra). field.
  - rewrite Htd', (sum_of_equal_terms _ _ _ Hspec), Hlen.
    replace (INR 6) with 6 by (simpl; lra). lra.
Qed.


Lemma sqrt_above_one : 1 <= sqrt (1 + 1e-10).
Proof.
  rewrite <- sqrt_1 at 1. apply sqrt_le_1_alt. lra.
Qed.

(** C5, as stated, fails on batches of more than one image.  With the
    stand-in pyramid, [nlpd] of the batch of a bright and a dark pixel
    with itself compares the bright pixel with the dark one, the entries
    0 and 1 of the concatenated batch, where the split into the half of
    [IM_1] and the half of [IM_2] compares equal images. *)
Lemma nlpd_compares_first_two_entries :
  exists t t',
    outcome (nlpd echo_pyramid zero_filters unit_sigmas
               bright_dark bright_dark) = inr t
    /\ outcome (nlpd_halves echo_pyramid zero_filters unit_sigmas
                  bright_dark bright_dark) = inr t'
    /\ data t [] <> data t' [].
Proof.
  destruct nlpd_of_bright_dark as (t & t' & Ht & Htd & Ht' & Htd').
  exists t, t'. split; [exact Ht |]. split; [exact Ht' |].
  rewrite Htd, Htd'. pose proof sqrt_above_one. lra.
Qed.

(** C7, as stated, fails on a batch of more than one image: with the
    stand-in pyramid, [nlpd] of the batch of a bright and a dark pixel
    with itself is more than 1, not [1e-5]. *)
Lemma nlpd_of_a_batch_with_itself :
  exists t,
    outcome (nlpd echo_pyramid zero_filters unit_sigmas
               bright_dark bright_dark) = inr t
    /\ 1 <= data t [] /\ data t [] <> 1e-5.
Proof.
  destruct nlpd_of_bright_dark as (t & _ & Ht & Htd & _).
  exists t. split; [exact Ht |]. rewrite Htd.
  pose proof sqrt_above_one. split; lra.
Qed.

Section Amended.

Variable Laplacian_Pyramid_analysis : nat -> tensor -> M (list tensor).
Variables spatialpooling_filters sigmas : tensor.
Hypothesis Hfilters : shape spatialpooling_filters = [6; 5; 5]%nat.
Hypothesis Hsigmas : shape sigmas = [6%nat].

(** C5, amended.  For two single images of one channel (batch size
    1), six 5 by 5 pooling filters and six sigmas, whenever the
    pyramid hands back six scales for the concatenated batch: the
    normalized pyramid has six scales; entry 0 of each is the half of
    [IM_1] and entry 1 the half of [IM_2]; [nlpd] returns the mean
    over the six scales of [sqrt(mean((y_i[0] - y_i[1])^2) + 1e-10)];
    and that is the value of the split into halves. *)
Theorem nlpd_of_single_images (IM_1 IM_2 both : tensor) (h w : nat)
    (acts : list tensor) :
  shape IM_1 = [1%nat; 1%nat; h; w] ->
  shape IM_2 = [1%nat; 1%nat; h; w] ->
  cat0 IM_1 IM_2 = inr both ->
  six_scales Laplacian_Pyramid_analysis both acts ->
  exists y t t',
    outcome (normalized_laplacian_pyramid Laplacian_Pyramid_analysis
               spatialpooling_filters sigmas both) = inr y
    /\ length y = 6%nat
    /\ (forall idx, data both (0%nat :: idx) = data IM_1 (0%nat :: idx))
    /\ (forall idx, data both (1%nat :: idx) = data IM_2 (0%nat :: idx))
    /\ outcome (nlpd Laplacian_Pyramid_analysis spatialpooling_filters
                  sigmas IM_1 IM_2) = inr t
    /\ data t [] = fold_right Rplus 0 (map (scale_rms 1e-10) y) / 6
    /\ outcome (nlpd_halves Laplacian_Pyramid_analysis
                  spatialpooling_filters sigmas IM_1 IM_2) = inr t'
    /\ data t' [] = data t [].
Proof.
  intros H1 H2 Hcat Hpyr.
  destruct (nlpd_returns _ _ _ Hfilters Hsigmas IM_1 IM_2 1 1 h w both
              acts H1 H2 ltac:(lia) Hcat Hpyr)
    as (y & t & Hy & Hlen & Hys & Ht & Htd).
  destruct (nlpd_halves_returns Laplacian_Pyramid_analysis
              spatialpooling_filters sigmas IM_1 IM_2 1 h w y both
              H1 H2 Hcat Hy Hlen) as (t' & Ht' & Htd').
  { intros i yi Hyi.
    destruct (Hys i yi Hyi) as (act & hi & wi & _ & _ & Hsy & _).
    eexists _, _. split; [exact Hsy | lia]. }
  exists y, t, t'. split; [exact Hy |]. split; [exact Hlen |].
  rewrite (cat0_ok _ _ _ _ _ H1 H2) in Hcat. inversion Hcat.
  split; [reflexivity |]. split; [reflexivity |].
  split; [exact Ht |]. split; [exact Htd |]. split; [exact Ht' |].
  rewrite Htd', Htd. f_equal. f_equal. apply map_ext.
  intros yi. apply halves_rms_one.
Qed.

(** C7, amended.  For a single image of one channel (batch size 1),
    sigmas that are positive and pooling filters without a negative
    entry, whenever the pyramid hands back six scales for the image
    concatenated with itself and treats two equal entries of a batch
    equally: no divisor of the normalization is zero, the two entries
    of every normalized scale are equal, and [nlpd] of the image with
    itself returns [1e-5], the root of [1e-10]. *)
Theorem nlpd_of_identical_images (IM both : tensor) (h w : nat)
    (acts : list tensor) :
  shape IM = [1%nat; 1%nat; h; w] ->
  cat0 IM IM = inr both ->
  six_scales Laplacian_Pyramid_analysis both acts ->
  (forall im acts', outcome (Laplacian_Pyramid_analysis 6 im) = inr acts' ->
     same_entries im 0 1 ->
     forall i act, acts' !! i = Some act -> same_entries act 0 1) ->
  (forall i, (i < 6)%nat -> 0 < data sigmas [i]) ->
  (forall idx, 0 <= data spatialpooling_filters idx) ->
  (forall i act b x z, acts !! i = Some act ->
     0 < data sigmas [i] + pooled spatialpooling_filters act i b x z)
  /\ exists y t,
       outcome (normalized_laplacian_pyramid Laplacian_Pyramid_analysis
                  spatialpooling_filters sigmas both) = inr y
       /\ (forall i yi idx, y !! i = Some yi ->
             Forall2 lt idx (tail (shape yi)) ->
             data yi (0%nat :: idx) - data yi (1%nat :: idx) = 0)
       /\ outcome (nlpd Laplacian_Pyramid_analysis spatialpooling_filters
                     sigmas IM IM) = inr t
       /\ data t [] = 1e-5.
Proof.
  intros H1 Hcat Hpyr Hbatch Hsig Hfil. split.
  { intros i act b x z Hact.
    assert (Hi : (i < 6)%nat).
    { destruct Hpyr as (_ & Hlen & _).
      apply lookup_lt_Some in Hact. lia. }
    pose proof (Hsig i Hi).
    pose proof (pooled_nonneg spatialpooling_filters act i b x z Hfil).
    lra. }
  destruct (nlpd_returns _ _ _ Hfilters Hsigmas IM IM 1 1 h w both
              acts H1 H1 ltac:(lia) Hcat Hpyr)
    as (y & t & Hy & Hlen & Hys & Ht & Htd).
  assert (Hsame : same_entries both 0 1).
  { rewrite (cat0_ok _ _ _ _ _ H1 H1) in Hcat. inversion Hcat.
    intros idx. reflexivity. }
  assert (Hzero : forall i yi idx, y !! i = Some yi ->
            Forall2 lt idx (tail (shape yi)) ->
            data yi (0%nat :: idx) - data yi (1%nat :: idx) = 0).
  { intros i yi idx Hyi Hidx.
    destruct (Hys i yi Hyi)
      as (act & hi & wi & Hact & Hsa & Hsy & Hhi & Hwi & Hd).
    rewrite Hsy in Hidx. cbn [tail] in Hidx.
    inversion Hidx as [| c d1 r1 r1' Hc Hr]; subst.
    inversion Hr as [| x d2 r2 r2' Hx Hr']; subst.
    inversion Hr' as [| z d3 r3 r3' Hz Hr'']; subst.
    inversion Hr''; subst.
    assert (c = 0%nat) as -> by lia.
    rewrite !Hd by (assumption || lia).
    destruct Hpyr as (Hout & _ & _).
    pose proof (Hbatch both acts Hout Hsame i act Hact) as Hact01.
    rewrite (pooled_same_entries _ _ _ 0 1 _ _ Hact01).
    rewrite (Hact01 [0%nat; x; z]). ring. }
  exists y, t. split; [exact Hy |]. split; [exact Hzero |].
  split; [exact Ht |].
  assert (Hall : Forall (fun yi => scale_rms 1e-10 yi = 1e-5) y).
  { apply Forall_lookup. intros i yi Hyi.
    unfold scale_rms.
    rewrite (sum_over_ext _ _ (fun _ => 0)).
    - rewrite sum_over_zero. unfold Rdiv. rewrite Rmult_0_l, Rplus_0_l.
      apply sqrt_epsilon.
    - intros idx Hidx. rewrite (Hzero i yi idx Hyi Hidx). ring. }
  rewrite Htd, (sum_of_equal_terms _ _ _ Hall), Hlen.
  replace (INR 6) with 6 by (simpl; lra). lra.
Qed.

End Amended.

Lemma nlpd_of_single_images_witness :
  exists t,
    outcome (nlpd echo_pyramid zero_filters unit_sigmas one_pixel one_pixel)
    = inr t.
Proof.
  pose proof (cat0_ok one_pixel one_pixel 1 1 [1; 1; 1]%nat
                eq_refl eq_refl) as Hcat.
  set (both := mkTensor _ _) in Hcat.
  destruct (nlpd_of_single_images echo_pyramid zero_filters unit_sigmas
              eq_refl eq_refl one_pixel one_pixel both 1 1
              (replicate 6 both) eq_refl eq_refl Hcat
              (echo_six_scales both 2 1 1 eq_refl ltac:(lia) ltac:(lia)))
    as (y & t & t' & _ & _ & _ & _ & Ht & _).
  exists t. exact Ht.
Defined.

Lemma nlpd_of_identical_images_witness :
  exists t,
    outcome (nlpd echo_pyramid zero_filters unit_sigmas one_pixel one_pixel)
    = inr t
    /\ data t [] = 1e-5.
Proof.
  pose proof (cat0_ok one_pixel one_pixel 1 1 [1; 1; 1]%nat
                eq_refl eq_refl) as Hcat.
  set (both := mkTensor _ _) in Hcat.
  destruct (nlpd_of_identical_images echo_pyramid zero_filters unit_sigmas
              eq_refl eq_refl one_pixel both 1 1 (replicate 6 both)
              eq_refl Hcat
              (echo_six_scales both 2 1 1 eq_refl ltac:(lia) ltac:(lia)))
    as (_ & y & t & _ & _ & Ht & Htd).
  - intros im acts' Hout Hsame i act Hact.
    assert (acts' = replicate 6 im) as -> by (inversion Hout; reflexivity).
    apply lookup_replicate in Hact. destruct Hact as [-> _]. exact Hsame.
  - intros i _. unfold unit_sigmas. cbn [data]. lra.
  - intros idx. unfold zero_filters, zeros. cbn [data]. lra.
  - exists t. split; [exact Ht | exact Htd].
Defined.

End ClaimsNlpd.

(** ** [Synthesis.load] *)

Section LoadFacts.
Import Torch synthesis.

Variable files : string -> option (list (string * value)).
Variable rand : nat -> list nat -> tensor.
Variable py_ne : value -> value -> load_exn + bool.

Lemma dict_get_state d k (s : attrs) : (dict_get d k s).2 = s.
Proof.
  induction d as [| [k' v] d IH]; cbn [dict_get]; [reflexivity |].
  destruct (decide (k' = k)); [reflexivity | exact IH].
Qed.

(** A check of an attribute reads [self] and leaves it as it is,
    whether it raises or not. *)
Lemma check_attribute_state tmp_dict k (s : attrs) :
  (check_attribute py_ne tmp_dict k s).2 = s.
Proof.
  unfold check_attribute, mbind, St_bind, hasattr, getattr, throw, mret,
    St_ret.
  destruct (bool_decide (is_Some (s !! k))); cbn [negb]; [| reflexivity].
  destruct (s !! k) as [[dev t | id f | sh | r] |]; try reflexivity;
    pose proof (dict_get_state tmp_dict k s) as Hd;
    destruct (dict_get tmp_dict k s) as [[e | saved] s']; cbn [snd] in Hd;
    subst s'; try reflexivity.
  - destruct saved; try reflexivity.
    destruct (allclose t t0 5e-2) as [[|] |]; reflexivity.
  - destruct (py_ne _ saved) as [e | []]; reflexivity.
  - destruct (py_ne _ saved) as [e | []]; reflexivity.
  - destruct (py_ne _ saved) as [e | []]; reflexivity.
Qed.

(** So does the check of a loss function. *)
Lemma check_loss_function_state tmp_dict device n k (s : attrs) :
  (check_loss_function rand tmp_dict device n k s).2 = s.
Proof.
  unfold check_loss_function, mbind, St_bind, getattr, throw, mret, St_ret.
  destruct (s !! "_signal_shape") as [[dev t | id f | sh | r] |];
    try reflexivity.
  destruct device as [dev |]; [| reflexivity].
  pose proof (dict_get_state tmp_dict k s) as Hd.
  destruct (dict_get tmp_dict k s) as [[e | saved] s']; cbn [snd] in Hd;
    subst s'; [reflexivity |].
  destruct saved as [? ? | id f | ? | ?]; try reflexivity.
  destruct (s !! k) as [[? ? | id' g | ? | ?] |]; try reflexivity.
  match goal with
  | |- context [allclose ?a ?b ?r] => destruct (allclose a b r) as [[|] |]
  end; reflexivity.
Qed.

Lemma for_each_state {A : Type} (body : nat -> A -> St unit) :
  (forall n x (s : attrs), (body n x s).2 = s) ->
  forall l n (s : attrs), (for_each body n l s).2 = s.
Proof.
  intros Hbody l. induction l as [| x l IH]; intros n s; cbn [for_each];
    [reflexivity |].
  unfold mbind, St_bind. specialize (Hbody n x s).
  destruct (body n x s) as [[e | []] s']; cbn [snd] in Hbody; subst s';
    [reflexivity | apply IH].
Qed.

(** What the last loop of [load] leaves behind. *)
Lemma assign_all_spec tmp_dict (s : attrs) :
  assign_all tmp_dict s
  = (inr tt, fold_left (fun m kv => <[kv.1 := kv.2]> m) tmp_dict s).
Proof.
  unfold assign_all. generalize 0%nat.
  revert s. induction tmp_dict as [| kv d IH]; intros s n;
    cbn [for_each fold_left]; [reflexivity |].
  unfold mbind, St_bind, setattr. apply IH.
Qed.

(** [load] either raises with [self] as it was, or passes every check
    on the unchanged [self] and then assigns. *)
Lemma load_cases file_path map_location check_attributes
    check_loss_functions (self : attrs) :
  (exists e, load files rand py_ne file_path map_location check_attributes
               check_loss_functions self = (inl e, self))
  \/ (exists tmp_dict device,
        torch_load files file_path map_location self = (inr tmp_dict, self)
        /\ for_each (fun _ k => check_attribute py_ne tmp_dict k) 0
             check_attributes self = (inr tt, self)
        /\ for_each (fun n k => check_loss_function rand tmp_dict device
                                  n k) 0 check_loss_functions self
           = (inr tt, self)
        /\ load files rand py_ne file_path map_location check_attributes
             check_loss_functions self
           = (inr tt, fold_left (fun m kv => <[kv.1 := kv.2]> m)
                        tmp_dict self)).
Proof.
  unfold load, torch_load.
  destruct (files file_path) as [d |];
    [| left; exists FileNotFound; reflexivity].
  unfold mbind at 1, St_bind at 1. unfold mret at 1, St_ret at 1.
  set (tmp_dict := match map_location with
                   | Some dev => _
                   | None => d
                   end).
  unfold mbind, St_bind, mret, St_ret. cbv beta iota.
  set (device := match map_location with
                 | Some d0 => Some d0
                 | None => first_device (map snd tmp_dict)
                 end).
  pose proof (for_each_state (fun _ k => check_attribute py_ne tmp_dict k)
                (fun _ k s => check_attribute_state tmp_dict k s)
                check_attributes 0 self) as Ha.
  destruct (for_each (fun _ k => check_attribute py_ne tmp_dict k) 0
              check_attributes self) as [[e | []] s1] eqn:Ea;
    cbn [snd] in Ha; subst s1; [left; exists e; reflexivity |].
  pose proof (for_each_state
                (fun n k => check_loss_function rand tmp_dict device n k)
                (fun n k s => check_loss_function_state tmp_dict
                                device n k s)
                check_loss_functions 0 self) as Hl.
  destruct (for_each (fun n k => check_loss_function rand tmp_dict device
                                   n k) 0 check_loss_functions self)
    as [[e | []] s2] eqn:El; cbn [snd] in Hl; subst s2;
    [left; exists e; reflexivity |].
  right. exists tmp_dict, device.
  split; [reflexivity |]. split; [exact Ea |]. split; [exact El |].
  apply assign_all_spec.
Qed.

End LoadFacts.

Section ClaimsLoad.
Import Torch synthesis examples.

(** C9. Whatever [load] is called with, if it raises, be it in
    [torch.load], in a check of an attribute or in a check of a loss
    function, the attributes of the object are those it had before the
    call; and if it returns, every check has passed on the unchanged
    object and the attributes are those of before with every item of
    the loaded dictionary assigned, in the order of the items. *)
Theorem load_is_atomic
    (files : string -> option (list (string * value)))
    (rand : nat -> list nat -> tensor)
    (py_ne : value -> value -> load_exn + bool)
    (file_path : string) (map_location : option string)
    (check_attributes check_loss_functions : list string) (self : attrs) :
  let call := load files rand py_ne file_path map_location check_attributes
                check_loss_functions self in
  (forall e, call.1 = inl e -> call.2 = self)
  /\ (forall u, call.1 = inr u ->
        exists tmp_dict device,
          torch_load files file_path map_location self
          = (inr tmp_dict, self)
          /\ for_each (fun _ k => check_attribute py_ne tmp_dict k) 0
               check_attributes self = (inr tt, self)
          /\ for_each (fun n k => check_loss_function rand tmp_dict device
                                    n k) 0 check_loss_functions self
             = (inr tt, self)
          /\ call.2 = fold_left (fun m kv => <[kv.1 := kv.2]> m)
                        tmp_dict self).
Proof.
  intros call.
  destruct (load_cases files rand py_ne file_path map_location check_attributes
              check_loss_functions self)
    as [(e & He) | (tmp_dict & device & Hload & Ha & Hl & Hcall)];
    subst call.
  - rewrite He. split; [intros; reflexivity | intros u H; discriminate H].
  - rewrite Hcall. split; [intros e H; discriminate H |].
    intros u _. exists tmp_dict, device.
    split; [exact Hload |]. split; [exact Ha |]. split; [exact Hl |].
    reflexivity.
Qed.

Lemma load_is_atomic_witness :
  (load saved_run (fun _ s => zeros s) repr_ne "run.pt" None ["scale"] []
     fresh_object).1 = inl (Different "scale")
  /\ (load saved_run (fun _ s => zeros s) repr_ne "run.pt" None ["scale"] []
        fresh_object).2 = fresh_object.
Proof.
  assert (H : (load saved_run (fun _ s => zeros s) repr_ne "run.pt" None
                 ["scale"] [] fresh_object).1 = inl (Different "scale")).
  { vm_compute. reflexivity. }
  split; [exact H |].
  exact (proj1 (load_is_atomic saved_run (fun _ s => zeros s) repr_ne "run.pt"
                  None ["scale"] [] fresh_object) _ H).
Defined.

End ClaimsLoad.
(** ** More on the window *)

Section WindowProfile.
Import Torch perceptual_distance stats.
Local Open Scope R_scope.

Lemma exp_nonpos_le_1 a : a <= 0 -> exp a <= 1.
Proof.
  intros [Hlt | ->]; [| rewrite exp_0; lra].
  left. rewrite <- exp_0. apply exp_increasing. exact Hlt.
Qed.

Lemma exp_eq_1 a : exp a = 1 -> a = 0.
Proof.
  intros H. destruct (Rtotal_order a 0) as [Hlt | [Heq | Hgt]];
    [| exact Heq |].
  - apply exp_increasing in Hlt. rewrite exp_0 in Hlt. lra.
  - apply exp_increasing in Hgt. rewrite exp_0 in Hgt. lra.
Qed.

Lemma gaussian_exponent (sigma d : R) :
  sigma <> 0 -> (- d ^ 2) / (2 * sigma ^ 2) = - (d ^ 2 / (2 * sigma ^ 2)).
Proof. intros Hs. field. exact Hs. Qed.

(** [_gaussian(window_size, sigma)] is not normalized: it has
    [window_size] entries, all in [(0, 1]]; the entry at
    [window_size // 2] is 1 and no other is; the entries mirror each
    other about that index and grow strictly up to it. *)
Theorem gaussian_profile (window_size : nat) (sigma : R) :
  sigma <> 0 ->
  let g := _gaussian window_size sigma in
  let mu := (window_size / 2)%nat in
  shape g = [window_size]
  /\ (forall x, 0 < data g [x] <= 1)
  /\ (forall x, data g [x] = 1 <-> x = mu)
  /\ (forall x, (x <= 2 * mu)%nat -> data g [(2 * mu - x)%nat] = data g [x])
  /\ (forall x y, (x < y)%nat -> (y <= mu)%nat -> data g [x] < data g [y]).
Proof.
  intros Hs g mu. subst g. unfold _gaussian. cbn [shape data]. fold mu.
  assert (Hden : 0 < 2 * sigma ^ 2).
  { assert (0 < sigma ^ 2) by (apply square_pos; exact Hs). lra. }
  split; [reflexivity |]. split; [| split; [| split]].
  - intros x. split; [apply exp_pos |].
    apply exp_nonpos_le_1. rewrite gaussian_exponent by exact Hs.
    assert (0 <= (INR x - INR mu) ^ 2 / (2 * sigma ^ 2)).
    { apply Rmult_le_pos; [apply pow2_ge_0 |].
      left. apply Rinv_0_lt_compat. exact Hden. }
    lra.
  - intros x. split.
    + intros H. apply exp_eq_1 in H.
      rewrite gaussian_exponent in H by exact Hs.
      assert (Hd : (INR x - INR mu) ^ 2 = 0).
      { apply (Rmult_eq_reg_r (/ (2 * sigma ^ 2)));
          [unfold Rdiv in H; lra |].
        apply Rinv_neq_0_compat. lra. }
      assert (Hx : INR x - INR mu = 0).
      { destruct (Req_dec (INR x - INR mu) 0) as [E | E]; [exact E |].
        apply square_pos in E. lra. }
      apply INR_eq. lra.
    + intros ->. replace (INR mu - INR mu) with 0 by ring.
      rewrite <- exp_0 at 1. f_equal. field. exact Hs.
  - intros x Hx. f_equal. f_equal. f_equal.
    rewrite minus_INR by exact Hx. rewrite mult_INR. simpl INR. ring.
  - intros x y Hxy Hy. apply exp_increasing.
    rewrite !gaussian_exponent by exact Hs.
    apply Ropp_lt_contravar.
    unfold Rdiv. apply Rmult_lt_compat_r;
      [apply Rinv_0_lt_compat; exact Hden |].
    assert (Hxy' : INR x < INR y) by (apply lt_INR; exact Hxy).
    assert (Hy' : INR y <= INR mu) by (apply le_INR; exact Hy).
    nra.
Qed.

Lemma gaussian_profile_witness :
  shape (_gaussian 11 1.5) = [11%nat]
  /\ data (_gaussian 11 1.5) [5%nat] = 1.
Proof.
  destruct (gaussian_profile 11 1.5 ltac:(lra)) as (Hshape & _ & Hpeak & _).
  split; [exact Hshape | apply Hpeak; reflexivity].
Defined.

End WindowProfile.
Section WindowChannels.
Import Torch perceptual_distance stats.
Local Open Scope R_scope.

Lemma window_value_sym s a b : window_value s a b = window_value s b a.
Proof. unfold window_value. f_equal. ring. Qed.

(** [create_window] returns for every size and channel count, without a
    warning; all channels of the window carry one and the same slice,
    which is symmetric under transposition and has no entry that is zero
    or negative. *)
Theorem create_window_channels (window_size n_channels : nat) :
  exists window,
    create_window window_size n_channels = ([], inr window)
    /\ shape window = [n_channels; 1%nat; window_size; window_size]
    /\ forall ch ch' a b,
         (ch < n_channels)%nat -> (ch' < n_channels)%nat ->
         (a < window_size)%nat -> (b < window_size)%nat ->
         data window [ch; 0%nat; a; b] = data window [ch'; 0%nat; a; b]
         /\ data window [ch; 0%nat; a; b] = data window [ch; 0%nat; b; a]
         /\ 0 < data window [ch; 0%nat; a; b].
Proof.
  destruct (create_window_spec window_size n_channels)
    as (W & Heq & Hs & Hd).
  exists W. split; [exact Heq |]. split; [exact Hs |].
  intros ch ch' a b Hch Hch' Ha Hb.
  rewrite !Hd by assumption.
  split; [reflexivity |]. split; [apply window_value_sym |].
  apply window_value_pos. lia.
Qed.

End WindowChannels.

(** ** The advisory on the dynamic range *)

Section RangeAdvisory.
Import Torch perceptual_distance stats ranges examples.
Local Open Scope R_scope.

Lemma fold_left_Rmin_spec xs x :
  (fold_left Rmin xs x <= x
   /\ forall y, In y xs -> fold_left Rmin xs x <= y)
  /\ In (fold_left Rmin xs x) (x :: xs).
Proof.
  revert x. induction xs as [| z xs IH]; intros x; cbn [fold_left].
  - split; [split; [lra | intros y []] | left; reflexivity].
  - destruct (IH (Rmin x z)) as [[Hle Hall] Hin].
    pose proof (Rmin_l x z). pose proof (Rmin_r x z).
    split; [split |].
    + lra.
    + intros y [<- | Hy]; [lra | apply Hall; exact Hy].
    + destruct Hin as [Hin | Hin]; [| right; right; exact Hin].
      rewrite <- Hin. unfold Rmin. destruct (Rle_dec x z);
        [left; reflexivity | right; left; reflexivity].
Qed.

Lemma fold_left_Rmax_spec xs x :
  (x <= fold_left Rmax xs x
   /\ forall y, In y xs -> y <= fold_left Rmax xs x)
  /\ In (fold_left Rmax xs x) (x :: xs).
Proof.
  revert x. induction xs as [| z xs IH]; intros x; cbn [fold_left].
  - split; [split; [lra | intros y []] | left; reflexivity].
  - destruct (IH (Rmax x z)) as [[Hle Hall] Hin].
    pose proof (Rmax_l x z). pose proof (Rmax_r x z).
    split; [split |].
    + lra.
    + intros y [<- | Hy]; [lra | apply Hall; exact Hy].
    + destruct Hin as [Hin | Hin]; [| right; right; exact Hin].
      rewrite <- Hin. unfold Rmax. destruct (Rle_dec x z);
        [right; left; reflexivity | left; reflexivity].
Qed.

(** [t.min()] is an entry of [t] that no entry is below. *)
Lemma tmin_spec t r :
  tmin t = inr r ->
  (forall idx, Forall2 lt idx (shape t) -> r <= data t idx)
  /\ exists idx, Forall2 lt idx (shape t) /\ data t idx = r.
Proof.
  unfold tmin. intros H.
  destruct (map (data t) (indices (shape t))) as [| x xs] eqn:E;
    [discriminate |].
  assert (r = fold_left Rmin xs x) as -> by congruence.
  destruct (fold_left_Rmin_spec xs x) as [[Hx Hxs] Hin].
  split.
  - intros idx Hidx. apply indices_complete in Hidx.
    apply (in_map (data t)) in Hidx. rewrite E in Hidx.
    destruct Hidx as [<- | Hidx]; [exact Hx | apply Hxs; exact Hidx].
  - rewrite <- E in Hin. apply in_map_iff in Hin.
    destruct Hin as (idx & Hd & Hidx). exists idx.
    split; [apply indices_range; exact Hidx | exact Hd].
Qed.

Lemma tmax_spec t r :
  tmax t = inr r ->
  (forall idx, Forall2 lt idx (shape t) -> data t idx <= r)
  /\ exists idx, Forall2 lt idx (shape t) /\ data t idx = r.
Proof.
  unfold tmax. intros H.
  destruct (map (data t) (indices (shape t))) as [| x xs] eqn:E;
    [discriminate |].
  assert (r = fold_left Rmax xs x) as -> by congruence.
  destruct (fold_left_Rmax_spec xs x) as [[Hx Hxs] Hin].
  split.
  - intros idx Hidx. apply indices_complete in Hidx.
    apply (in_map (data t)) in Hidx. rewrite E in Hidx.
    destruct Hidx as [<- | Hidx]; [exact Hx | apply Hxs; exact Hidx].
  - rewrite <- E in Hin. apply in_map_iff in Hin.
    destruct Hin as (idx & Hd & Hidx). exists idx.
    split; [apply indices_range; exact Hidx | exact Hd].
Qed.

Lemma Rgtb_true x y : Rgtb x y = true <-> y < x.
Proof. unfold Rgtb. destruct (Rlt_dec y x); split; (congruence || tauto). Qed.

Lemma Rltb_true x y : Rltb x y = true <-> x < y.
Proof. unfold Rltb. destruct (Rlt_dec x y); split; (congruence || tauto). Qed.

(** The test of the advisory: none of the four extremes is above [hi] or
    below [lo] exactly when both images lie within [[lo, hi]]. *)
Lemma extremes_within img1 img2 min1 max1 min2 max2 lo hi :
  tmin img1 = inr min1 -> tmax img1 = inr max1 ->
  tmin img2 = inr min2 -> tmax img2 = inr max2 ->
  existsb (fun x => Rgtb x hi) [min1; max1; min2; max2]
  || existsb (fun x => Rltb x lo) [min1; max1; min2; max2] = false
  <-> within img1 lo hi /\ within img2 lo hi.
Proof.
  intros Hmin1 Hmax1 Hmin2 Hmax2.
  destruct (tmin_spec _ _ Hmin1) as [Hlo1 (i1 & Hi1 & Hd1)].
  destruct (tmax_spec _ _ Hmax1) as [Hhi1 (j1 & Hj1 & He1)].
  destruct (tmin_spec _ _ Hmin2) as [Hlo2 (i2 & Hi2 & Hd2)].
  destruct (tmax_spec _ _ Hmax2) as [Hhi2 (j2 & Hj2 & He2)].
  cbn [existsb]. rewrite !orb_false_r, orb_false_iff, !orb_false_iff.
  unfold within. split.
  - intros [(G1 & G2 & G3 & G4) (L1 & L2 & L3 & L4)].
    assert (~ hi < max1) by (rewrite <- Rgtb_true; congruence).
    assert (~ hi < max2) by (rewrite <- Rgtb_true; congruence).
    assert (~ min1 < lo) by (rewrite <- Rltb_true; congruence).
    assert (~ min2 < lo) by (rewrite <- Rltb_true; congruence).
    split; intros idx Hidx.
    + specialize (Hlo1 idx Hidx). specialize (Hhi1 idx Hidx). lra.
    + specialize (Hlo2 idx Hidx). specialize (Hhi2 idx Hidx). lra.
  - intros [W1 W2].
    pose proof (W1 i1 Hi1). pose proof (W1 j1 Hj1).
    pose proof (W2 i2 Hi2). pose proof (W2 j2 Hj2).
    assert (F : forall b, b <> true -> b = false)
      by (intros []; congruence).
    repeat split; apply F; rewrite ?Rgtb_true, ?Rltb_true; lra.
Qed.

(** On two images that have elements, the advisory of [_ssim_parts]
    never raises and emits at most one warning, which carries the
    declared range and the extremes of the two images.  It is silent
    exactly when the dynamic range is none of 1, 2 and 255, or both
    images lie within the range that goes with it: [[0, 1]], [[-1, 1]]
    and [[0, 255]]. *)
Theorem range_advisory (img1 img2 : tensor) (dynamic_range : Z) :
  Forall (lt 0) (shape img1) -> Forall (lt 0) (shape img2) ->
  exists min1 max1 min2 max2,
    tmin img1 = inr min1 /\ tmax img1 = inr max1
    /\ tmin img2 = inr min2 /\ tmax img2 = inr max2
    /\ outcome (check_range img1 img2 dynamic_range) = inr tt
    /\ (warnings (check_range img1 img2 dynamic_range) = []
        \/ warnings (check_range img1 img2 dynamic_range)
           = [RangeWarning dynamic_range (min1, max1) (min2, max2)])
    /\ (warnings (check_range img1 img2 dynamic_range) = []
        <-> match declared_range dynamic_range with
            | Some (lo, hi) => within img1 lo hi /\ within img2 lo hi
            | None => True
            end).
Proof.
  intros H1 H2.
  destruct (tmin_ok _ H1) as (min1 & Hmin1), (tmax_ok _ H1) as (max1 & Hmax1),
    (tmin_ok _ H2) as (min2 & Hmin2), (tmax_ok _ H2) as (max2 & Hmax2).
  exists min1, max1, min2, max2.
  repeat (split; [assumption |]).
  split; [apply check_range_returns; assumption |].
  pose proof (extremes_within img1 img2 min1 max1 min2 max2 0 1
                Hmin1 Hmax1 Hmin2 Hmax2) as E1.
  pose proof (extremes_within img1 img2 min1 max1 min2 max2 (-1) 1
                Hmin1 Hmax1 Hmin2 Hmax2) as E2.
  pose proof (extremes_within img1 img2 min1 max1 min2 max2 0 255
                Hmin1 Hmax1 Hmin2 Hmax2) as E3.
  unfold check_range, declared_range.
  rewrite Hmin1, Hmax1, Hmin2, Hmax2, !bind_lift_inr.
  destruct (dynamic_range =? 1)%Z; [| destruct (dynamic_range =? 2)%Z;
    [| destruct (dynamic_range =? 255)%Z]].
  - clear E2 E3. destruct (_ || _) eqn:E.
    + split; [right; reflexivity |]. split; [discriminate |].
      intros Hw. apply E1 in Hw. congruence.
    + split; [left; reflexivity |]. split; [| reflexivity].
      intros _. apply E1. reflexivity.
  - clear E1 E3. destruct (_ || _) eqn:E.
    + split; [right; reflexivity |]. split; [discriminate |].
      intros Hw. apply E2 in Hw. congruence.
    + split; [left; reflexivity |]. split; [| reflexivity].
      intros _. apply E2. reflexivity.
  - clear E1 E2. destruct (_ || _) eqn:E.
    + split; [right; reflexivity |]. split; [discriminate |].
      intros Hw. apply E3 in Hw. congruence.
    + split; [left; reflexivity |]. split; [| reflexivity].
      intros _. apply E3. reflexivity.
  - split; [left; reflexivity |]. split; [intros _; exact I | reflexivity].
Qed.

Lemma range_advisory_witness :
  warnings (check_range spot_a spot_b 1) = [].
Proof.
  destruct (range_advisory spot_a spot_b 1)
    as (min1 & max1 & min2 & max2 & _ & _ & _ & _ & _ & _ & Hiff).
  - repeat constructor.
  - repeat constructor.
  - apply Hiff. cbn [declared_range Z.eqb Pos.eqb].
    split; intros idx _; [unfold spot_a | unfold spot_b]; cbn [data];
      repeat match goal with
             | |- context [match ?x with _ => _ end] => destruct x
             end; lra.
Defined.

End RangeAdvisory.

(** ** What [ssim] warns about *)

Section SsimWarnings.
Import Torch perceptual_distance stats examples.
Local Open Scope R_scope.

Lemma warnings_bind {A B : Type} (m : M A) (f : A -> M B) :
  warnings (m ≫= f)
  = warnings m ++ match outcome m with
                  | inr a => warnings (f a)
                  | inl _ => []
                  end.
Proof.
  destruct m as [ws [e | a]]; unfold mbind, M_bind, warnings, outcome;
    cbn [fst snd].
  - rewrite app_nil_r. reflexivity.
  - destruct (f a). reflexivity.
Qed.

Lemma silent_bind {A B : Type} (m : M A) (f : A -> M B) :
  warnings m = [] -> (forall a, warnings (f a) = []) ->
  warnings (m ≫= f) = [].
Proof.
  intros Hm Hf. rewrite warnings_bind, Hm.
  destruct (outcome m); [reflexivity | apply Hf].
Qed.

Lemma app_silent (l k : list warning) : k = [] -> l ++ k = l.
Proof. intros ->. apply app_nil_r. Qed.

Local Ltac silence :=
  repeat (apply silent_bind; [reflexivity | intros ?]); try reflexivity.

Lemma ssim_maps_silent img1 img2 window padd n_channels dr :
  warnings (ssim_maps img1 img2 window padd n_channels dr) = [].
Proof. unfold ssim_maps. silence. Qed.

Lemma check_shapes_warnings img1 img2 B1 C h w :
  shape img1 = [B1; C; h; w] ->
  warnings (check_shapes img1 img2)
  = if (1 <? C)%nat then [MultiChannelWarning] else [].
Proof.
  intros H1. unfold check_shapes. rewrite H1.
  rewrite warnings_bind.
  destruct (1 <? C)%nat; cbn [warnings outcome warn mret M_ret fst snd app];
    repeat match goal with
           | |- context [decide ?P] => destruct (decide P)
           | |- context [match shape img2 with _ => _ end] =>
               destruct (shape img2)
           end; reflexivity.
Qed.

Lemma check_shapes_returns img1 img2 B1 C h w r :
  shape img1 = [B1; C; h; w] ->
  outcome (check_shapes img1 img2) = inr r -> r = (C, h, w).
Proof.
  intros H1. unfold check_shapes. rewrite H1.
  assert (Hw : outcome (if (1 <? C)%nat then warn MultiChannelWarning
                        else mret tt) = inr tt)
    by (destruct (1 <? C)%nat; reflexivity).
  rewrite (outcome_bind_inr _ _ _ Hw).
  repeat match goal with
         | |- context [decide ?P] => destruct (decide P)
         | |- context [match shape img2 with _ => _ end] =>
             destruct (shape img2)
         end; cbn; congruence.
Qed.

Lemma ssim_parts_warnings img1 img2 B1 C h w dr :
  shape img1 = [B1; C; h; w] ->
  Forall (lt 0) (shape img1) -> Forall (lt 0) (shape img2) ->
  warnings (_ssim_parts img1 img2 dr)
  = warnings (check_range img1 img2 dr)
    ++ (if (1 <? C)%nat then [MultiChannelWarning] else []).
Proof.
  intros H1 Hne1 Hne2. unfold _ssim_parts.
  rewrite warnings_bind, (check_range_returns _ _ dr Hne1 Hne2).
  f_equal. rewrite warnings_bind, (check_shapes_warnings _ _ _ _ _ _ H1).
  apply app_silent.
  destruct (outcome (check_shapes img1 img2)) as [e | r] eqn:Hout;
    [reflexivity |].
  apply (check_shapes_returns _ _ _ _ _ _ _ H1) in Hout. subst r.
  rewrite H1 in Hne1.
  assert (Hs0 : (0 < Nat.min 11 (Nat.min h w))%nat).
  { inversion Hne1 as [| ? ? _ Hne1']. inversion Hne1' as [| ? ? _ Hne1''].
    inversion Hne1'' as [| ? ? Hh Hne1''']. inversion Hne1''' as [| ? ? Hw _].
    lia. }
  destruct (create_window_spec (Nat.min 11 (Nat.min h w)) C)
    as (W & HWeq & HWs & HWd).
  rewrite HWeq. change (@nil warning, @inr exn tensor W) with (lift (inr W)).
  rewrite bind_lift_inr.
  rewrite (window_passes_checks W C _ Hs0 HWs HWd).
  change (@nil warning, @inr exn tensor W) with (lift (inr W)).
  rewrite bind_lift_inr. apply ssim_maps_silent.
Qed.

(** On a 4d [img1] and an [img2] that both have elements, whatever
    else holds of them and whether [ssim] then raises or returns: what
    [ssim] and [ssim_map] warn about is, first, the advisory on the
    range, if any; then the warning on the channels, exactly when [img1]
    has more than one; and after these nothing, or at most the warning
    on the sum of the window. *)
Theorem ssim_warnings (img1 img2 : tensor) (B1 C h w : nat)
    (weighted : bool) (dynamic_range : Z) :
  shape img1 = [B1; C; h; w] ->
  Forall (lt 0) (shape img1) -> Forall (lt 0) (shape img2) ->
  exists rest,
    (rest = [] \/ rest = [WindowSumWarning])
    /\ warnings (ssim img1 img2 weighted dynamic_range)
       = warnings (check_range img1 img2 dynamic_range)
         ++ (if (1 <? C)%nat then [MultiChannelWarning] else []) ++ rest
    /\ warnings (ssim_map img1 img2 dynamic_range)
       = warnings (check_range img1 img2 dynamic_range)
         ++ (if (1 <? C)%nat then [MultiChannelWarning] else []) ++ rest.
Proof.
  intros H1 Hne1 Hne2.
  pose proof (ssim_parts_warnings img1 img2 B1 C h w dynamic_range
                H1 Hne1 Hne2) as Hparts.
  exists []. split; [left; reflexivity |]. rewrite !app_nil_r. split.
  - unfold ssim. rewrite warnings_bind, Hparts.
    apply app_silent.
    destruct (outcome (_ssim_parts img1 img2 dynamic_range))
      as [e | [[m cm] wt]]; [reflexivity |].
    destruct weighted; cbn [negb]; [silence | reflexivity].
  - unfold ssim_map. rewrite warnings_bind, Hparts.
    apply app_silent.
    destruct (outcome (_ssim_parts img1 img2 dynamic_range))
      as [e | [[m cm] wt]]; reflexivity.
Qed.

Lemma ssim_warnings_witness :
  exists rest,
    warnings (ssim spot_a spot_b false 1)
    = warnings (check_range spot_a spot_b 1) ++ [] ++ rest.
Proof.
  destruct (ssim_warnings spot_a spot_b 1 1 2 2 false 1 eq_refl
              ltac:(repeat constructor) ltac:(repeat constructor))
    as (rest & _ & Hssim & _).
  exists rest. exact Hssim.
Defined.

End SsimWarnings.

(** ** The window [_ssim_parts] builds *)

Section WindowOfSsimParts.
Import Torch perceptual_distance stats examples.
Local Open Scope R_scope.

Lemma outcome_bind_ext {A B : Type} (m : M A) (f g : A -> M B) :
  (forall a, outcome m = inr a -> outcome (f a) = outcome (g a)) ->
  outcome (m ≫= f) = outcome (m ≫= g).
Proof.
  intros H. destruct (outcome m) as [e | a] eqn:Hm.
  - rewrite !(outcome_bind_inl _ _ _ Hm). reflexivity.
  - rewrite !(outcome_bind_inr _ _ _ Hm). apply H. reflexivity.
Qed.

(** C8. For every call of [_ssim_parts] on a first image of [C >= 1]
    channels, height [h] and width [w], both positive: what the call
    raises or returns is what the two checks followed by the windowed
    statistics raise or return with the window
    [create_window(min(11, h, w), C)]; that window has shape
    [(C, 1, s, s)] with [s = min(11, h, w)]; its entry at [(a, b)] of any
    channel is [exp(-(a - s//2)^2 / (2 * 1.5^2))] times
    [exp(-(b - s//2)^2 / (2 * 1.5^2))] over the sum of all such
    products, so none is negative; and each channel sums to exactly
    1. *)
Theorem window_of_ssim_parts (img1 img2 : tensor) (B1 C h w : nat)
    (dynamic_range : Z) :
  shape img1 = [B1; C; h; w] -> (0 < C)%nat -> (0 < h)%nat -> (0 < w)%nat ->
  exists window,
    outcome (_ssim_parts img1 img2 dynamic_range)
    = outcome (_ ← check_range img1 img2 dynamic_range;
               _ ← check_shapes img1 img2;
               ssim_maps img1 img2 window 0 C dynamic_range)
    /\ create_window (Nat.min 11 (Nat.min h w)) C = ([], inr window)
    /\ shape window
       = [C; 1%nat; Nat.min 11 (Nat.min h w); Nat.min 11 (Nat.min h w)]
    /\ forall s, s = Nat.min 11 (Nat.min h w) ->
         (forall ch a b, (ch < C)%nat -> (a < s)%nat -> (b < s)%nat ->
            0 <= data window [ch; 0%nat; a; b]
            /\ data window [ch; 0%nat; a; b]
               = exp (- (INR a - INR (s / 2)) ^ 2 / (2 * 1.5 ^ 2))
                 * exp (- (INR b - INR (s / 2)) ^ 2 / (2 * 1.5 ^ 2))
                 / Rsum2 s s
                     (fun i j =>
                        exp (- (INR i - INR (s / 2)) ^ 2 / (2 * 1.5 ^ 2))
                        * exp (- (INR j - INR (s / 2)) ^ 2
                               / (2 * 1.5 ^ 2))))
         /\ (forall ch, (ch < C)%nat ->
               Rsum2 s s (fun a b => data window [ch; 0%nat; a; b]) = 1).
Proof.
  intros H1 HC Hh Hw.
  assert (Hs : (0 < Nat.min 11 (Nat.min h w))%nat) by lia.
  destruct (create_window_spec (Nat.min 11 (Nat.min h w)) C)
    as (W & HWeq & HWs & HWd).
  exists W. split; [| split; [exact HWeq | split; [exact HWs |]]].
  - unfold _ssim_parts. apply outcome_bind_ext. intros _ _.
    apply outcome_bind_ext. intros r Hr.
    apply (check_shapes_returns _ _ _ _ _ _ _ H1) in Hr. subst r.
    cbv beta iota zeta.
    rewrite HWeq.
    change (@nil warning, @inr exn tensor W) with (lift (inr W)).
    rewrite bind_lift_inr.
    rewrite (window_passes_checks W C _ Hs HWs HWd).
    change (@nil warning, @inr exn tensor W) with (lift (inr W)).
    rewrite bind_lift_inr. reflexivity.
  - intros s ->. split.
    + intros ch a b Hch Ha Hb. rewrite (HWd ch a b Hch Ha Hb). split.
      * apply Rlt_le, window_value_pos, Hs.
      * reflexivity.
    + intros ch Hch.
      rewrite (Rsum2_ext _ _ _ (window_value (Nat.min 11 (Nat.min h w))))
        by (intros; apply HWd; assumption).
      apply window_value_sum, Hs.
Qed.

Lemma window_of_ssim_parts_witness :
  exists window,
    outcome (_ssim_parts (zeros [1; 1; 12; 14]%nat)
               (zeros [1; 1; 12; 14]%nat) 1)
    = outcome (_ ← check_range (zeros [1; 1; 12; 14]%nat)
                     (zeros [1; 1; 12; 14]%nat) 1;
               _ ← check_shapes (zeros [1; 1; 12; 14]%nat)
                     (zeros [1; 1; 12; 14]%nat);
               ssim_maps (zeros [1; 1; 12; 14]%nat)
                 (zeros [1; 1; 12; 14]%nat) window 0 1 1)
    /\ shape window = [1; 1; 11; 11]%nat
    /\ Rsum2 11 11 (fun a b => data window [0; 0; a; b]%nat) = 1.
Proof.
  destruct (window_of_ssim_parts (zeros [1; 1; 12; 14]%nat)
              (zeros [1; 1; 12; 14]%nat) 1 1 12 14 1 eq_refl
              ltac:(lia) ltac:(lia) ltac:(lia))
    as (W & Hout & _ & Hshape & Hentries).
  exists W. split; [exact Hout |]. split; [exact Hshape |].
  destruct (Hentries 11%nat eq_refl) as [_ Hsum]. apply Hsum. lia.
Defined.

End WindowOfSsimParts.

(** ** Edges and ranges of [_ssim_parts], [ssim] and [ssim_map] *)

Section SsimEdges.
Import Torch perceptual_distance stats ranges examples.
Local Open Scope R_scope.

Lemma no_zero_positive (s : list nat) : ~ In 0%nat s -> Forall (lt 0) s.
Proof.
  induction s as [| d s IH]; intros H; constructor.
  - destruct d; [exfalso; apply H; left; reflexivity | lia].
  - apply IH. intros Hin. apply H. right. exact Hin.
Qed.

Lemma check_range_empty_second img1 img2 dr :
  Forall (lt 0) (shape img1) -> In 0%nat (shape img2) ->
  check_range img1 img2 dr = ([], inl EmptyReduction).
Proof.
  intros H1 H2. unfold check_range.
  destruct (tmin_ok _ H1) as (min1 & ->), (tmax_ok _ H1) as (max1 & ->).
  rewrite !bind_lift_inr, (tmin_empty _ H2). reflexivity.
Qed.

Lemma check_range_empty_first img1 img2 dr :
  In 0%nat (shape img1) ->
  check_range img1 img2 dr = ([], inl EmptyReduction).
Proof.
  intros H. unfold check_range. rewrite (tmin_empty _ H). reflexivity.
Qed.

(** An image without elements, in either place, makes [ssim] and
    [ssim_map] raise in the very first statement, where torch refuses
    to take the minimum; nothing is warned about, and no check of the
    shapes is reached. *)
Theorem ssim_of_empty_image (img1 img2 : tensor) (weighted : bool)
    (dynamic_range : Z) :
  In 0%nat (shape img1) \/ In 0%nat (shape img2) ->
  ssim img1 img2 weighted dynamic_range = ([], inl EmptyReduction)
  /\ ssim_map img1 img2 dynamic_range = ([], inl EmptyReduction).
Proof.
  intros H.
  assert (Hr : check_range img1 img2 dynamic_range
               = ([], inl EmptyReduction)).
  { destruct (In_dec Nat.eq_dec 0%nat (shape img1)) as [H1 | H1].
    - apply check_range_empty_first. exact H1.
    - destruct H as [H | H]; [contradiction |].
      apply check_range_empty_second; [apply no_zero_positive |];
        assumption. }
  unfold ssim, ssim_map, _ssim_parts. rewrite Hr. split; reflexivity.
Qed.

Lemma ssim_of_empty_image_witness :
  ssim (zeros [1; 1; 0; 4]%nat) one_pixel false 1
  = ([], inl EmptyReduction).
Proof.
  apply (ssim_of_empty_image (zeros [1; 1; 0; 4]%nat) one_pixel false 1).
  left. cbn. tauto.
Defined.

(** Two images of one extent whose height and width differ make [ssim]
    and [ssim_map] raise, whatever the weighting: the two maps of
    variances, of [h - s + 1] rows and [w - s + 1] columns, are handed to
    [torch.matmul], which refuses them. *)
Theorem ssim_of_oblong_images (img1 img2 : tensor) (B1 B2 C h w : nat)
    (weighted : bool) (dynamic_range : Z) :
  shape img1 = [B1; C; h; w] -> shape img2 = [B2; C; h; w] ->
  (0 < B1)%nat -> (0 < B2)%nat -> (B1 = B2 \/ B1 = 1 \/ B2 = 1)%nat ->
  (0 < C)%nat -> (0 < h)%nat -> (0 < w)%nat -> h <> w ->
  outcome (ssim img1 img2 weighted dynamic_range) = inl MatmulError
  /\ outcome (ssim_map img1 img2 dynamic_range) = inl MatmulError.
Proof.
  intros H1 H2 HB1 HB2 HB HC Hh Hw Hhw.
  pose proof (proj2 (ssim_parts_spec img1 img2 B1 B2 C h w dynamic_range
                       H1 H2 HB1 HB2 HB HC Hh Hw) Hhw) as Hparts.
  split; [unfold ssim | unfold ssim_map];
    apply outcome_bind_inl; exact Hparts.
Qed.

Lemma ssim_of_oblong_images_witness :
  outcome (ssim (zeros [1; 1; 2; 3]%nat) (zeros [1; 1; 2; 3]%nat) false 1)
  = inl MatmulError.
Proof.
  apply (ssim_of_oblong_images (zeros [1; 1; 2; 3]%nat)
           (zeros [1; 1; 2; 3]%nat) 1 1 1 2 3 false 1 eq_refl eq_refl);
    lia.
Defined.




(** [ssim_map] returns the first map of [_ssim_parts], and the
    unweighted [ssim] is its mean over the rows and columns, for every
    batch entry and channel. *)
Theorem ssim_is_mean_of_ssim_map (img1 img2 : tensor) (B1 B2 C h : nat)
    (dynamic_range : Z) :
  shape img1 = [B1; C; h; h] -> shape img2 = [B2; C; h; h] ->
  (0 < B1)%nat -> (0 < B2)%nat -> (B1 = B2 \/ B1 = 1 \/ B2 = 1)%nat ->
  (0 < C)%nat -> (0 < h)%nat ->
  let n := (h - Nat.min 11 (Nat.min h h) + 1)%nat in
  exists m t,
    outcome (ssim_map img1 img2 dynamic_range) = inr m
    /\ outcome (ssim img1 img2 false dynamic_range) = inr t
    /\ shape m = [Nat.max B1 B2; C; n; n]
    /\ shape t = [Nat.max B1 B2; C]
    /\ forall b c, (b < Nat.max B1 B2)%nat -> (c < C)%nat ->
         data t [b; c]
         = Rsum2 n n (fun i j => data m [b; c; i; j]) / INR (n * n).
Proof.
  intros H1 H2 HB1 HB2 HB HC Hh n.
  destruct (proj1 (ssim_parts_spec img1 img2 B1 B2 C h h dynamic_range
                     H1 H2 HB1 HB2 HB HC Hh Hh) eq_refl)
    as (m & cm & wt & Hout & Hms & _ & _ & Hd).
  destruct (ssim_spec img1 img2 B1 B2 C h h dynamic_range H1 H2 HB1 HB2 HB
              HC Hh Hh false eq_refl) as (t & Ht & Hts & Htd).
  exists m, t. split.
  { unfold ssim_map. rewrite (outcome_bind_inr _ _ _ Hout). reflexivity. }
  split; [exact Ht |]. split; [exact Hms |]. split; [exact Hts |].
  intros b c Hb Hc. rewrite (Htd b c Hb Hc). fold n. f_equal.
  apply Rsum2_ext. intros i j Hi Hj.
  destruct (Hd b c i j Hb Hc Hi Hj) as (-> & _ & _). reflexivity.
Qed.

Lemma ssim_is_mean_of_ssim_map_witness :
  exists m t,
    outcome (ssim_map spot_a spot_b 1) = inr m
    /\ outcome (ssim spot_a spot_b false 1) = inr t
    /\ data t [0; 0]%nat
       = Rsum2 1 1 (fun i j => data m [0; 0; i; j]%nat) / INR (1 * 1).
Proof.
  destruct (ssim_is_mean_of_ssim_map spot_a spot_b 1 1 1 2 1 eq_refl
              eq_refl ltac:(lia) ltac:(lia) ltac:(left; reflexivity)
              ltac:(lia) ltac:(lia))
    as (m & t & Hm & Ht & _ & _ & Hd).
  exists m, t. split; [exact Hm |]. split; [exact Ht |].
  apply (Hd 0 0)%nat; simpl; lia.
Defined.

(** The SSIM map of an image with itself is 1 at every position, for
    every dynamic range that is not zero. *)
Theorem ssim_map_of_identical_images (img : tensor) (B C h : nat)
    (dynamic_range : Z) :
  shape img = [B; C; h; h] ->
  (0 < B)%nat -> (0 < C)%nat -> (0 < h)%nat -> dynamic_range <> 0%Z ->
  let n := (h - Nat.min 11 (Nat.min h h) + 1)%nat in
  exists m,
    outcome (ssim_map img img dynamic_range) = inr m
    /\ shape m = [B; C; n; n]
    /\ forall b c i j, (b < B)%nat -> (c < C)%nat ->
                       (i < n)%nat -> (j < n)%nat ->
         data m [b; c; i; j] = 1.
Proof.
  intros H1 HB HC Hh Hdr n.
  assert (Hs : (0 < Nat.min 11 (Nat.min h h))%nat) by lia.
  destruct (proj1 (ssim_parts_spec img img B B C h h dynamic_range
                     H1 H1 HB HB ltac:(left; reflexivity) HC Hh Hh) eq_refl)
    as (m & cm & wt & Hout & Hms & _ & _ & Hd).
  rewrite Nat.max_id in Hms, Hd.
  exists m. split.
  { unfold ssim_map. rewrite (outcome_bind_inr _ _ _ Hout). reflexivity. }
  split; [exact Hms |].
  intros b c i j Hb Hc Hi Hj.
  destruct (Hd b c i j Hb Hc Hi Hj) as (-> & _ & _).
  apply ssim_value_self; assumption.
Qed.

Lemma ssim_map_of_identical_images_witness :
  exists m,
    outcome (ssim_map spot_a spot_a 1) = inr m
    /\ data m [0; 0; 0; 0]%nat = 1.
Proof.
  destruct (ssim_map_of_identical_images spot_a 1 1 2 1 eq_refl
              ltac:(lia) ltac:(lia) ltac:(lia) ltac:(discriminate))
    as (m & Hm & _ & Hd).
  exists m. split; [exact Hm |]. apply Hd; simpl; lia.
Defined.

End SsimEdges.

(** ** Rescaling the images together with the dynamic range *)

Section Rescaling.
Import Torch perceptual_distance stats examples.
Local Open Scope R_scope.

Variables (s : nat) (Hs : (0 < s)%nat).
Variable k : R.

Local Abbreviation scaled := (tmap (Rmult k)).

Lemma mean_at_scaled t b c i j :
  mean_at s (scaled t) b c i j = k * mean_at s t b c i j.
Proof.
  unfold mean_at. rewrite <- wavg_scal. apply wavg_ext.
  intros a a' _ _. reflexivity.
Qed.

Lemma second_moment_scaled t1 t2 b1 b2 c i j :
  second_moment s (scaled t1) (scaled t2) b1 b2 c i j
  = k ^ 2 * second_moment s t1 t2 b1 b2 c i j.
Proof.
  unfold second_moment. rewrite <- wavg_scal. apply wavg_ext.
  intros a a' _ _. unfold patch, tmap. cbn [data]. ring.
Qed.

Lemma variance_scaled t b c i j :
  variance s (scaled t) b c i j = k ^ 2 * variance s t b c i j.
Proof.
  unfold variance. rewrite second_moment_scaled, mean_at_scaled. ring.
Qed.

Lemma covariance_scaled t1 t2 b1 b2 c i j :
  covariance s (scaled t1) (scaled t2) b1 b2 c i j
  = k ^ 2 * covariance s t1 t2 b1 b2 c i j.
Proof.
  unfold covariance. rewrite second_moment_scaled, !mean_at_scaled. ring.
Qed.

End Rescaling.

Section RescalingSsim.
Import Torch perceptual_distance stats examples.
Local Open Scope R_scope.

Variables (s : nat) (Hs : (0 < s)%nat).
Variables (k dr : Z) (Hk : k <> 0%Z) (Hdr : dr <> 0%Z).

Local Abbreviation scaled := (tmap (Rmult (IZR k))).

Lemma IZR_k_neq : IZR k <> 0.
Proof. apply not_0_IZR. exact Hk. Qed.

Lemma C1_scaled : C1 (k * dr) = IZR k ^ 2 * C1 dr.
Proof. unfold C1. rewrite mult_IZR. ring. Qed.

Lemma C2_scaled : C2 (k * dr) = IZR k ^ 2 * C2 dr.
Proof. unfold C2. rewrite mult_IZR. ring. Qed.

Lemma quotient_scaled K a b : K <> 0 -> b <> 0 -> K * a / (K * b) = a / b.
Proof. intros HK Hb. field. split; assumption. Qed.

Lemma ssim_value_scaled t1 t2 b1 b2 c i j :
  ssim_value s (scaled t1) (scaled t2) (k * dr) b1 b2 c i j
  = ssim_value s t1 t2 dr b1 b2 c i j.
Proof.
  pose proof IZR_k_neq as Hk0.
  assert (HK : IZR k ^ 2 <> 0) by (apply Rgt_not_eq, square_pos; exact Hk0).
  pose proof (C1_pos dr Hdr) as HC1. pose proof (C2_pos dr Hdr) as HC2.
  pose proof (variance_nonneg s Hs t1 b1 c i j) as Hv1.
  pose proof (variance_nonneg s Hs t2 b2 c i j) as Hv2.
  pose proof (pow2_ge_0 (mean_at s t1 b1 c i j)) as Hm1.
  pose proof (pow2_ge_0 (mean_at s t2 b2 c i j)) as Hm2.
  unfold ssim_value, luminance_value, contrast_value.
  rewrite !mean_at_scaled, !variance_scaled, covariance_scaled
    by exact Hs.
  rewrite C1_scaled, C2_scaled.
  set (m1 := mean_at s t1 b1 c i j) in *.
  set (m2 := mean_at s t2 b2 c i j) in *.
  set (v1 := variance s t1 b1 c i j) in *.
  set (v2 := variance s t2 b2 c i j) in *.
  set (cv := covariance s t1 t2 b1 b2 c i j).
  replace (2 * (IZR k * m1 * (IZR k * m2)) + IZR k ^ 2 * C1 dr)
    with (IZR k ^ 2 * (2 * (m1 * m2) + C1 dr)) by ring.
  replace ((IZR k * m1) ^ 2 + (IZR k * m2) ^ 2 + IZR k ^ 2 * C1 dr)
    with (IZR k ^ 2 * (m1 ^ 2 + m2 ^ 2 + C1 dr)) by ring.
  replace (2.0 * (IZR k ^ 2 * cv) + IZR k ^ 2 * C2 dr)
    with (IZR k ^ 2 * (2.0 * cv + C2 dr)) by ring.
  replace (IZR k ^ 2 * v1 + IZR k ^ 2 * v2 + IZR k ^ 2 * C2 dr)
    with (IZR k ^ 2 * (v1 + v2 + C2 dr)) by ring.
  rewrite !quotient_scaled by (assumption || lra). reflexivity.
Qed.

Lemma weight_value_scaled n t1 t2 b1 b2 c i j :
  weight_value s n (scaled t1) (scaled t2) (k * dr) b1 b2 c i j
  = weight_value s n t1 t2 dr b1 b2 c i j.
Proof.
  pose proof IZR_k_neq as Hk0. pose proof (C2_pos dr Hdr) as HC2.
  assert (HK : IZR k ^ 2 <> 0) by (apply Rgt_not_eq, square_pos; exact Hk0).
  unfold weight_value. f_equal. apply Rsum_ext. intros x _.
  rewrite !variance_scaled by exact Hs. rewrite C2_scaled.
  rewrite !quotient_scaled by (assumption || lra). reflexivity.
Qed.

End RescalingSsim.

Section RescalingClaim.
Import Torch perceptual_distance stats examples.
Local Open Scope R_scope.

(** Multiplying both images and the dynamic range by one integer that
    is not zero leaves [ssim] as it is, weighted or not: an 8-bit
    image compared at [dynamic_range = 255] scores what its copy
    divided by 255 scores at [dynamic_range = 1]. *)
Theorem ssim_rescaled (img1 img2 : tensor) (B1 B2 C h : nat)
    (k dynamic_range : Z) (weighted : bool) :
  shape img1 = [B1; C; h; h] -> shape img2 = [B2; C; h; h] ->
  (0 < B1)%nat -> (0 < B2)%nat -> (B1 = B2 \/ B1 = 1 \/ B2 = 1)%nat ->
  (0 < C)%nat -> (0 < h)%nat -> k <> 0%Z -> dynamic_range <> 0%Z ->
  exists t t',
    outcome (ssim img1 img2 weighted dynamic_range) = inr t
    /\ outcome (ssim (tmap (Rmult (IZR k)) img1) (tmap (Rmult (IZR k)) img2)
                  weighted (k * dynamic_range)) = inr t'
    /\ shape t = [Nat.max B1 B2; C]
    /\ shape t' = [Nat.max B1 B2; C]
    /\ forall b c, (b < Nat.max B1 B2)%nat -> (c < C)%nat ->
         data t' [b; c] = data t [b; c].
Proof.
  intros H1 H2 HB1 HB2 HB HC Hh Hk Hdr.
  assert (Hs : (0 < Nat.min 11 (Nat.min h h))%nat) by lia.
  destruct (ssim_spec img1 img2 B1 B2 C h h dynamic_range H1 H2 HB1 HB2
              HB HC Hh Hh weighted eq_refl) as (t & Ht & Hts & Htd).
  destruct (ssim_spec (tmap (Rmult (IZR k)) img1) (tmap (Rmult (IZR k)) img2)
              B1 B2 C h h (k * dynamic_range) H1 H2 HB1 HB2
              HB HC Hh Hh weighted eq_refl) as (t' & Ht' & Hts' & Htd').
  exists t, t'. repeat (split; [assumption |]).
  intros b c Hb Hc. rewrite (Htd b c Hb Hc), (Htd' b c Hb Hc).
  destruct weighted.
  - f_equal; apply Rsum2_ext; intros i j _ _.
    + rewrite ssim_value_scaled, weight_value_scaled by assumption.
      reflexivity.
    + apply weight_value_scaled; assumption.
  - f_equal. apply Rsum2_ext. intros i j _ _.
    apply ssim_value_scaled; assumption.
Qed.

Lemma ssim_rescaled_witness :
  exists t t',
    outcome (ssim spot_a spot_b false 1) = inr t
    /\ outcome (ssim (tmap (Rmult (IZR 255)) spot_a)
                  (tmap (Rmult (IZR 255)) spot_b) false 255) = inr t'
    /\ data t' [0; 0]%nat = data t [0; 0]%nat.
Proof.
  destruct (ssim_rescaled spot_a spot_b 1 1 1 2 255 1 false eq_refl eq_refl
              ltac:(lia) ltac:(lia) ltac:(left; reflexivity) ltac:(lia)
              ltac:(lia) ltac:(discriminate) ltac:(discriminate))
    as (t & t' & Ht & Ht' & _ & _ & Hd).
  exists t, t'. split; [exact Ht |]. split; [exact Ht' |].
  apply Hd; simpl; lia.
Defined.

End RescalingClaim.

(** ** [ssim] of a batch, entry by entry *)

Section BatchEntries.
Import Torch perceptual_distance stats examples.
Local Open Scope R_scope.

Lemma mean_at_ext s t t' b b' c i j :
  (forall x y, data t [b; c; x; y] = data t' [b'; c; x; y]) ->
  mean_at s t b c i j = mean_at s t' b' c i j.
Proof.
  intros H. unfold mean_at. apply wavg_ext. intros a a' _ _.
  unfold patch. rewrite H. reflexivity.
Qed.

Lemma second_moment_ext s t1 t1' t2 t2' b1 b1' b2 b2' c i j :
  (forall x y, data t1 [b1; c; x; y] = data t1' [b1'; c; x; y]) ->
  (forall x y, data t2 [b2; c; x; y] = data t2' [b2'; c; x; y]) ->
  second_moment s t1 t2 b1 b2 c i j = second_moment s t1' t2' b1' b2' c i j.
Proof.
  intros H1 H2. unfold second_moment. apply wavg_ext. intros a a' _ _.
  unfold patch. rewrite H1, H2. reflexivity.
Qed.

Lemma variance_ext s t t' b b' c i j :
  (forall x y, data t [b; c; x; y] = data t' [b'; c; x; y]) ->
  variance s t b c i j = variance s t' b' c i j.
Proof.
  intros H. unfold variance.
  rewrite (second_moment_ext s t t' t t' b b' b b' c i j H H),
    (mean_at_ext s t t' b b' c i j H).
  reflexivity.
Qed.

Lemma ssim_value_ext s t1 t1' t2 t2' dr b1 b1' b2 b2' c i j :
  (forall x y, data t1 [b1; c; x; y] = data t1' [b1'; c; x; y]) ->
  (forall x y, data t2 [b2; c; x; y] = data t2' [b2'; c; x; y]) ->
  ssim_value s t1 t2 dr b1 b2 c i j = ssim_value s t1' t2' dr b1' b2' c i j.
Proof.
  intros H1 H2.
  unfold ssim_value, luminance_value, contrast_value, covariance.
  rewrite (variance_ext s t1 t1' b1 b1' c i j H1),
    (variance_ext s t2 t2' b2 b2' c i j H2),
    (second_moment_ext s t1 t1' t2 t2' b1 b1' b2 b2' c i j H1 H2),
    (mean_at_ext s t1 t1' b1 b1' c i j H1),
    (mean_at_ext s t2 t2' b2 b2' c i j H2).
  reflexivity.
Qed.

Lemma weight_value_ext s n t1 t1' t2 t2' dr b1 b1' b2 b2' c i j :
  (forall x y, data t1 [b1; c; x; y] = data t1' [b1'; c; x; y]) ->
  (forall x y, data t2 [b2; c; x; y] = data t2' [b2'; c; x; y]) ->
  weight_value s n t1 t2 dr b1 b2 c i j
  = weight_value s n t1' t2' dr b1' b2' c i j.
Proof.
  intros H1 H2. unfold weight_value. f_equal. apply Rsum_ext. intros k _.
  rewrite (variance_ext s t1 t1' b1 b1' c i k H1),
    (variance_ext s t2 t2' b2 b2' c k j H2).
  reflexivity.
Qed.

(** [ssim] treats a batch entry by entry: on two batches of as many
    images of one square extent, weighted or not, what it returns for
    batch entry [b] is what it returns for the two images
    [img1[b:b+1]] and [img2[b:b+1]] on their own. *)
Theorem ssim_of_batch_entry (img1 img2 : tensor) (B C h b : nat)
    (weighted : bool) (dynamic_range : Z) :
  shape img1 = [B; C; h; h] -> shape img2 = [B; C; h; h] ->
  (0 < C)%nat -> (0 < h)%nat -> (b < B)%nat ->
  exists a1 a2 t t',
    narrow img1 b 1 = inr a1 /\ narrow img2 b 1 = inr a2
    /\ outcome (ssim img1 img2 weighted dynamic_range) = inr t
    /\ outcome (ssim a1 a2 weighted dynamic_range) = inr t'
    /\ forall c, (c < C)%nat -> data t [b; c] = data t' [0%nat; c].
Proof.
  intros H1 H2 HC Hh Hb.
  pose proof (narrow_ok img1 B [C; h; h] b 1 H1 ltac:(lia)) as Ha1.
  pose proof (narrow_ok img2 B [C; h; h] b 1 H2 ltac:(lia)) as Ha2.
  set (a1 := mkTensor _ _) in Ha1. set (a2 := mkTensor _ _) in Ha2.
  assert (E1 : forall c x y,
             data img1 [b; c; x; y] = data a1 [0%nat; c; x; y]).
  { intros c x y. unfold a1. cbn [data]. rewrite Nat.add_0_r. reflexivity. }
  assert (E2 : forall c x y,
             data img2 [b; c; x; y] = data a2 [0%nat; c; x; y]).
  { intros c x y. unfold a2. cbn [data]. rewrite Nat.add_0_r. reflexivity. }
  destruct (ssim_spec img1 img2 B B C h h dynamic_range H1 H2
              ltac:(lia) ltac:(lia) ltac:(left; reflexivity) HC Hh Hh
              weighted eq_refl) as (t & Ht & _ & Htd).
  destruct (ssim_spec a1 a2 1 1 C h h dynamic_range eq_refl eq_refl
              ltac:(lia) ltac:(lia) ltac:(left; reflexivity) HC Hh Hh
              weighted eq_refl) as (t' & Ht' & _ & Htd').
  exists a1, a2, t, t'. repeat (split; [assumption |]).
  intros c Hc.
  rewrite (Htd b c ltac:(lia) Hc), (Htd' 0%nat c ltac:(simpl; lia) Hc).
  rewrite (bsel_lt B b Hb). change (bsel 1 0) with 0%nat.
  destruct weighted.
  - f_equal; apply Rsum2_ext; intros i j _ _.
    + rewrite (ssim_value_ext _ img1 a1 img2 a2 _ b 0 b 0 c i j
                 (E1 c) (E2 c)),
        (weight_value_ext _ _ img1 a1 img2 a2 _ b 0 b 0 c i j
           (E1 c) (E2 c)).
      reflexivity.
    + apply weight_value_ext; [apply E1 | apply E2].
  - f_equal. apply Rsum2_ext. intros i j _ _.
    apply ssim_value_ext; [apply E1 | apply E2].
Qed.

Lemma ssim_of_batch_entry_witness :
  exists a1 a2 t t',
    narrow bright_dark 1 1 = inr a1 /\ narrow bright_dark 1 1 = inr a2
    /\ outcome (ssim bright_dark bright_dark false 1) = inr t
    /\ outcome (ssim a1 a2 false 1) = inr t'
    /\ data t [1; 0]%nat = data t' [0; 0]%nat.
Proof.
  destruct (ssim_of_batch_entry bright_dark bright_dark 2 1 1 1 false 1
              eq_refl eq_refl ltac:(lia) ltac:(lia) ltac:(lia))
    as (a1 & a2 & t & t' & Ha1 & Ha2 & Ht & Ht' & Hd).
  exists a1, a2, t, t'. repeat (split; [assumption |]). apply Hd. lia.
Defined.

End BatchEntries.
(** ** More on [normalized_laplacian_pyramid] and [nlpd] *)

Section NlpdMore.
Import Torch perceptual_distance stats examples.
Local Open Scope R_scope.

Lemma outcome_bind_inv {A B : Type} (m : M A) (f : A -> M B) (b : B) :
  outcome (m ≫= f) = inr b ->
  exists a, outcome m = inr a /\ outcome (f a) = inr b.
Proof.
  destruct m as [ws [e | a]]; unfold mbind, M_bind, outcome; cbn [snd].
  - discriminate.
  - intros H. exists a. split; [reflexivity |].
    destruct (f a). exact H.
Qed.

Lemma outcome_bind_raises {A B : Type} (m : M A) (f : A -> M B) :
  (forall a, exists e, outcome (f a) = inl e) ->
  exists e, outcome (m ≫= f) = inl e.
Proof.
  intros Hf. destruct (outcome m) as [e | a] eqn:Hm.
  - exists e. apply outcome_bind_inl. exact Hm.
  - destruct (Hf a) as (e & He). exists e.
    rewrite (outcome_bind_inr _ _ _ Hm). exact He.
Qed.

Lemma outcome_bind_raised {A B : Type} (m : M A) (f : A -> M B) :
  (exists e, outcome m = inl e) -> exists e, outcome (m ≫= f) = inl e.
Proof.
  intros (e & He). exists e. apply outcome_bind_inl. exact He.
Qed.

Lemma mapM_raises_head {A B : Type} (f : A -> M B) x l :
  (exists e, outcome (f x) = inl e) ->
  exists e, outcome (mapM f (x :: l)) = inl e.
Proof.
  intros (e & He). exists e. cbn [mapM]. apply outcome_bind_inl. exact He.
Qed.

Lemma sum_over_nonneg s f :
  (forall idx, 0 <= f idx) -> 0 <= sum_over s f.
Proof.
  revert f. induction s as [| d s IH]; intros f Hf; cbn [sum_over].
  - apply Hf.
  - apply Rsum_nonneg. intros i _. apply IH. intros idx. apply Hf.
Qed.

Lemma scale_rms_floor yi : 1e-5 <= scale_rms 1e-10 yi.
Proof.
  unfold scale_rms. rewrite <- sqrt_epsilon. apply sqrt_le_1_alt.
  assert (0 <= sum_over (tail (shape yi))
                 (fun idx => (data yi (0%nat :: idx)
                              - data yi (1%nat :: idx)) ^ 2)
               / INR (numel (tail (shape yi)))).
  { apply Rmult_le_pos.
    - apply sum_over_nonneg. intros idx. apply pow2_ge_0.
    - destruct (Nat.eq_dec (numel (tail (shape yi))) 0) as [-> | Hne].
      + simpl. rewrite Rinv_0. lra.
      + left. apply Rinv_0_lt_compat, lt_0_INR. lia. }
  lra.
Qed.

Lemma sum_floor {A : Type} (f : A -> R) (c : R) (y : list A) :
  (forall yi, c <= f yi) ->
  INR (length y) * c <= fold_right Rplus 0 (map f y).
Proof.
  intros Hf. induction y as [| yi y IH].
  - simpl. lra.
  - cbn [length map fold_right]. rewrite S_INR. specialize (Hf yi). lra.
Qed.

Lemma conv2d_single_output input weight rest padding groups :
  shape weight = 1%nat :: rest -> (2 <= groups)%nat ->
  conv2d input weight padding groups = inl ConvError.
Proof.
  intros Hw Hg. unfold conv2d. rewrite Hw.
  destruct (shape input) as [| n [| cin [| h [| w [| ? ?]]]]];
    try reflexivity.
  destruct rest as [| cpg [| kh [| kw [| ? ?]]]]; try reflexivity.
  replace (1 mod groups =? 0)%nat with false.
  - rewrite andb_false_r. reflexivity.
  - symmetry. apply Nat.eqb_neq. rewrite Nat.mod_small by lia. lia.
Qed.

Variable Laplacian_Pyramid_analysis : nat -> tensor -> M (list tensor).
Variables spatialpooling_filters sigmas : tensor.

Local Abbreviation nlp :=
  (normalized_laplacian_pyramid Laplacian_Pyramid_analysis
     spatialpooling_filters sigmas).
Local Abbreviation distance :=
  (nlpd Laplacian_Pyramid_analysis spatialpooling_filters sigmas).

(** Images of more than one channel make [nlpd] raise, whatever the
    pyramid hands back: the pooling filter of a scale has one output
    channel, which the convolution cannot share out among as many groups
    as there are channels. *)
Theorem nlpd_of_many_channels (IM_1 IM_2 : tensor) (n1 n2 C h w : nat) :
  shape IM_1 = [n1; C; h; w] -> shape IM_2 = [n2; C; h; w] ->
  (2 <= C)%nat ->
  exists e, outcome (distance IM_1 IM_2) = inl e.
Proof.
  intros H1 H2 HC. unfold nlpd.
  rewrite (cat0_ok IM_1 IM_2 n1 n2 [C; h; w] H1 H2), bind_lift_inr.
  apply outcome_bind_raised.
  unfold normalized_laplacian_pyramid. cbn [shape].
  apply outcome_bind_raises. intros acts.
  cbn [seq]. apply mapM_raises_head.
  apply outcome_bind_raises. intros f.
  apply outcome_bind_raises. intros f1.
  destruct (unsqueeze f1 0) as [e | filt] eqn:Hfilt;
    [exists e; reflexivity |].
  rewrite bind_lift_inr.
  apply outcome_bind_raises. intros act.
  assert (Hshape : shape filt = 1%nat :: shape f1).
  { unfold unsqueeze in Hfilt. cbn [Nat.leb] in Hfilt.
    inversion Hfilt. reflexivity. }
  rewrite (conv2d_single_output _ filt (shape f1) 2 C Hshape HC).
  exists ConvError. reflexivity.
Qed.

Hypothesis Hfilters : shape spatialpooling_filters = [6; 5; 5]%nat.
Hypothesis Hsigmas : shape sigmas = [6%nat].

(** The local gain control.  On a batch of single-channel images for
    which the pyramid hands back six scales, with six 5 by 5 pooling
    filters without a negative entry and six positive sigmas:
    [normalized_laplacian_pyramid] returns six scales, each of the shape
    of the scale it normalizes; a coefficient is divided by its sigma
    plus the pooled absolute values around it, so it keeps its sign and
    is at most the coefficient over the sigma in absolute value. *)
Theorem normalized_pyramid_gain (im : tensor) (B h w : nat)
    (acts : list tensor) :
  shape im = [B; 1%nat; h; w] ->
  six_scales Laplacian_Pyramid_analysis im acts ->
  (forall i, (i < 6)%nat -> 0 < data sigmas [i]) ->
  (forall idx, 0 <= data spatialpooling_filters idx) ->
  exists y,
    outcome (nlp im) = inr y
    /\ length y = 6%nat
    /\ forall i yi, y !! i = Some yi ->
         exists act hi wi,
           acts !! i = Some act
           /\ shape act = [B; 1%nat; hi; wi]
           /\ shape yi = [B; 1%nat; hi; wi]
           /\ forall b x z, (b < B)%nat -> (x < hi)%nat -> (z < wi)%nat ->
                data yi [b; 0%nat; x; z]
                = data act [b; 0%nat; x; z]
                  / (data sigmas [i]
                     + pooled spatialpooling_filters act i b x z)
                /\ 0 <= data yi [b; 0%nat; x; z] * data act [b; 0%nat; x; z]
                /\ Rabs (data yi [b; 0%nat; x; z])
                   <= Rabs (data act [b; 0%nat; x; z]) / data sigmas [i].
Proof.
  intros Him Hsix Hsig Hfil.
  destruct (nlp_returns Laplacian_Pyramid_analysis spatialpooling_filters
              sigmas Hfilters Hsigmas im B h w acts Him Hsix)
    as (y & Hy & Hlen & Hscales).
  exists y. split; [exact Hy |]. split; [exact Hlen |].
  intros i yi Hyi.
  destruct (Hscales i yi Hyi)
    as (act & hi & wi & Hact & Hsa & Hsy & _ & _ & Hd).
  exists act, hi, wi. repeat (split; [assumption |]).
  intros b x z Hb Hx Hz. rewrite (Hd b x z Hb Hx Hz).
  assert (Hi : (i < 6)%nat).
  { rewrite <- Hlen. apply lookup_lt_is_Some. eexists. exact Hyi. }
  pose proof (Hsig i Hi) as Hs.
  pose proof (pooled_nonneg spatialpooling_filters act i b x z Hfil) as Hp.
  set (a := data act [b; 0%nat; x; z]).
  set (sg := data sigmas [i]) in *.
  set (p := pooled spatialpooling_filters act i b x z) in *.
  assert (Hinv : 0 < / (sg + p)) by (apply Rinv_0_lt_compat; lra).
  assert (Hle : / (sg + p) <= / sg)
    by (apply Rinv_le_contravar; lra).
  split; [reflexivity |]. split.
  - unfold Rdiv. replace (a * / (sg + p) * a) with (a ^ 2 * / (sg + p))
      by ring.
    apply Rmult_le_pos; [apply pow2_ge_0 | lra].
  - unfold Rdiv. rewrite Rabs_mult, (Rabs_right (/ (sg + p))) by lra.
    apply Rmult_le_compat_l; [apply Rabs_pos | exact Hle].
Qed.

(** [nlpd] never returns less than [1e-5], the root of its epsilon: on
    two batches of single-channel images of one extent, two images or
    more between them, for which the pyramid hands back six scales, it
    returns a 0-dimensional tensor of at least that value. *)
Theorem nlpd_floor (IM_1 IM_2 both : tensor) (n1 n2 h w : nat)
    (acts : list tensor) :
  shape IM_1 = [n1; 1%nat; h; w] -> shape IM_2 = [n2; 1%nat; h; w] ->
  (2 <= n1 + n2)%nat ->
  cat0 IM_1 IM_2 = inr both ->
  six_scales Laplacian_Pyramid_analysis both acts ->
  exists t,
    outcome (distance IM_1 IM_2) = inr t
    /\ shape t = []
    /\ 1e-5 <= data t [].
Proof.
  intros H1 H2 Hn Hcat Hsix.
  destruct (nlpd_returns Laplacian_Pyramid_analysis spatialpooling_filters
              sigmas Hfilters Hsigmas IM_1 IM_2 n1 n2 h w both acts
              H1 H2 Hn Hcat Hsix)
    as (y & t & _ & Hlen & _ & Ht & Htd).
  exists t. split; [exact Ht |]. split.
  - unfold nlpd in Ht.
    apply outcome_bind_inv in Ht. destruct Ht as (b0 & _ & Ht).
    apply outcome_bind_inv in Ht. destruct Ht as (y0 & _ & Ht).
    apply outcome_bind_inv in Ht. destruct Ht as (dist & _ & Ht).
    inversion Ht. reflexivity.
  - rewrite Htd.
    pose proof (sum_floor (scale_rms 1e-10) 1e-5 y scale_rms_floor) as Hsum.
    rewrite Hlen in Hsum. simpl INR in Hsum. lra.
Qed.

End NlpdMore.

Section NlpdMoreExamples.
Import Torch perceptual_distance stats examples.
Local Open Scope R_scope.

Lemma nlpd_of_many_channels_witness :
  exists e,
    outcome (nlpd echo_pyramid zero_filters unit_sigmas
               (zeros [1; 3; 4; 4]%nat) (zeros [1; 3; 4; 4]%nat)) = inl e.
Proof.
  apply (nlpd_of_many_channels echo_pyramid zero_filters unit_sigmas
           (zeros [1; 3; 4; 4]%nat) (zeros [1; 3; 4; 4]%nat) 1 1 3 4 4
           eq_refl eq_refl).
  lia.
Defined.

Lemma normalized_pyramid_gain_witness :
  exists y,
    outcome (normalized_laplacian_pyramid echo_pyramid zero_filters
               unit_sigmas one_pixel) = inr y
    /\ length y = 6%nat.
Proof.
  destruct (normalized_pyramid_gain echo_pyramid zero_filters unit_sigmas
              eq_refl eq_refl one_pixel 1 1 1 (replicate 6 one_pixel)
              eq_refl
              (echo_six_scales one_pixel 1 1 1 eq_refl ltac:(lia)
                 ltac:(lia)))
    as (y & Hy & Hlen & _).
  - intros i _. unfold unit_sigmas. cbn [data]. lra.
  - intros idx. unfold zero_filters, zeros. cbn [data]. lra.
  - exists y. split; [exact Hy | exact Hlen].
Defined.

Lemma nlpd_floor_witness :
  exists t,
    outcome (nlpd echo_pyramid zero_filters unit_sigmas
               bright_dark bright_dark) = inr t
    /\ 1e-5 <= data t [].
Proof.
  pose proof (cat0_ok bright_dark bright_dark 2 2 [1; 1; 1]%nat
                eq_refl eq_refl) as Hcat.
  set (both := mkTensor _ _) in Hcat.
  destruct (nlpd_floor echo_pyramid zero_filters unit_sigmas eq_refl
              eq_refl bright_dark bright_dark both 2 2 1 1
              (replicate 6 both) eq_refl eq_refl ltac:(lia) Hcat
              (echo_six_scales both 4 1 1 eq_refl ltac:(lia) ltac:(lia)))
    as (t & Ht & _ & Hd).
  exists t. split; [exact Ht | exact Hd].
Defined.

End NlpdMoreExamples.
(** ** More on [Synthesis.load] *)

Section LoadMore.
Import Torch synthesis checkpoints examples.

Variable files : string -> option (list (string * value)).
Variable rand : nat -> list nat -> tensor.
Variable py_ne : value -> value -> load_exn + bool.

Lemma dict_get_lookup d k (s : attrs) :
  dict_get d k s
  = (match dict_lookup d k with
     | Some v => inr v
     | None => inl (KeyError k)
     end, s).
Proof.
  induction d as [| [k' v] d IH]; cbn [dict_get dict_lookup];
    [reflexivity |].
  destruct (decide (k' = k)); [reflexivity | exact IH].
Qed.

Lemma for_each_passed {A : Type} (body : nat -> A -> St unit) l :
  (forall n x (s : attrs), (body n x s).2 = s) ->
  forall n (s : attrs),
    (for_each body n l s).1 = inr tt ->
    forall i x, l !! i = Some x -> body (n + i)%nat x s = (inr tt, s).
Proof.
  intros Hstate. induction l as [| x l IH]; intros n s H i y Hy;
    [discriminate Hy |].
  cbn [for_each] in H. unfold mbind, St_bind in H.
  pose proof (Hstate n x s) as Hs.
  destruct (body n x s) as [[e | []] s'] eqn:Hb; cbn [snd] in Hs; subst s';
    [discriminate H |].
  destruct i as [| i].
  - injection Hy as <-. rewrite Nat.add_0_r. exact Hb.
  - replace (n + S i)%nat with (S n + i)%nat by lia.
    apply IH; assumption.
Qed.

(** A check of an attribute can pass only on a name that is an
    attribute of the object and a key of the loaded dictionary. *)
Lemma check_attribute_returns tmp_dict k (s : attrs) :
  check_attribute py_ne tmp_dict k s = (inr tt, s) ->
  is_Some (s !! k) /\ is_Some (dict_lookup tmp_dict k).
Proof.
  unfold check_attribute, mbind, St_bind, hasattr, getattr, throw, mret,
    St_ret.
  cbv beta iota. destruct (s !! k) as [init |] eqn:Hk.
  - rewrite bool_decide_true by (eexists; reflexivity).
    cbn [negb]. cbv beta iota. rewrite Hk. cbv beta iota.
    intros H. split; [eexists; reflexivity |].
    destruct (dict_lookup tmp_dict k) as [saved |] eqn:Hd;
      [eexists; reflexivity |].
    exfalso.
    destruct init as [dev t | id f | sh | r]; cbv beta iota in H;
      rewrite dict_get_lookup, Hd in H; discriminate H.
  - rewrite bool_decide_false by (intros [v Hv]; discriminate Hv).
    cbn [negb]. cbv beta iota. discriminate.
Qed.

(** A check of a loss function can pass only with [_signal_shape] an
    attribute, a device at hand, and the name a key of the loaded
    dictionary and an attribute of the object. *)
Lemma check_loss_function_returns tmp_dict device n k (s : attrs) :
  check_loss_function rand tmp_dict device n k s = (inr tt, s) ->
  is_Some (s !! "_signal_shape") /\ is_Some device
  /\ is_Some (dict_lookup tmp_dict k) /\ is_Some (s !! k).
Proof.
  unfold check_loss_function, mbind, St_bind, getattr, throw, mret, St_ret.
  cbv beta iota.
  destruct (s !! "_signal_shape") as [[| | sh |] |] eqn:Hsh; cbv beta iota;
    try discriminate.
  destruct device as [dev |]; cbv beta iota zeta; [| discriminate].
  rewrite dict_get_lookup.
  destruct (dict_lookup tmp_dict k) as [[| id f | |] |] eqn:Hd;
    cbv beta iota; try discriminate.
  destruct (s !! k) as [init |] eqn:Hk; cbv beta iota; [| discriminate].
  intros _. repeat split; eexists; reflexivity.
Qed.

Lemma dict_lookup_None d k : dict_lookup d k = None <-> k ∉ d.*1.
Proof.
  induction d as [| [k' v] d IH]; cbn [dict_lookup fmap list_fmap fst].
  - split; [intros _; apply not_elem_of_nil | reflexivity].
  - rewrite not_elem_of_cons. destruct (decide (k' = k)) as [-> | Hne].
    + split; [discriminate | intros [Hk _]; contradiction].
    + rewrite IH. split; [intros H; split; [congruence | exact H] | tauto].
Qed.

(** With the keys of a dictionary all different, the attributes after
    assigning its items are its values where it has the key, and the
    attributes of before elsewhere. *)
Lemma assigned_lookup d (self : attrs) k :
  NoDup d.*1 ->
  assigned d self !! k
  = match dict_lookup d k with
    | Some v => Some v
    | None => self !! k
    end.
Proof.
  unfold assigned. revert self.
  induction d as [| [k' v] d IH]; intros self Hnd; [reflexivity |].
  cbn [fmap list_fmap fst] in Hnd. apply NoDup_cons in Hnd.
  destruct Hnd as [Hk' Hnd]. cbn [fold_left dict_lookup fst snd].
  rewrite (IH _ Hnd). destruct (decide (k' = k)) as [-> | Hne].
  - apply dict_lookup_None in Hk'. rewrite Hk'. apply lookup_insert_eq.
  - destruct (dict_lookup d k); [reflexivity |].
    apply lookup_insert_ne. exact Hne.
Qed.

Lemma moved_keys dev (d : list (string * value)) :
  (map (fun kv : string * value =>
          match kv with
          | (k, VTensor _ t) => (k, VTensor dev t)
          | _ => kv
          end) d).*1 = d.*1.
Proof.
  induction d as [| [k v] d IH]; [reflexivity |].
  cbn [map fmap list_fmap fst]. f_equal; [destruct v; reflexivity |].
  exact IH.
Qed.

Lemma dict_lookup_key d k : is_Some (dict_lookup d k) <-> k ∈ d.*1.
Proof.
  destruct (dict_lookup d k) as [v |] eqn:Hd.
  - split; [intros _ | intros _; eexists; reflexivity].
    destruct (decide (k ∈ d.*1)) as [Hin | Hnin]; [exact Hin |].
    apply dict_lookup_None in Hnin. congruence.
  - split; [intros [v Hv]; discriminate Hv |].
    intros Hin. apply dict_lookup_None in Hd. contradiction.
Qed.

Lemma first_device_tensor (d : list (string * value)) dev :
  first_device (map snd d) = Some dev ->
  exists k t, (k, VTensor dev t) ∈ d.
Proof.
  induction d as [| [k v] d IH]; cbn [map snd first_device];
    [discriminate |].
  destruct v as [dev' t | | |].
  - intros H. injection H as ->. exists k, t. apply elem_of_cons. left.
    reflexivity.
  - intros H. destruct (IH H) as (k' & t & Hin). exists k', t.
    apply elem_of_cons. right. exact Hin.
  - intros H. destruct (IH H) as (k' & t & Hin). exists k', t.
    apply elem_of_cons. right. exact Hin.
  - intros H. destruct (IH H) as (k' & t & Hin). exists k', t.
    apply elem_of_cons. right. exact Hin.
Qed.

(** [load] by cases: the file, the checks of the attributes, the checks
    of the loss functions, and then the assignments. *)
Lemma load_unfold file_path map_location check_attributes
    check_loss_functions (self : attrs) :
  load files rand py_ne file_path map_location check_attributes
    check_loss_functions self
  = match torch_load files file_path map_location self with
    | (inl e, _) => (inl e, self)
    | (inr tmp_dict, _) =>
        let device := match map_location with
                      | Some d => Some d
                      | None => first_device (map snd tmp_dict)
                      end in
        match (for_each (fun _ k => check_attribute py_ne tmp_dict k) 0
                 check_attributes self).1 with
        | inl e => (inl e, self)
        | inr _ =>
            match (for_each (fun n k => check_loss_function rand tmp_dict
                                          device n k) 0
                     check_loss_functions self).1 with
            | inl e => (inl e, self)
            | inr _ => (inr tt, assigned tmp_dict self)
            end
        end
    end.
Proof.
  unfold load, torch_load.
  destruct (files file_path) as [d |]; [| reflexivity].
  unfold mbind, St_bind, mret, St_ret. cbv beta iota zeta.
  set (tmp_dict := match map_location with
                   | Some dev => _
                   | None => d
                   end).
  set (device := match map_location with
                 | Some d0 => Some d0
                 | None => first_device (map snd tmp_dict)
                 end).
  pose proof (for_each_state (fun _ k => check_attribute py_ne tmp_dict k)
                (fun _ k s => check_attribute_state py_ne tmp_dict k s)
                check_attributes 0 self) as Ha.
  destruct (for_each (fun _ k => check_attribute py_ne tmp_dict k) 0
              check_attributes self) as [[e | []] s1];
    cbn [fst snd] in Ha |- *; subst s1; [reflexivity |].
  pose proof (for_each_state
                (fun n k => check_loss_function rand tmp_dict device n k)
                (fun n k s => check_loss_function_state rand tmp_dict
                                device n k s)
                check_loss_functions 0 self) as Hl.
  destruct (for_each (fun n k => check_loss_function rand tmp_dict device
                                   n k) 0 check_loss_functions self)
    as [[e | []] s2]; cbn [fst snd] in Hl |- *; subst s2; [reflexivity |].
  apply assign_all_spec.
Qed.

Lemma torch_load_state file_path map_location (s s' : attrs) r :
  torch_load files file_path map_location s = (r, s') ->
  s' = s /\ forall s0 : attrs,
              torch_load files file_path map_location s0 = (r, s0).
Proof.
  unfold torch_load. destruct (files file_path) as [d |];
    intros H; injection H as <- <-; split; reflexivity.
Qed.

Lemma load_returned file_path map_location check_attributes
    check_loss_functions (self : attrs) :
  (load files rand py_ne file_path map_location check_attributes
     check_loss_functions self).1 = inr tt ->
  exists tmp_dict,
    torch_load files file_path map_location self = (inr tmp_dict, self)
    /\ (for_each (fun _ k => check_attribute py_ne tmp_dict k) 0
          check_attributes self).1 = inr tt
    /\ load files rand py_ne file_path map_location check_attributes
         check_loss_functions self = (inr tt, assigned tmp_dict self).
Proof.
  rewrite load_unfold.
  destruct (torch_load files file_path map_location self)
    as [[e | tmp_dict] s'] eqn:Hload; [discriminate |].
  apply torch_load_state in Hload. destruct Hload as [-> _].
  cbv zeta.
  destruct (for_each (fun _ k => check_attribute py_ne tmp_dict k) 0
              check_attributes self).1 as [e | []] eqn:Ha; [discriminate |].
  destruct (for_each _ 0 check_loss_functions self).1 as [e | []];
    [discriminate |].
  intros _. exists tmp_dict.
  split; [reflexivity |]. split; [exact Ha | reflexivity].
Qed.

Lemma load_checked file_path map_location check_attributes
    check_loss_functions (self : attrs) :
  (load files rand py_ne file_path map_location check_attributes
     check_loss_functions self).1 = inr tt ->
  exists d tmp_dict device,
    files file_path = Some d
    /\ tmp_dict.*1 = d.*1
    /\ device = match map_location with
                | Some dev => Some dev
                | None => first_device (map snd d)
                end
    /\ (for_each (fun _ k => check_attribute py_ne tmp_dict k) 0
          check_attributes self).1 = inr tt
    /\ (for_each (fun n k => check_loss_function rand tmp_dict device n k)
          0 check_loss_functions self).1 = inr tt.
Proof.
  rewrite load_unfold. unfold torch_load.
  destruct (files file_path) as [d |]; [| discriminate].
  cbn [mret St_ret]. cbv zeta.
  set (tmp_dict := match map_location with
                   | Some dev => _
                   | None => d
                   end).
  set (device := match map_location with
                 | Some d0 => Some d0
                 | None => first_device (map snd tmp_dict)
                 end).
  destruct (for_each (fun _ k => check_attribute py_ne tmp_dict k) 0
              check_attributes self).1 as [e | []] eqn:Ha; [discriminate |].
  destruct (for_each (fun n k => check_loss_function rand tmp_dict device
                                   n k) 0 check_loss_functions self).1
    as [e | []] eqn:Hl; [discriminate |].
  intros _. exists d, tmp_dict, device.
  split; [reflexivity |].
  split; [subst tmp_dict; destruct map_location;
          [apply moved_keys | reflexivity] |].
  split; [subst device tmp_dict; destruct map_location; reflexivity |].
  split; [exact Ha | exact Hl].
Qed.

(** What [load] needs in order to return, whatever the values are.  If
    [load] returns, the file was there; every name in
    [check_attributes] and every name in [check_loss_functions] is an
    attribute of the object and a key of the file's dictionary; and with
    a loss function to check, [_signal_shape] is an attribute of the
    object and either a [map_location] was given or the file holds a
    tensor. *)
Theorem load_needs_names (file_path : string)
    (map_location : option string)
    (check_attributes check_loss_functions : list string) (self : attrs) :
  (load files rand py_ne file_path map_location check_attributes
     check_loss_functions self).1 = inr tt ->
  exists d,
    files file_path = Some d
    /\ Forall (fun k => is_Some (self !! k) /\ k ∈ d.*1) check_attributes
    /\ Forall (fun k => is_Some (self !! k) /\ k ∈ d.*1)
         check_loss_functions
    /\ (check_loss_functions <> [] ->
        is_Some (self !! "_signal_shape")
        /\ (is_Some map_location
            \/ exists dev k t, (k, VTensor dev t) ∈ d)).
Proof.
  intros H. apply load_checked in H.
  destruct H as (d & tmp_dict & device & Hfile & Hkeys & Hdev & Ha & Hl).
  pose proof (for_each_passed (fun _ k => check_attribute py_ne tmp_dict k)
                check_attributes
                (fun _ k s => check_attribute_state py_ne tmp_dict k s) 0
                self Ha)
    as Hattrs.
  pose proof (for_each_passed
                (fun n k => check_loss_function rand tmp_dict device n k)
                check_loss_functions
                (fun n k s => check_loss_function_state rand tmp_dict
                                device n k s) 0 self Hl)
    as Hlosses.
  exists d. split; [exact Hfile |]. split; [| split].
  - apply Forall_lookup. intros i k Hk.
    destruct (check_attribute_returns _ _ _ (Hattrs i k Hk)) as [Hs Hd].
    split; [exact Hs |]. rewrite <- Hkeys. apply dict_lookup_key, Hd.
  - apply Forall_lookup. intros i k Hk.
    destruct (check_loss_function_returns _ _ _ _ _ (Hlosses i k Hk))
      as (_ & _ & Hd & Hs).
    split; [exact Hs |]. rewrite <- Hkeys. apply dict_lookup_key, Hd.
  - intros Hne. destruct check_loss_functions as [| k l]; [congruence |].
    destruct (check_loss_function_returns _ _ _ _ _
                (Hlosses 0%nat k eq_refl)) as (Hshape & Hsome & _ & _).
    split; [exact Hshape |].
    destruct map_location as [dev |]; [left; eexists; reflexivity |].
    right. rewrite Hdev in Hsome. destruct Hsome as [dev Hsome].
    destruct (first_device_tensor d dev Hsome) as (k' & t & Hin).
    exists dev, k', t. exact Hin.
Qed.

(** After [load] has returned, the keys of the loaded dictionary being
    all different as in any python dict: an attribute named in the
    dictionary has the loaded value, and every other attribute is what
    it was, none is removed. *)
Theorem load_assigns (file_path : string) (map_location : option string)
    (check_attributes check_loss_functions : list string) (self : attrs)
    (tmp_dict : list (string * value)) :
  torch_load files file_path map_location self = (inr tmp_dict, self) ->
  NoDup tmp_dict.*1 ->
  (load files rand py_ne file_path map_location check_attributes
     check_loss_functions self).1 = inr tt ->
  forall k,
    (load files rand py_ne file_path map_location check_attributes
       check_loss_functions self).2 !! k
    = match dict_lookup tmp_dict k with
      | Some v => Some v
      | None => self !! k
      end.
Proof.
  intros Hload Hnd H k. apply load_returned in H.
  destruct H as (tmp & Hload' & _ & ->).
  assert (tmp = tmp_dict) as -> by congruence.
  cbn [snd]. apply assigned_lookup. exact Hnd.
Qed.

Lemma moved_lookup dev (d : list (string * value)) k :
  dict_lookup (map (fun kv : string * value =>
                      match kv with
                      | (k, VTensor _ t) => (k, VTensor dev t)
                      | _ => kv
                      end) d) k
  = match dict_lookup d k with
    | Some (VTensor _ t) => Some (VTensor dev t)
    | r => r
    end.
Proof.
  induction d as [| [k' v] d IH]; [reflexivity |].
  cbn [map]. destruct v; cbn [dict_lookup];
    destruct (decide (k' = k)); (reflexivity || exact IH).
Qed.

(** With a [map_location], after [load] has returned every tensor of
    the file is an attribute on that device, with the entries it was
    saved with, and every other value of the file is an attribute as it
    was saved. *)
Theorem load_moves_tensors (file_path dev : string)
    (check_attributes check_loss_functions : list string) (self : attrs)
    (d : list (string * value)) :
  files file_path = Some d -> NoDup d.*1 ->
  (load files rand py_ne file_path (Some dev) check_attributes
     check_loss_functions self).1 = inr tt ->
  forall k v,
    dict_lookup d k = Some v ->
    (load files rand py_ne file_path (Some dev) check_attributes
       check_loss_functions self).2 !! k
    = Some (match v with
            | VTensor _ t => VTensor dev t
            | _ => v
            end).
Proof.
  intros Hfile Hnd H k v Hv. apply load_returned in H.
  destruct H as (tmp & Hload & _ & ->).
  unfold torch_load in Hload. rewrite Hfile in Hload.
  injection Hload as <-. cbn [snd].
  rewrite assigned_lookup by (rewrite moved_keys; exact Hnd).
  rewrite moved_lookup, Hv. destruct v; reflexivity.
Qed.

(** Without a [map_location] and without a tensor among the values of
    the file, [device] is never assigned: [load] with a loss function
    to check never returns, and on an object that has its
    [_signal_shape] and with no attribute to check it raises the
    [UnboundLocalError] of the first use of [device]; the attributes
    are left as they were. *)
Theorem load_without_device (file_path : string)
    (check_attributes check_loss_functions : list string) (k : string)
    (self : attrs) (d : list (string * value)) (signal_shape : list nat) :
  files file_path = Some d -> first_device (map snd d) = None ->
  self !! "_signal_shape" = Some (VShape signal_shape) ->
  (exists e, load files rand py_ne file_path None check_attributes
               (k :: check_loss_functions) self = (inl e, self))
  /\ load files rand py_ne file_path None [] (k :: check_loss_functions) self
     = (inl UnboundLocalError, self).
Proof.
  intros Hfile Hdev Hshape.
  assert (Hloss : forall n,
             (for_each (fun n k => check_loss_function rand d None n k) n
                (k :: check_loss_functions) self).1
             = inl UnboundLocalError).
  { intros n. cbn [for_each]. unfold mbind, St_bind.
    unfold check_loss_function at 1. unfold mbind, St_bind, getattr.
    rewrite Hshape. reflexivity. }
  split.
  - rewrite load_unfold. unfold torch_load. rewrite Hfile.
    cbn [mret St_ret]. cbv zeta. rewrite Hdev.
    destruct (for_each _ 0 check_attributes self).1 as [e | []];
      [exists e; reflexivity |].
    exists UnboundLocalError. rewrite (Hloss 0%nat). reflexivity.
  - rewrite load_unfold. unfold torch_load. rewrite Hfile.
    cbn [mret St_ret]. cbv zeta. rewrite Hdev.
    change ((for_each (fun _ k0 => check_attribute py_ne d k0) 0 [] self).1)
      with (@inr load_exn unit tt).
    cbv iota. rewrite (Hloss 0%nat). reflexivity.
Qed.

End LoadMore.

Section LoadMoreExamples.
Import Torch synthesis checkpoints examples.

Lemma load_needs_names_witness :
  exists d,
    saved_run "run.pt" = Some d
    /\ Forall (fun k => is_Some (({[ "step" := VOther "7" ]} : attrs) !! k)
                        /\ k ∈ d.*1) ["step"].
Proof.
  destruct (load_needs_names saved_run (fun _ s => zeros s) repr_ne
              "run.pt" None
              ["step"] [] ({[ "step" := VOther "7" ]} : attrs))
    as (d & Hfile & Hattrs & _).
  - vm_compute. reflexivity.
  - exists d. split; [exact Hfile | exact Hattrs].
Defined.

Lemma load_assigns_witness :
  (load saved_run (fun _ s => zeros s) repr_ne "run.pt" None [] []
     fresh_object).2
    !! "step"
  = Some (VOther "7").
Proof.
  apply (load_assigns saved_run (fun _ s => zeros s) repr_ne "run.pt" None [] []
           fresh_object [("scale", VOther "2"); ("step", VOther "7")]).
  - reflexivity.
  - apply NoDup_cons. split; [| apply NoDup_singleton].
    intros H. apply list_elem_of_singleton in H. discriminate H.
  - vm_compute. reflexivity.
Defined.

Lemma load_moves_tensors_witness :
  (load gpu_run (fun _ s => zeros s) repr_ne "gpu.pt" (Some "cpu") [] []
     fresh_object).2 !! "image"
  = Some (VTensor "cpu" one_pixel).
Proof.
  assert (Hnd : NoDup [("image", VTensor "cuda:0" one_pixel);
                       ("step", VOther "7")].*1).
  { apply NoDup_cons. split; [| apply NoDup_singleton].
    intros H. apply list_elem_of_singleton in H. discriminate H. }
  exact (load_moves_tensors gpu_run (fun _ s => zeros s) repr_ne "gpu.pt"
           "cpu" []
           [] fresh_object
           [("image", VTensor "cuda:0" one_pixel); ("step", VOther "7")]
           eq_refl Hnd eq_refl "image" (VTensor "cuda:0" one_pixel)
           eq_refl).
Defined.

Lemma load_without_device_witness :
  load saved_run (fun _ s => zeros s) repr_ne "run.pt" None [] ["loss_function"]
    shaped_object
  = (inl UnboundLocalError, shaped_object).
Proof.
  apply (load_without_device saved_run (fun _ s => zeros s) repr_ne
           "run.pt" [] []
           "loss_function" shaped_object
           [("scale", VOther "2"); ("step", VOther "7")] [1; 1; 1; 1]%nat
           eq_refl eq_refl).
  vm_compute. reflexivity.
Defined.

End LoadMoreExamples.

(** ** [Synthesis.save] *)

Section SaveFacts.
Import Torch synthesis checkpoints examples.

Lemma dict_set_lookup d k v k' :
  dict_lookup (dict_set d k v) k'
  = if decide (k = k') then Some v else dict_lookup d k'.
Proof.
  induction d as [| [k0 v0] d IH]; cbn [dict_set dict_lookup].
  - destruct (decide (k = k')); reflexivity.
  - destruct (decide (k0 = k)) as [-> | Hne]; cbn [dict_lookup].
    + destruct (decide (k = k')); reflexivity.
    + rewrite IH. destruct (decide (k0 = k')) as [-> | Hne'];
        [| reflexivity].
      destruct (decide (k = k')); [congruence | reflexivity].
Qed.

Lemma dict_set_keys d k v :
  (dict_set d k v).*1 = if decide (k ∈ d.*1) then d.*1 else d.*1 ++ [k].
Proof.
  induction d as [| [k0 v0] d IH]; cbn [dict_set fmap list_fmap fst app].
  - destruct (decide (k ∈ [])) as [H | _]; [| reflexivity].
    apply elem_of_nil in H. destruct H.
  - destruct (decide (k0 = k)) as [-> | Hne]; cbn [fmap list_fmap fst].
    + destruct (decide (k ∈ k :: d.*1)) as [_ | H]; [reflexivity |].
      exfalso. apply H, elem_of_cons. left. reflexivity.
    + change (list_fmap _ _ fst ?l) with (l.*1). rewrite IH.
      destruct (decide (k ∈ d.*1)) as [Hin | Hnin];
        destruct (decide (k ∈ k0 :: d.*1)) as [Hin' | Hnin'];
        try reflexivity.
      * exfalso. apply Hnin', elem_of_cons. right. exact Hin.
      * exfalso. apply elem_of_cons in Hin'.
        destruct Hin' as [-> | Hin']; [congruence | contradiction].
Qed.

Lemma dict_set_NoDup d k v : NoDup d.*1 -> NoDup (dict_set d k v).*1.
Proof.
  intros Hnd. rewrite dict_set_keys.
  destruct (decide (k ∈ d.*1)) as [_ | Hnin]; [exact Hnd |].
  apply NoDup_app. split; [exact Hnd |].
  split; [| apply NoDup_singleton].
  intros x Hx Hxk. apply list_elem_of_singleton in Hxk. subst x.
  contradiction.
Qed.

(** The loop of [save] on names that are all attributes. *)
Lemma save_loop_returns (self : attrs) names :
  Forall (fun k => is_Some (self !! k)) names ->
  forall acc, NoDup acc.*1 ->
    exists save_dict,
      save_loop self names acc = (model_warnings names, inr save_dict)
      /\ NoDup save_dict.*1
      /\ forall k, dict_lookup save_dict k
                   = if decide (k ∈ names) then self !! k
                     else dict_lookup acc k.
Proof.
  induction names as [| k names IH]; intros Hall acc Hnd.
  - exists acc. split; [reflexivity |]. split; [exact Hnd |].
    intros k. destruct (decide (k ∈ [])) as [H | _]; [| reflexivity].
    apply elem_of_nil in H. destruct H.
  - apply Forall_cons in Hall. destruct Hall as [[v Hv] Hall].
    cbn [save_loop model_warnings flat_map]. unfold getattr.
    rewrite Hv. cbn [fst].
    set (attr := match v with
                 | VTensor device t => detach device t
                 | _ => v
                 end).
    assert (Hattr : attr = v) by (destruct v; reflexivity).
    destruct (IH Hall (dict_set acc k attr) (dict_set_NoDup _ _ _ Hnd))
      as (save_dict & -> & Hnd' & Hd).
    exists save_dict. split; [reflexivity |]. split; [exact Hnd' |].
    intros k'. rewrite Hd, dict_set_lookup, Hattr.
    destruct (decide (k' ∈ names)) as [Hin | Hnin].
    + rewrite decide_True by (apply elem_of_cons; right; exact Hin).
      reflexivity.
    + destruct (decide (k = k')) as [<- | Hne].
      * rewrite decide_True by (apply elem_of_cons; left; reflexivity).
        symmetry. exact Hv.
      * rewrite decide_False; [reflexivity |].
        intros Hin. apply elem_of_cons in Hin.
        destruct Hin as [-> | Hin]; [congruence | contradiction].
Qed.

(** The loop of [save] up to a name that is no attribute. *)
Lemma save_loop_raises (self : attrs) before k after :
  Forall (fun k => is_Some (self !! k)) before -> self !! k = None ->
  forall acc,
    save_loop self (before ++ k :: after) acc
    = (model_warnings (before ++ [k]), inl (AttributeError k)).
Proof.
  intros Hall Hk. induction before as [| k0 before IH]; intros acc.
  - cbn [app save_loop model_warnings flat_map]. unfold getattr.
    rewrite Hk. cbn [fst]. rewrite app_nil_r. reflexivity.
  - apply Forall_cons in Hall. destruct Hall as [[v Hv] Hall].
    cbn [app save_loop model_warnings flat_map]. unfold getattr.
    rewrite Hv. cbn [fst]. rewrite (IH Hall). reflexivity.
Qed.

Lemma unlisted_model (self : attrs) k :
  k ∈ (map_to_list (delete "model" self)).*1
  <-> k <> "model" /\ is_Some (self !! k).
Proof.
  rewrite list_elem_of_fmap. split.
  - intros ([k' v] & -> & Hin). apply elem_of_map_to_list in Hin.
    cbn [fst]. apply lookup_delete_Some in Hin.
    destruct Hin as [Hne Hv]. split; [congruence | eexists; exact Hv].
  - intros [Hne [v Hv]]. exists (k, v). split; [reflexivity |].
    apply elem_of_map_to_list. apply lookup_delete_Some.
    split; [congruence | exact Hv].
Qed.

Lemma model_warnings_none names :
  "model" ∉ names -> model_warnings names = [].
Proof.
  induction names as [| k names IH]; intros H; [reflexivity |].
  apply not_elem_of_cons in H. destruct H as [Hne Hnin].
  cbn [model_warnings flat_map].
  rewrite decide_False by congruence. apply IH. exact Hnin.
Qed.

Variable torch_save :
  (string -> option (list (string * value))) -> string ->
  list (string * value) ->
  load_exn + (string -> option (list (string * value))).
Variable files : string -> option (list (string * value)).

(** [save] with [attrs=None] never warns, and raises or returns as
    [torch.save] does: every [getattr] of its loop succeeds, and
    [torch.save] is called once, with the path and a dictionary that
    holds every attribute of the object but ['model'] with its value
    (a tensor detached), and nothing more. *)
Theorem save_of_all_attributes (file_path : string) (self : attrs) :
  exists save_dict,
    save torch_save files file_path None self
    = ([], torch_save files file_path save_dict)
    /\ NoDup save_dict.*1
    /\ forall k, dict_lookup save_dict k
                 = if decide (k = "model") then None else self !! k.
Proof.
  unfold save.
  set (listed := (map_to_list (delete "model" self)).*1).
  assert (Hall : Forall (fun k => is_Some (self !! k)) listed).
  { apply Forall_forall. intros k Hk. apply unlisted_model in Hk.
    apply Hk. }
  destruct (save_loop_returns self listed Hall [] (NoDup_nil_2 (A := string)))
    as (save_dict & -> & Hnd & Hlook).
  exists save_dict. rewrite model_warnings_none.
  - split; [reflexivity |]. split; [exact Hnd |].
    intros k. rewrite Hlook. cbn [dict_lookup].
    destruct (decide (k ∈ listed)) as [Hin | Hnin].
    + apply unlisted_model in Hin.
      rewrite decide_False by apply Hin. reflexivity.
    + destruct (decide (k = "model")) as [_ | Hne]; [reflexivity |].
      destruct (self !! k) as [v |] eqn:Hv; [| reflexivity].
      exfalso. apply Hnin, unlisted_model.
      split; [exact Hne | exists v; exact Hv].
  - intros Hin. apply unlisted_model in Hin. destruct Hin as [Hne _].
    congruence.
Qed.

(** [save] with a list of names that are all attributes of the object
    warns once for each time ['model'] is listed, and raises or returns
    as [torch.save] does, called once with the path and a dictionary
    that holds exactly the listed attributes with their values (a
    tensor detached), a name listed twice held once. *)
Theorem save_of_listed_attributes (file_path : string)
    (names : list string) (self : attrs) :
  Forall (fun k => is_Some (self !! k)) names ->
  exists save_dict,
    save torch_save files file_path (Some names) self
    = (model_warnings names, torch_save files file_path save_dict)
    /\ NoDup save_dict.*1
    /\ forall k, dict_lookup save_dict k
                 = if decide (k ∈ names) then self !! k else None.
Proof.
  intros Hall. unfold save.
  destruct (save_loop_returns self names Hall [] (NoDup_nil_2 (A := string)))
    as (save_dict & -> & Hnd & Hlook).
  exists save_dict. split; [reflexivity |]. split; [exact Hnd |].
  exact Hlook.
Qed.

(** [save] with a list that names something that is no attribute of
    the object raises the [AttributeError] of the first such name,
    after the warnings for ['model'] up to and with that name, and
    writes no file. *)
Theorem save_of_missing_attribute (file_path : string)
    (before after : list string) (k : string) (self : attrs) :
  Forall (fun k => is_Some (self !! k)) before -> self !! k = None ->
  save torch_save files file_path (Some (before ++ k :: after)) self
  = (model_warnings (before ++ [k]), inl (AttributeError k)).
Proof.
  intros Hall Hk. unfold save.
  rewrite (save_loop_raises self before k after Hall Hk). reflexivity.
Qed.

End SaveFacts.

Section SaveExamples.
Import Torch synthesis checkpoints examples.

Lemma save_of_listed_attributes_witness :
  exists save_dict,
    save writable_disk no_files "ckpt.pt" (Some ["model"; "_signal_shape"])
      shaped_object
    = ([ModelSaved], writable_disk no_files "ckpt.pt" save_dict).
Proof.
  destruct (save_of_listed_attributes writable_disk no_files "ckpt.pt"
              ["model"; "_signal_shape"] shaped_object)
    as (save_dict & Hsave & _).
  - repeat constructor; eexists; vm_compute; reflexivity.
  - exists save_dict. exact Hsave.
Defined.

Lemma save_of_missing_attribute_witness :
  save writable_disk no_files "ckpt.pt"
    (Some ["model"; "synthesized_signal"]) shaped_object
  = ([ModelSaved], inl (AttributeError "synthesized_signal")).
Proof.
  apply (save_of_missing_attribute writable_disk no_files "ckpt.pt"
           ["model"] [] "synthesized_signal" shaped_object).
  - repeat constructor. eexists. vm_compute. reflexivity.
  - vm_compute. reflexivity.
Defined.

End SaveExamples.
